(** * cc_paper_tool: the bilingual PDF generator, [generate_pdf.py]

    A shallow embedding of the parts of [generate_pdf.py] that decide the
    behaviour of the math-protection codec, the translation merger, the
    spread composer and the batch driver, followed by the theorems that
    relate it to the written specification.

    Conventions of the embedding.
    - A Python [str] is a [text]: a list of 8-bit code points ([ascii]).
      On that range the classes [\s], [\d] and [str.strip] of Python are
      exactly [is_space] and [is_digit] below.
    - A Python [dict] is an insertion-ordered association list ([Dict]).
    - Python [int] is [Z]; the floating-point page geometry is read in exact
      rational arithmetic ([Q]).
    - External collaborators (the markdown converter, the headless browser
      renderer, the file system) are parameters of a section.
    - Exceptions and observable side effects are kept in a small
      trace-and-exception monad ([M]). *)

From Stdlib Require Import Ascii String List Bool Arith ZArith QArith Qminmax Lqa
  Lia Sorted.
Import ListNotations.
Close Scope Q_scope.

Set Implicit Arguments.

(* ================================================================== *)
(** * Texts *)
(* ================================================================== *)

Definition text := list ascii.

(** String literals are written [lit "..."]. *)
Definition lit (s : string) : text := list_ascii_of_string s.

Definition dollar : ascii := "$"%char.
Definition newline : ascii := "010"%char.

Definition is_dollar (c : ascii) : bool := Ascii.eqb c dollar.
Definition is_newline (c : ascii) : bool := Ascii.eqb c newline.

(** [\d] on 8-bit code points: the ten ASCII digits. *)
Definition is_digit (c : ascii) : bool :=
  let n := nat_of_ascii c in (48 <=? n) && (n <=? 57).

(** [\s] and [str.isspace] on 8-bit code points: TAB, LF, VT, FF, CR,
    FS, GS, RS, US, SPACE, NEL (0x85) and NBSP (0xA0). *)
Definition is_space (c : ascii) : bool :=
  let n := nat_of_ascii c in
  ((9 <=? n) && (n <=? 13)) || ((28 <=? n) && (n <=? 32))
  || (n =? 133) || (n =? 160).

Fixpoint text_eqb (a b : text) : bool :=
  match a, b with
  | [], [] => true
  | x :: a', y :: b' => Ascii.eqb x y && text_eqb a' b'
  | _, _ => false
  end.

(** [strip_prefix p s] is [Some r] when [s = p ++ r] ([str.startswith]). *)
Fixpoint strip_prefix (p s : text) : option text :=
  match p with
  | [] => Some s
  | x :: p' =>
      match s with
      | y :: s' => if Ascii.eqb x y then strip_prefix p' s' else None
      | [] => None
      end
  end.

Fixpoint drop_while (f : ascii -> bool) (s : text) : text :=
  match s with
  | c :: s' => if f c then drop_while f s' else s
  | [] => []
  end.

Fixpoint take_while (f : ascii -> bool) (s : text) : text :=
  match s with
  | c :: s' => if f c then c :: take_while f s' else []
  | [] => []
  end.

(** [str.strip()]: leading and trailing whitespace removed. *)
Definition lstrip (s : text) : text := drop_while is_space s.
Definition rstrip (s : text) : text := rev (drop_while is_space (rev s)).
Definition strip (s : text) : text := rstrip (lstrip s).

(** [str.replace(old, new)]: every non-overlapping occurrence of [old],
    found left to right, is replaced.  An empty [old] inserts [new] before
    every character and at the end, as Python does. *)
Fixpoint replace_loop (fuel : nat) (old new s : text) : text :=
  match fuel with
  | O => s
  | S fuel' =>
      match strip_prefix old s with
      | Some rest => new ++ replace_loop fuel' old new rest
      | None =>
          match s with
          | c :: s' => c :: replace_loop fuel' old new s'
          | [] => []
          end
      end
  end.

Definition replace (old new s : text) : text :=
  match old with
  | [] => new ++ flat_map (fun c => c :: new) s
  | _ :: _ => replace_loop (S (length s)) old new s
  end.

(** [old in s]: [old] occurs in [s] as a substring. *)
Fixpoint occursb (old s : text) : bool :=
  match strip_prefix old s with
  | Some _ => true
  | None =>
      match s with
      | _ :: s' => occursb old s'
      | [] => false
      end
  end.

(** [int(s)] on a string of decimal digits. *)
Definition digit_val (c : ascii) : Z := (Z.of_nat (nat_of_ascii c) - 48)%Z.
Definition int_of_digits (s : text) : Z :=
  fold_left (fun acc c => (10 * acc + digit_val c)%Z) s 0%Z.

(** [f"{n:04d}"]: decimal, zero-padded on the left to four digits. *)
Definition digit_char (d : nat) : ascii := ascii_of_nat (48 + d).

Fixpoint decimal_loop (fuel n : nat) (acc : text) : text :=
  match fuel with
  | O => acc
  | S fuel' =>
      let acc' := digit_char (n mod 10) :: acc in
      if n / 10 =? 0 then acc' else decimal_loop fuel' (n / 10) acc'
  end.

Definition decimal (n : nat) : text := decimal_loop (S n) n [].

Definition format_04d (n : nat) : text :=
  let d := decimal n in repeat "0"%char (4 - length d) ++ d.

(* ================================================================== *)
(** * Dictionaries *)
(* ================================================================== *)

Module Dict.
Section Dict.
Variables (K V : Type) (eqb : K -> K -> bool).

Definition dict := list (K * V).

Definition empty : dict := [].

(** [d[k] = v]: an existing key keeps its position, a new key goes last. *)
Fixpoint set (d : dict) (k : K) (v : V) : dict :=
  match d with
  | [] => [(k, v)]
  | (k', v') :: d' =>
      if eqb k' k then (k, v) :: d' else (k', v') :: set d' k v
  end.

Fixpoint get (d : dict) (k : K) : option V :=
  match d with
  | [] => None
  | (k', v') :: d' => if eqb k' k then Some v' else get d' k
  end.

(** [k in d] *)
Definition mem (d : dict) (k : K) : bool :=
  match get d k with Some _ => true | None => false end.

(** [not d] *)
Definition is_empty (d : dict) : bool :=
  match d with [] => true | _ :: _ => false end.

Definition keys (d : dict) : list K := map fst d.
End Dict.
End Dict.

(* ================================================================== *)
(** * The math-protection codec *)
(* ================================================================== *)

(** A matcher tries the pattern at the current position: it is given
    whether the previous character of the subject is a dollar (for the
    look-behind) and the remaining input, and returns the matched span and
    what follows it. *)
Definition matcher := bool -> text -> option (text * text).

(** Closing [\$\$] of a block span: the first position where two dollars
    follow each other ([.+?] is lazy and, with DOTALL, takes any
    character). *)
Fixpoint find_close_block (s : text) : option (text * text) :=
  match s with
  | [] => None
  | c :: s' =>
      match s' with
      | d :: rest =>
          if is_dollar c && is_dollar d then Some ([], rest)
          else
            match find_close_block s' with
            | Some (body, r) => Some (c :: body, r)
            | None => None
            end
      | [] => None
      end
  end.

(** [\$\$(.+?)\$\$] with [re.DOTALL]. *)
Definition match_block : matcher := fun _ s =>
  match s with
  | c1 :: c2 :: c3 :: s' =>
      if is_dollar c1 && is_dollar c2 then
        match find_close_block s' with
        | Some (body, rest) =>
            Some (c1 :: c2 :: c3 :: body ++ [dollar; dollar], rest)
        | None => None
        end
      else None
  | _ => None
  end.

(** Closing [\$(?!\$)] of an inline span: the first dollar that is not
    followed by a dollar; [.] does not cross a line break. *)
Fixpoint find_close_inline (s : text) : option (text * text) :=
  match s with
  | [] => None
  | c :: s' =>
      if is_dollar c
         && match s' with d :: _ => negb (is_dollar d) | [] => true end
      then Some ([], s')
      else if is_newline c then None
      else
        match find_close_inline s' with
        | Some (body, r) => Some (c :: body, r)
        | None => None
        end
  end.

(** [(?<!\$)\$(?!\$)(.+?)\$(?!\$)] *)
Definition match_inline : matcher := fun prev_dollar s =>
  if prev_dollar then None
  else
    match s with
    | c1 :: c2 :: s' =>
        if is_dollar c1 && negb (is_dollar c2) && negb (is_newline c2) then
          match find_close_inline s' with
          | Some (body, rest) => Some (c1 :: c2 :: body ++ [dollar], rest)
          | None => None
          end
        else None
    | _ => None
    end.

Definition placeholders := Dict.dict text text.

(** The state shared by the two callbacks: the dictionary [placeholders]
    and the cell [counter[0]]. *)
Definition codec_state := (placeholders * nat)%type.

Definition ends_with_dollar (span : text) : bool :=
  match rev span with c :: _ => is_dollar c | [] => false end.

(** [re.sub(pattern, callback, s)]: the leftmost match is replaced by the
    key the callback returns, and the scan resumes right after the match. *)
Fixpoint sub_loop (fuel : nat) (m : matcher) (prefix : text)
    (prev_dollar : bool) (s : text) (st : codec_state)
    : text * codec_state :=
  match fuel with
  | O => (s, st)
  | S fuel' =>
      match m prev_dollar s with
      | Some (span, rest) =>
          let key := prefix ++ format_04d (snd st) in
          let st' := (Dict.set text_eqb (fst st) key span, S (snd st)) in
          let (out, st'') :=
            sub_loop fuel' m prefix (ends_with_dollar span) rest st' in
          (key ++ out, st'')
      | None =>
          match s with
          | c :: s' =>
              let (out, st') :=
                sub_loop fuel' m prefix (is_dollar c) s' st in
              (c :: out, st')
          | [] => ([], st)
          end
      end
  end.

Definition re_sub (m : matcher) (prefix : text) (s : text)
    (st : codec_state) : text * codec_state :=
  sub_loop (S (length s)) m prefix false s st.

Definition MATHBLOCK : text := lit "MATHBLOCK".
Definition MATHINLINE : text := lit "MATHINLINE".

(** [protect_math], with the final value of the counter kept visible. *)
Definition protect_math_run (md_text : text) : text * codec_state :=
  let (text1, st1) := re_sub match_block MATHBLOCK md_text (Dict.empty _ _, 0) in
  re_sub match_inline MATHINLINE text1 st1.

Definition protect_math (md_text : text) : text * placeholders :=
  let (text2, st) := protect_math_run md_text in (text2, fst st).

(** Number of spans captured, the final [counter[0]]. *)
Definition math_spans (md_text : text) : nat :=
  snd (snd (protect_math_run md_text)).

(** [restore_math]: the keys are substituted in insertion order. *)
Fixpoint restore_math (html_text : text) (ph : placeholders) : text :=
  match ph with
  | [] => html_text
  | (key, original) :: ph' => restore_math (replace key original html_text) ph'
  end.


(* ------------------------------------------------------------------ *)
(** ** Reading a protected text *)

(** What one pass of [re.sub] makes of its subject: characters it leaves
    alone and spans it hands to the callback. *)
Inductive piece : Type :=
| Chr (c : ascii)
| Span (span : text).

Fixpoint scan_loop (fuel : nat) (m : matcher) (prev_dollar : bool) (s : text)
    : list piece :=
  match fuel with
  | O => map Chr s
  | S fuel' =>
      match m prev_dollar s with
      | Some (span, rest) =>
          Span span :: scan_loop fuel' m (ends_with_dollar span) rest
      | None =>
          match s with
          | c :: s' => Chr c :: scan_loop fuel' m (is_dollar c) s'
          | [] => []
          end
      end
  end.

Definition scan (m : matcher) (prev_dollar : bool) (s : text) : list piece :=
  scan_loop (S (length s)) m prev_dollar s.

(** A protected text is a sequence of plain characters and of tokens,
    each token standing for the span it replaced. *)
Inductive item : Type :=
| Lit (c : ascii)
| Tok (key original : text).

(** The text as it stands, with the tokens in place. *)
Definition cur (its : list item) : text :=
  flat_map (fun it => match it with Lit c => [c] | Tok k _ => k end) its.

(** The text with every token replaced by its span. *)
Definition org (its : list item) : text :=
  flat_map (fun it => match it with Lit c => [c] | Tok _ o => o end) its.

Definition toks (its : list item) : list (text * text) :=
  flat_map (fun it => match it with Lit _ => [] | Tok k o => [(k, o)] end) its.

(** The spans of a pass get the keys [prefix ++ format_04d n] for
    consecutive [n]. *)
Fixpoint number (prefix : text) (n : nat) (ps : list piece) : list item :=
  match ps with
  | [] => []
  | Chr c :: ps' => Lit c :: number prefix n ps'
  | Span sp :: ps' => Tok (prefix ++ format_04d n) sp :: number prefix (S n) ps'
  end.

Fixpoint spans (ps : list piece) : list text :=
  match ps with
  | [] => []
  | Chr _ :: ps' => spans ps'
  | Span sp :: ps' => sp :: spans ps'
  end.

(** One step of [restore_math] on the items: the tokens with key [k] give
    way to the characters of [o]. *)
Definition expand (k o : text) (its : list item) : list item :=
  flat_map (fun it =>
              match it with
              | Lit c => [Lit c]
              | Tok k' o' => if text_eqb k' k then map Lit o else [Tok k' o']
              end) its.

Definition add_entry (ph : placeholders) (kv : text * text) : placeholders :=
  Dict.set text_eqb ph (fst kv) (snd kv).

(** Every span a matcher returns is a prefix of its input that starts and
    ends with a dollar. *)
Definition dollar_spans (m : matcher) : Prop :=
  forall prev s span rest,
    m prev s = Some (span, rest) ->
    s = span ++ rest /\ exists body, span = dollar :: body ++ [dollar].

(** A key is an [M] followed by characters other than [M] and the
    dollar. *)
Definition key_like (k : text) : Prop :=
  exists tail, k = "M"%char :: tail
               /\ ~ In "M"%char tail /\ ~ In dollar tail.

(** Two keys that cannot be mistaken for each other, whatever follows. *)
Definition apart (k k' : text) : Prop :=
  forall r, strip_prefix k (k' ++ r) = None.

(** No token issued for [md_text] occurs in [md_text] itself or in one of
    the spans captured from it. *)
Definition fresh_tokens (md_text : text) : bool :=
  let ph := snd (protect_math md_text) in
  forallb (fun kv =>
             negb (occursb (fst kv) md_text)
             && forallb (fun kv' => negb (occursb (fst kv) (snd kv'))) ph)
          ph.

(** [md_to_html]: the markdown converter sees only the protected text. *)
Definition md_to_html (markdown : text -> text) (md_text : text) : text :=
  let (protected, ph) := protect_math md_text in
  restore_math (markdown protected) ph.

(** The dollars of a text. *)
Definition count_dollars (s : text) : nat := length (filter is_dollar s).

(** A captured block span: two dollars, at least one character, two
    dollars. *)
Definition block_shaped (o : text) : Prop :=
  exists body, body <> [] /\ o = [dollar; dollar] ++ body ++ [dollar; dollar].

(** A captured inline span: a dollar, at least one character, none of them
    a line break and the first not a dollar, and a dollar. *)
Definition inline_shaped (o : text) : Prop :=
  exists c body,
    o = dollar :: c :: body ++ [dollar]
    /\ c <> dollar /\ ~ In newline (c :: body).

(* ================================================================== *)
(** * The translation merger *)
(* ================================================================== *)

(** One or more characters of a class, taken greedily. *)
Definition take_some (f : ascii -> bool) (s : text) : option (text * text) :=
  match take_while f s with
  | [] => None
  | w => Some (w, drop_while f s)
  end.

(** The page marker [<!--\s*PAGE\s+(\d+)\s*-->] tried at the start of [s]:
    the digits of group 1 and what follows the match.  The character
    classes of neighbouring pieces are disjoint, so the greedy reading is
    the only one. *)
Definition match_marker (s : text) : option (text * text) :=
  match strip_prefix (lit "<!--") s with
  | None => None
  | Some s1 =>
      match strip_prefix (lit "PAGE") (drop_while is_space s1) with
      | None => None
      | Some s2 =>
          match take_some is_space s2 with
          | None => None
          | Some (_, s3) =>
              match take_some is_digit s3 with
              | None => None
              | Some (digits, s4) =>
                  match strip_prefix (lit "-->") (drop_while is_space s4) with
                  | None => None
                  | Some rest => Some (digits, rest)
                  end
              end
          end
      end
  end.

(** [re.split] with one capturing group: the piece before the first
    match, then for every match its group and the piece after it. *)
Fixpoint split_loop (fuel : nat) (s : text) : text * list text :=
  match fuel with
  | O => (s, [])
  | S fuel' =>
      match match_marker s with
      | Some (digits, rest) =>
          let (piece, more) := split_loop fuel' rest in
          ([], digits :: piece :: more)
      | None =>
          match s with
          | c :: s' =>
              let (piece, more) := split_loop fuel' s' in
              (c :: piece, more)
          | [] => ([], [])
          end
      end
  end.

Definition split_text (s : text) : text * list text :=
  split_loop (S (length s)) s.

Definition re_split (s : text) : list text :=
  let (piece, more) := split_text s in piece :: more.

Definition pages_dict := Dict.dict Z text.

(** The [while idx < len(parts) - 1] loop. *)
Fixpoint merge_loop (fuel : nat) (parts : list text) (idx : nat)
    (pages : pages_dict) : pages_dict :=
  match fuel with
  | O => pages
  | S fuel' =>
      if idx <? length parts - 1 then
        match nth_error parts idx, nth_error parts (idx + 1) with
        | Some number, Some body =>
            let page_num := int_of_digits number in
            let content := strip body in
            merge_loop fuel' parts (idx + 2) (Dict.set Z.eqb pages page_num content)
        | _, _ => pages
        end
      else pages
  end.

(** The text the fragment files add up to: every file followed by a line
    break, in sorted file-name order. *)
Definition all_text (files : list text) : text :=
  fold_left (fun acc f => acc ++ f ++ [newline]) files [].

(** [merge_translations]; [files] holds the contents of the files that
    [glob] finds, in sorted order. *)
Definition merge_translations (files : list text) : pages_dict :=
  match files with
  | [] => Dict.empty _ _
  | _ :: _ =>
      let parts := re_split (all_text files) in
      merge_loop (length parts) parts 1 (Dict.empty _ _)
  end.

(* ------------------------------------------------------------------ *)
(** ** Texts made of markers and bodies *)

(** A page marker as it stands in a fragment file: optional blanks,
    [PAGE], at least one blank, the digits of the page number, optional
    blanks. *)
Record Marker : Type :=
  mkMarker { ws_before : text; ws_middle : text; digits : text;
             ws_after : text }.

Definition marker_text (m : Marker) : text :=
  lit "<!--" ++ ws_before m ++ lit "PAGE" ++ ws_middle m ++ digits m
  ++ ws_after m ++ lit "-->".

Definition marker_ok (m : Marker) : bool :=
  forallb is_space (ws_before m)
  && negb (text_eqb (ws_middle m) []) && forallb is_space (ws_middle m)
  && negb (text_eqb (digits m) []) && forallb is_digit (digits m)
  && forallb is_space (ws_after m).

(** The marker pattern matches at no position of [b]. *)
Fixpoint no_marker (b : text) : bool :=
  match match_marker b with
  | Some _ => false
  | None =>
      match b with
      | _ :: b' => no_marker b'
      | [] => true
      end
  end.

Definition mark_ok (mb : Marker * text) : bool :=
  marker_ok (fst mb) && no_marker (snd mb).

(** The text of a sequence of markers, each followed by its content. *)
Definition unparse (marks : list (Marker * text)) : text :=
  concat (map (fun mb => marker_text (fst mb) ++ snd mb) marks).

Definition page_of (m : Marker) : Z := int_of_digits (digits m).

(** The content that follows the last marker for page [p]. *)
Definition last_content (p : Z) (marks : list (Marker * text)) : option text :=
  fold_left (fun acc mb => if Z.eqb (page_of (fst mb)) p then Some (snd mb) else acc)
            marks None.

(** The parts of [re.split] after the first, two by two. *)
Fixpoint pairs_of (parts : list text) : list (text * text) :=
  match parts with
  | number :: body :: rest => (number, body) :: pairs_of rest
  | _ => []
  end.

Definition store (pages : pages_dict) (nb : text * text) : pages_dict :=
  Dict.set Z.eqb pages (int_of_digits (fst nb)) (strip (snd nb)).

(* ------------------------------------------------------------------ *)
(** ** Fragment files as they are written *)

(** A text that neither starts nor ends with a blank, the result of
    [str.strip]. *)
Definition trimmed (s : text) : bool :=
  match s with [] => true | c :: _ => negb (is_space c) end
  && match rev s with [] => true | c :: _ => negb (is_space c) end.

(** One page of a fragment file in the layout of the module docstring:
    the marker on a line of its own, then the translated markdown. *)
Definition fragment (page : nat) (content : text) : text :=
  lit "<!-- PAGE " ++ decimal page ++ lit " -->" ++ [newline]
  ++ content ++ [newline].

Definition write_fragments (pages : list (nat * text)) : text :=
  concat (map (fun pc => fragment (fst pc) (snd pc)) pages).

(** The markers and bodies of such a file, [tail] being what follows the
    last page. *)
Definition page_marker (page : nat) : Marker :=
  mkMarker (lit " ") (lit " ") (decimal page) (lit " ").

Fixpoint fragment_marks (pages : list (nat * text)) (tail : text)
    : list (Marker * text) :=
  match pages with
  | [] => []
  | (page, content) :: rest =>
      match rest with
      | [] => [(page_marker page, newline :: content ++ newline :: tail)]
      | _ :: _ =>
          (page_marker page, newline :: content ++ [newline])
          :: fragment_marks rest tail
      end
  end.

(* ================================================================== *)
(** * Page geometry *)
(* ================================================================== *)

Definition PAGE_W : Q := (59528 # 100)%Q.  (* 595.28, A4 pt *)
Definition PAGE_H : Q := (84189 # 100)%Q.  (* 841.89 *)

(** [fitz.Rect(x0, y0, x1, y1)] *)
Record Rect : Type := mkRect { x0 : Q; y0 : Q; x1 : Q; y1 : Q }.

(** The [rect] of a source page: only its width and height are read. *)
Record PageRect : Type := mkPageRect { width : Q; height : Q }.

(** A source document is the sequence of its pages. *)
Definition SourceDocument := list PageRect.

(* ================================================================== *)
(** * Effects: a trace of observable actions, and exceptions *)
(* ================================================================== *)

Inductive exn : Type :=
| ZeroDivisionError            (* a page rectangle of width or height 0 *)
| IndexError                   (* a page number outside a document *)
| KeyError
| FileNotFoundError            (* [fitz.open] on a missing file *)
| RenderError (code : nat).    (* whatever the browser call raises *)

Inductive result (A : Type) : Type :=
| Ok (a : A)
| Raise (e : exn).
Arguments Ok {A} a.
Arguments Raise {A} e.

(** The files of one workspace that the composer reads: the source PDFs
    under [papers/] and, for every paper, the contents of its fragment
    files under [translations/] in sorted file-name order. *)
Record Workspace : Type :=
  mkWorkspace { ws_papers : Dict.dict text SourceDocument;
                ws_translations : text -> list text }.


(* ================================================================== *)
(** * Discovery of papers, and [extract_pages.py] *)
(* ================================================================== *)

(** [s.endswith(suffix)] *)
Definition ends_with (suffix s : text) : bool :=
  match strip_prefix (rev suffix) (rev s) with
  | Some _ => true
  | None => false
  end.

(** [a <= b] on strings: code point by code point, a prefix first. *)
Fixpoint text_leb (a b : text) : bool :=
  match a, b with
  | [], _ => true
  | _ :: _, [] => false
  | x :: a', y :: b' =>
      if nat_of_ascii x <? nat_of_ascii y then true
      else if nat_of_ascii y <? nat_of_ascii x then false
      else text_leb a' b'
  end.

(** [sorted] on strings.  The order is total and equal strings are the
    same string, so the sorted list does not depend on the algorithm. *)
Fixpoint insert_text (x : text) (l : list text) : list text :=
  match l with
  | [] => [x]
  | y :: l' => if text_leb x y then x :: l else y :: insert_text x l'
  end.

Definition sorted_texts (l : list text) : list text :=
  fold_right insert_text [] l.

(** [discover_papers(workspace)]; [listing] is [os.listdir(papers_dir)], or
    [None] when [papers/] is not a directory. *)
Definition discover_papers (listing : option (list text)) : list text :=
  match listing with
  | None => []
  | Some files =>
      sorted_texts
        (map (fun f => firstn (length f - 4) f)
             (filter (ends_with (lit ".pdf")) files))
  end.

(** A PDF as [extract_pages.py] reads it: [doc[i].get_text()] for every
    page. *)
Definition TextDocument := list text.

(** [for i in range(len(doc)): pages.append({"page": i + 1, "text": ...})] *)
Fixpoint extract_loop (doc : TextDocument) (idxs : list nat)
    (pages : list (Z * text)) : result (list (Z * text)) :=
  match idxs with
  | [] => Ok pages
  | i :: idxs' =>
      match nth_error doc i with
      | None => Raise IndexError
      | Some page_text =>
          extract_loop doc idxs' (pages ++ [((Z.of_nat i + 1)%Z, page_text)])
      end
  end.

Definition extract_pages (doc : TextDocument) : result (list (Z * text)) :=
  extract_loop doc (seq 0 (length doc)) [].




(* ================================================================== *)
(** * Sample inputs *)
(* ================================================================== *)

Module Sample.

(** A renderer for the examples: a rendered page is the html it comes
    from; html containing [boom] makes the browser call raise, html
    containing [long] fills two pages, any other html one page. *)
Definition markdown (s : text) : text := s.

Definition render (html : text) : result (list text) :=
  if occursb (lit "boom") html then Raise (RenderError 1)
  else if occursb (lit "long") html then Ok [html; html]
  else Ok [html].

Definition template : text := lit "<body>%%CONTENT%%</body>".

Definition a4 : PageRect := mkPageRect PAGE_W PAGE_H.
Definition tall : PageRect := mkPageRect 400 800.

Definition five_pages : SourceDocument := [a4; a4; tall; a4; a4].

(** Paper [p5]: five pages, translations for pages 2 and 4. *)
Definition ws_two_of_five : Workspace :=
  mkWorkspace
    [(lit "p5", five_pages)]
    (fun _ => [lit "<!-- PAGE 2 -->two"; lit "<!-- PAGE 4 -->a long page"]).

(** Paper [a] has a translation the renderer fails on, paper [b] one
    that renders. *)
Definition ws_batch : Workspace :=
  mkWorkspace
    [(lit "a", [a4]); (lit "b", [tall])]
    (fun name =>
       if text_eqb name (lit "a") then [lit "<!-- PAGE 1 -->boom"]
       else [lit "<!-- PAGE 1 -->fine"]).

(** One paper of one page; the fragment files hold no marker at all,
    or only a marker for a page the paper does not have. *)
Definition ws_no_marker : Workspace :=
  mkWorkspace [(lit "p", [a4])] (fun _ => [lit "no marker here"]).

Definition ws_far_marker : Workspace :=
  mkWorkspace [(lit "p", [a4])] (fun _ => [lit "<!-- PAGE 99 -->far"]).

End Sample.

(* ================================================================== *)
(** * The composer and the batch driver *)
(* ================================================================== *)

Section Composer.

(** The rendered translation of one page: a PDF of some pages, whose
    content the core never inspects. *)
Variable rendered_page : Type.
Definition Pdf := list rendered_page.

(** The external collaborators: [markdown.markdown] with the tables and
    fenced-code extensions, and the browser call of [render_html_to_pdf]
    (page.goto, page.pdf), which either writes a PDF or raises.  The page
    template is a constant of the source whose content no property below
    depends on. *)
Variable markdown : text -> text.
Variable render : text -> result Pdf.
Variable HTML_TEMPLATE : text.

(** What a spread shows on its left: [show_pdf_page(rect, src_doc, idx)]. *)
Record LeftHalf : Type := mkLeft { left_rect : Rect; left_page : nat }.

(** What a spread shows on its right:
    [show_pdf_page(Rect(PAGE_W, 0, spread_w, PAGE_H), trans_doc, tp)]. *)
Record RightHalf : Type :=
  mkRight { right_rect : Rect; right_doc : Pdf; right_page : nat;
            right_content : rendered_page }.

(** One page of the output document: [new_page(width, height)], the
    placements on it, and the page number that [_divider] writes. *)
Record SpreadPage : Type :=
  mkSpread { sp_width : Q; sp_height : Q;
             sp_left : LeftHalf; sp_right : option RightHalf;
             sp_footer : Z }.

Inductive message : Type :=
| MsgProcessing (paper : text)
| MsgNoTranslation
| MsgCounts (src_n : nat) (covered : nat)
| MsgOverflow (pg_num : Z) (trans_pages : nat)
| MsgOutput (paper : text) (total : nat)
| MsgBanner
| MsgSkip (paper : text)
| MsgError (paper : text) (e : exn).

Inductive event : Type :=
| Print (m : message)
| Makedirs                                   (* os.makedirs(output_dir) *)
| OpenSrc (paper : text)                     (* src = fitz.open(pdf_file) *)
| CloseSrc (paper : text)                    (* src.close() *)
| NewOut (paper : text)                      (* out = fitz.open() *)
| SaveOut (paper : text) (doc : list SpreadPage)  (* out.save(output_file) *)
| CloseOut (paper : text)                    (* out.close() *)
| WriteHtml                                  (* the temporary html file *)
| UnlinkHtml                                 (* os.unlink(html_path) *)
| WritePdf (paper : text) (pg_num : Z)       (* page.pdf(path=tmp_pdf) *)
| OpenTrans (paper : text) (pg_num : Z)      (* trans_doc = fitz.open(tmp_pdf) *)
| CloseTrans (paper : text) (pg_num : Z)     (* trans_doc.close() *)
| UnlinkPdf (paper : text) (pg_num : Z)      (* os.unlink(tmp_pdf) *)
| Traceback (e : exn).                       (* traceback.print_exc() *)

(** A computation leaves a trace and ends with a value or an exception. *)
Definition M (A : Type) : Type := (list event * result A)%type.

Definition ret {A} (a : A) : M A := ([], Ok a).
Definition raise {A} (e : exn) : M A := ([], Raise e).
Definition emit (ev : event) : M unit := ([ev], Ok tt).
Definition bind {A B} (m : M A) (f : A -> M B) : M B :=
  match m with
  | (tr, Ok a) => let (tr', r) := f a in (tr ++ tr', r)
  | (tr, Raise e) => (tr, Raise e)
  end.

(** [try: m  except Exception as e: handler e] *)
Definition try_except {A} (m : M A) (handler : exn -> M A) : M A :=
  match m with
  | (tr, Ok a) => (tr, Ok a)
  | (tr, Raise e) => let (tr', r) := handler e in (tr ++ tr', r)
  end.

(** [try: m  finally: cleanup] *)
Definition try_finally {A} (m : M A) (cleanup : M unit) : M A :=
  match m with
  | (tr, Ok a) => bind (tr, Ok tt) (fun _ => bind cleanup (fun _ => ret a))
  | (tr, Raise e) => bind (tr, Ok tt) (fun _ => bind cleanup (fun _ => raise e))
  end.

Notation "x <- m ;; k" := (bind m (fun x => k))
  (at level 61, m at next level, right associativity).
Notation "m ;;; k" := (bind m (fun _ => k))
  (at level 61, right associativity).

Definition trace {A} (m : M A) : list event := fst m.
Definition outcome {A} (m : M A) : result A := snd m.

(** [for x in xs: body], with the loop-carried state passed along. *)
Fixpoint for_each {A S} (xs : list A) (body : S -> A -> M S) (s : S) : M S :=
  match xs with
  | [] => ret s
  | x :: xs' => s' <- body s x ;; for_each xs' body s'
  end.

(** [range(a, b)] for natural bounds. *)
Definition range (a b : nat) : list nat := seq a (b - a).

(* ------------------------------------------------------------------ *)
(** ** Rendering one page *)

(** [render_html_to_pdf(html_str, output_path)] followed by
    [fitz.open(output_path)]: the temporary html file is removed whether
    the browser call succeeds or raises. *)
Definition render_html_to_pdf (html_str : text) (paper : text) (pg_num : Z)
    : M Pdf :=
  emit WriteHtml ;;;
  try_finally
    (match render html_str with
     | Ok pdf => emit (WritePdf paper pg_num) ;;; ret pdf
     | Raise e => raise e
     end)
    (emit UnlinkHtml).

(* ------------------------------------------------------------------ *)
(** ** Placing the source page *)

(** The rectangle [_place_src] hands to [show_pdf_page]. *)
Definition place_rect (r : PageRect) : Rect :=
  let sx := (PAGE_W / width r)%Q in
  let sy := (PAGE_H / height r)%Q in
  let s := Qmin sx sy in
  let sw := (width r * s)%Q in
  let sh := (height r * s)%Q in
  let ox := ((PAGE_W - sw) / 2)%Q in
  let oy := ((PAGE_H - sh) / 2)%Q in
  mkRect ox oy (ox + sw)%Q (oy + sh)%Q.

Definition _place_src (src_doc : SourceDocument) (idx : nat) : M LeftHalf :=
  match nth_error src_doc idx with
  | None => raise IndexError
  | Some r =>
      if Qeq_bool (width r) 0 || Qeq_bool (height r) 0
      then raise ZeroDivisionError
      else ret (mkLeft (place_rect r) idx)
  end.

(** [sp.show_pdf_page(fitz.Rect(PAGE_W, 0, spread_w, PAGE_H), trans_doc, tp)] *)
Definition show_translation (trans_doc : Pdf) (tp : nat) : M RightHalf :=
  match nth_error trans_doc tp with
  | None => raise IndexError
  | Some content =>
      ret (mkRight (mkRect PAGE_W 0 (PAGE_W * 2) PAGE_H) trans_doc tp content)
  end.

(** A fresh spread with the source page [pg_num] on the left, [right] on
    the right, and the divider with the page number. *)
Definition new_spread (src : SourceDocument) (pg_num : nat)
    (trans : option (Pdf * nat)) : M SpreadPage :=
  l <- _place_src src (pg_num - 1) ;;
  r <- match trans with
       | Some (trans_doc, tp) =>
           rh <- show_translation trans_doc tp ;; ret (Some rh)
       | None => ret None
       end ;;
  ret (mkSpread (PAGE_W * 2) PAGE_H l r (Z.of_nat pg_num)).

(* ------------------------------------------------------------------ *)
(** ** The spread composer *)

(** The body of [for pg_num in range(1, src_n + 1)]; [out] is the list of
    pages of the output document so far. *)
Definition compose_page (paper : text) (src : SourceDocument)
    (pages : pages_dict) (out : list SpreadPage) (pg_num : nat)
    : M (list SpreadPage) :=
  if Dict.mem Z.eqb pages (Z.of_nat pg_num) then
    match Dict.get Z.eqb pages (Z.of_nat pg_num) with
    | None => raise KeyError
    | Some content =>
        let html_body := md_to_html markdown content in
        let full_html := replace (lit "%%CONTENT%%") html_body HTML_TEMPLATE in
        trans_doc <- render_html_to_pdf full_html paper (Z.of_nat pg_num) ;;
        emit (OpenTrans paper (Z.of_nat pg_num)) ;;;
        let trans_pages := length trans_doc in
        sp <- new_spread src pg_num (Some (trans_doc, 0)) ;;
        out' <- for_each (range 1 trans_pages)
                  (fun o tp =>
                     sp' <- new_spread src pg_num (Some (trans_doc, tp)) ;;
                     ret (o ++ [sp']))
                  (out ++ [sp]) ;;
        emit (CloseTrans paper (Z.of_nat pg_num)) ;;;
        emit (UnlinkPdf paper (Z.of_nat pg_num)) ;;;
        (if 1 <? trans_pages
         then emit (Print (MsgOverflow (Z.of_nat pg_num) trans_pages))
         else ret tt) ;;;
        ret out'
    end
  else
    sp <- new_spread src pg_num None ;;
    ret (out ++ [sp]).

Definition fitz_open (ws : Workspace) (paper : text) : M SourceDocument :=
  match Dict.get text_eqb (ws_papers ws) paper with
  | Some src => emit (OpenSrc paper) ;;; ret src
  | None => raise FileNotFoundError
  end.

(** [generate_aligned_pdf] from the line after [merge_translations] on:
    the emptiness test, then the composition proper. *)
Definition compose_document (ws : Workspace) (paper : text)
    (pages : pages_dict) : M unit :=
  if Dict.is_empty pages then
    emit (Print MsgNoTranslation)
  else
    src <- fitz_open ws paper ;;
    let src_n := length src in
    emit (Print (MsgCounts src_n (length pages))) ;;;
    emit (NewOut paper) ;;;
    out <- for_each (range 1 (src_n + 1)) (compose_page paper src pages) [] ;;
    let total := length out in
    emit (SaveOut paper out) ;;;
    emit (CloseOut paper) ;;;
    emit (CloseSrc paper) ;;;
    emit (Print (MsgOutput paper total)).

(** [generate_aligned_pdf(workspace, paper_name)] *)
Definition generate_aligned_pdf (ws : Workspace) (paper : text) : M unit :=
  emit Makedirs ;;;
  emit (Print (MsgProcessing paper)) ;;;
  compose_document ws paper (merge_translations (ws_translations ws paper)).

(** The [mode in ("all", "dual")] block of [main]. *)
Definition dual_step (ws : Workspace) (_ : unit) (name : text) : M unit :=
  if negb (Dict.mem text_eqb (ws_papers ws) name)
     || match ws_translations ws name with [] => true | _ :: _ => false end
  then emit (Print (MsgSkip name))
  else
    try_except (generate_aligned_pdf ws name)
      (fun e => emit (Print (MsgError name e)) ;;; emit (Traceback e)).

Definition main_dual (ws : Workspace) (papers : list text) : M unit :=
  emit (Print MsgBanner) ;;;
  for_each papers (dual_step ws) tt.

(* ------------------------------------------------------------------ *)
(** ** Reading a run *)

(** The html page handed to the renderer for one fragment. *)
Definition page_html (content : text) : text :=
  replace (lit "%%CONTENT%%") (md_to_html markdown content) HTML_TEMPLATE.

(** The number of pages the translation of page [p] renders to, when it
    has one and the renderer returns. *)
Definition rendered_pages (pages : pages_dict) (p : nat) : option nat :=
  match Dict.get Z.eqb pages (Z.of_nat p) with
  | None => None
  | Some content =>
      match render (page_html content) with
      | Ok pdf => Some (length pdf)
      | Raise _ => None
      end
  end.

(** Overflow pages of source page [p]: rendered pages beyond the first. *)
Definition overflow (pages : pages_dict) (p : nat) : nat :=
  match rendered_pages pages p with
  | Some k => k - 1
  | None => 0
  end.

Definition total_overflow (pages : pages_dict) (n : nat) : nat :=
  list_sum (map (overflow pages) (seq 1 n)).

(** The spreads of source page [p] as section 4.4 of the specification
    lists them: one blank-right spread without a translation, otherwise
    one spread per rendered page, in order, all with the same left half
    and footer. *)
Definition spec_spread (l : LeftHalf) (r : option RightHalf) (p : nat)
    : SpreadPage :=
  mkSpread (PAGE_W * 2) PAGE_H l r (Z.of_nat p).

Definition spec_right (pdf : Pdf) (k : nat) (content : rendered_page)
    : RightHalf :=
  mkRight (mkRect PAGE_W 0 (PAGE_W * 2) PAGE_H) pdf k content.

Definition spec_group (src : SourceDocument) (pages : pages_dict) (p : nat)
    : list SpreadPage :=
  match nth_error src (p - 1) with
  | None => []
  | Some r =>
      let l := mkLeft (place_rect r) (p - 1) in
      match Dict.get Z.eqb pages (Z.of_nat p) with
      | None => [spec_spread l None p]
      | Some content =>
          match render (page_html content) with
          | Ok pdf =>
              map (fun kc => spec_spread l (Some (spec_right pdf (fst kc) (snd kc))) p)
                  (combine (seq 0 (length pdf)) pdf)
          | Raise _ => []
          end
      end
  end.

(** Source page [p] exists and has a rectangle that can be scaled. *)
Definition valid_page (src : SourceDocument) (p : nat) : Prop :=
  exists r, nth_error src (p - 1) = Some r
            /\ Qeq_bool (width r) 0 || Qeq_bool (height r) 0 = false.

(** Page [p] can be composed: it is valid and, when it has a translation,
    the renderer returns at least one page for it. *)
Definition composable (src : SourceDocument) (pages : pages_dict) (p : nat)
    : Prop :=
  valid_page src p
  /\ forall content, Dict.get Z.eqb pages (Z.of_nat p) = Some content ->
       exists pdf, render (page_html content) = Ok pdf /\ pdf <> [].

(** Handles a run has opened and not closed. *)
Inductive handle : Type :=
| HSrc (paper : text)
| HOut (paper : text)
| HTrans (paper : text) (pg_num : Z).

Definition handle_eqb (a b : handle) : bool :=
  match a, b with
  | HSrc p, HSrc q => text_eqb p q
  | HOut p, HOut q => text_eqb p q
  | HTrans p n, HTrans q m => text_eqb p q && Z.eqb n m
  | _, _ => false
  end.

Definition remove_handle (h : handle) (hs : list handle) : list handle :=
  filter (fun h' => negb (handle_eqb h h')) hs.

Definition step_handles (hs : list handle) (ev : event) : list handle :=
  match ev with
  | OpenSrc p => hs ++ [HSrc p]
  | NewOut p => hs ++ [HOut p]
  | OpenTrans p n => hs ++ [HTrans p n]
  | CloseSrc p => remove_handle (HSrc p) hs
  | CloseOut p => remove_handle (HOut p) hs
  | CloseTrans p n => remove_handle (HTrans p n) hs
  | _ => hs
  end.

Definition open_handles (tr : list event) : list handle :=
  fold_left step_handles tr [].

(** No translation document is open in [hs]. *)
Definition no_trans (hs : list handle) : bool :=
  forallb (fun h => match h with HTrans _ _ => false | _ => true end) hs.

(** The papers for which an error was reported. *)
Definition reported (tr : list event) : list (text * exn) :=
  flat_map (fun ev => match ev with
                      | Print (MsgError p e) => [(p, e)]
                      | _ => []
                      end) tr.

(** The documents saved by a run, in order. *)
Definition saved (tr : list event) : list (text * list SpreadPage) :=
  flat_map (fun ev => match ev with SaveOut p d => [(p, d)] | _ => [] end) tr.

(** The temporary PDFs a run has written, and those it has removed. *)
Definition written_pdfs (tr : list event) : list (text * Z) :=
  flat_map (fun ev => match ev with WritePdf p n => [(p, n)] | _ => [] end) tr.

Definition unlinked_pdfs (tr : list event) : list (text * Z) :=
  flat_map (fun ev => match ev with UnlinkPdf p n => [(p, n)] | _ => [] end) tr.

(** The temporary html files a run has written and removed. *)
Definition html_written (tr : list event) : nat :=
  length (filter (fun ev => match ev with WriteHtml => true | _ => false end) tr).

Definition html_unlinked (tr : list event) : nat :=
  length (filter (fun ev => match ev with UnlinkHtml => true | _ => false end) tr).

(** The pages of the source that have a translation. *)
Definition translated (pages : pages_dict) (n : nat) : list nat :=
  filter (fun p => Dict.mem Z.eqb pages (Z.of_nat p)) (seq 1 n).

(** The events of one source page in a run that gets past it: nothing
    for a page without a translation, otherwise the temporary files and
    the translation document, and the overflow message. *)
Definition page_trace (paper : text) (pages : pages_dict) (p : nat)
    : list event :=
  match Dict.get Z.eqb pages (Z.of_nat p) with
  | None => []
  | Some content =>
      match render (page_html content) with
      | Ok pdf =>
          [WriteHtml; WritePdf paper (Z.of_nat p); UnlinkHtml;
           OpenTrans paper (Z.of_nat p); CloseTrans paper (Z.of_nat p);
           UnlinkPdf paper (Z.of_nat p)]
          ++ (if 1 <? length pdf
              then [Print (MsgOverflow (Z.of_nat p) (length pdf))] else [])
      | Raise _ => []
      end
  end.

(** The test of [main] that skips a paper. *)
Definition skipped (ws : Workspace) (name : text) : bool :=
  negb (Dict.mem text_eqb (ws_papers ws) name)
  || match ws_translations ws name with [] => true | _ :: _ => false end.


(* ================================================================== *)
(** * Properties of the composer *)
(* ================================================================== *)

(** ** The monad *)

Unset Implicit Arguments.

Lemma bind_ok_inv {A B} (m : M A) (f : A -> M B) tr b :
  bind m f = (tr, Ok b) ->
  exists tr1 a tr2, m = (tr1, Ok a) /\ f a = (tr2, Ok b) /\ tr = tr1 ++ tr2.
Proof.
  unfold bind. destruct m as [tr1 [a | e]]; [| discriminate].
  destruct (f a) as [tr2 r] eqn:E. intros H. inversion H; subst.
  exists tr1, a, tr2. auto.
Qed.

Lemma bind_ret_l {A B} (a : A) (f : A -> M B) : bind (ret a) f = f a.
Proof. unfold bind, ret. destruct (f a). reflexivity. Qed.

Lemma bind_emit {B} ev (f : unit -> M B) :
  bind (emit ev) f = (ev :: fst (f tt), snd (f tt)).
Proof. unfold bind, emit. destruct (f tt). reflexivity. Qed.

Lemma bind_ok {A B} tr (a : A) (f : A -> M B) :
  bind (tr, Ok a) f = (tr ++ fst (f a), snd (f a)).
Proof. unfold bind. destruct (f a). reflexivity. Qed.

Lemma bind_raise_l {A B} e (f : A -> M B) : bind (raise e) f = raise e.
Proof. reflexivity. Qed.

Lemma bind_assoc {A B C} (m : M A) (f : A -> M B) (g : B -> M C) :
  bind (bind m f) g = bind m (fun a => bind (f a) g).
Proof.
  unfold bind. destruct m as [tr [a | e]]; [| reflexivity].
  destruct (f a) as [tr1 [b | e]]; [| reflexivity].
  destruct (g b) as [tr2 r]. now rewrite app_assoc.
Qed.

Lemma saved_app (tr1 tr2 : list event) :
  saved (tr1 ++ tr2) = saved tr1 ++ saved tr2.
Proof. unfold saved. apply flat_map_app. Qed.

Lemma skipn_nth_error {A} (l : list A) : forall a c,
  nth_error l a = Some c -> skipn a l = c :: skipn (S a) l.
Proof.
  induction l as [| x l IH]; intros [| a] c H; simpl in *; try discriminate.
  - now inversion H.
  - now apply IH.
Qed.

(** ** One spread *)

Lemma new_spread_eq src p trans :
  new_spread src p trans =
  match nth_error src (p - 1) with
  | None => raise IndexError
  | Some r =>
      if Qeq_bool (width r) 0 || Qeq_bool (height r) 0
      then raise ZeroDivisionError
      else
        let l := mkLeft (place_rect r) (p - 1) in
        match trans with
        | None => ret (spec_spread l None p)
        | Some (pdf, k) =>
            match nth_error pdf k with
            | None => raise IndexError
            | Some c => ret (spec_spread l (Some (spec_right pdf k c)) p)
            end
        end
  end.
Proof.
  unfold new_spread, _place_src, show_translation.
  destruct (nth_error src (p - 1)) as [r |]; [| reflexivity].
  destruct (Qeq_bool (width r) 0 || Qeq_bool (height r) 0); [reflexivity |].
  destruct trans as [[pdf k] |]; [| reflexivity].
  destruct (nth_error pdf k); reflexivity.
Qed.

Lemma new_spread_valid src p trans r :
  nth_error src (p - 1) = Some r ->
  Qeq_bool (width r) 0 || Qeq_bool (height r) 0 = false ->
  new_spread src p trans =
  match trans with
  | None => ret (spec_spread (mkLeft (place_rect r) (p - 1)) None p)
  | Some (pdf, k) =>
      match nth_error pdf k with
      | None => raise IndexError
      | Some c =>
          ret (spec_spread (mkLeft (place_rect r) (p - 1))
                 (Some (spec_right pdf k c)) p)
      end
  end.
Proof. intros H1 H2. rewrite new_spread_eq, H1, H2. reflexivity. Qed.

Lemma new_spread_ok_inv src p trans tr sp :
  new_spread src p trans = (tr, Ok sp) ->
  exists r, nth_error src (p - 1) = Some r
    /\ Qeq_bool (width r) 0 || Qeq_bool (height r) 0 = false
    /\ forall pdf k, trans = Some (pdf, k) -> nth_error pdf k <> None.
Proof.
  rewrite new_spread_eq.
  destruct (nth_error src (p - 1)) as [r |]; [| discriminate].
  destruct (Qeq_bool (width r) 0 || Qeq_bool (height r) 0) eqn:E;
    [discriminate |].
  intros H. exists r. repeat split; auto.
  intros pdf k ->. destruct (nth_error pdf k); [discriminate | discriminate].
Qed.

(** The overflow loop [for tp in range(1, trans_pages)]: every index is
    inside the rendered document, so it appends one spread per page. *)
Lemma overflow_loop src p r (pdf : Pdf) :
  nth_error src (p - 1) = Some r ->
  Qeq_bool (width r) 0 || Qeq_bool (height r) 0 = false ->
  forall n a o,
    a + n = length pdf ->
    for_each (seq a n)
      (fun o tp =>
         sp' <- new_spread src p (Some (pdf, tp)) ;; ret (o ++ [sp']))
      o
    = ret (o ++ map (fun kc =>
                       spec_spread (mkLeft (place_rect r) (p - 1))
                         (Some (spec_right pdf (fst kc) (snd kc))) p)
                    (combine (seq a n) (skipn a pdf))).
Proof.
  intros Hr Hz. induction n as [| n IH]; intros a o Hlen; simpl.
  - now rewrite app_nil_r.
  - rewrite (@new_spread_valid src p _ r Hr Hz).
    destruct (nth_error pdf a) as [c |] eqn:Ec.
    2:{ apply nth_error_None in Ec. lia. }
    pose proof (skipn_nth_error _ _ _ Ec) as Hsk.
    rewrite Hsk. rewrite !bind_ret_l. rewrite IH by lia.
    simpl. now rewrite <- app_assoc.
Qed.

(** ** One source page *)

Lemma render_html_to_pdf_ok html paper pg pdf :
  render html = Ok pdf ->
  render_html_to_pdf html paper pg
  = ([WriteHtml; WritePdf paper pg; UnlinkHtml], Ok pdf).
Proof. intros H. unfold render_html_to_pdf. rewrite H. reflexivity. Qed.

Lemma render_html_to_pdf_raise html paper pg e :
  render html = Raise e ->
  render_html_to_pdf html paper pg = ([WriteHtml; UnlinkHtml], Raise e).
Proof. intros H. unfold render_html_to_pdf. rewrite H. reflexivity. Qed.

Lemma compose_page_blank paper src pages out p r :
  nth_error src (p - 1) = Some r ->
  Qeq_bool (width r) 0 || Qeq_bool (height r) 0 = false ->
  Dict.get Z.eqb pages (Z.of_nat p) = None ->
  compose_page paper src pages out p
  = ret (out ++ [spec_spread (mkLeft (place_rect r) (p - 1)) None p]).
Proof.
  intros Hr Hz Hg. unfold compose_page, Dict.mem. rewrite Hg.
  rewrite (@new_spread_valid src p None r Hr Hz). now rewrite bind_ret_l.
Qed.

Lemma compose_page_filled paper src pages out p r content pdf :
  nth_error src (p - 1) = Some r ->
  Qeq_bool (width r) 0 || Qeq_bool (height r) 0 = false ->
  Dict.get Z.eqb pages (Z.of_nat p) = Some content ->
  render (page_html content) = Ok pdf ->
  pdf <> [] ->
  compose_page paper src pages out p
  = ([WriteHtml; WritePdf paper (Z.of_nat p); UnlinkHtml;
      OpenTrans paper (Z.of_nat p); CloseTrans paper (Z.of_nat p);
      UnlinkPdf paper (Z.of_nat p)]
     ++ (if 1 <? length pdf
         then [Print (MsgOverflow (Z.of_nat p) (length pdf))] else []),
     Ok (out ++ map (fun kc =>
                       spec_spread (mkLeft (place_rect r) (p - 1))
                         (Some (spec_right pdf (fst kc) (snd kc))) p)
                    (combine (seq 0 (length pdf)) pdf))).
Proof.
  intros Hr Hz Hg Hrender Hne. unfold compose_page, Dict.mem. rewrite Hg.
  fold (page_html content).
  rewrite (render_html_to_pdf_ok _ _ _ _ Hrender).
  destruct pdf as [| c0 pdf']; [congruence |].
  rewrite bind_ok. cbv beta. rewrite bind_emit.
  rewrite (@new_spread_valid src p _ r Hr Hz).
  unfold range. simpl length.
  replace (S (length pdf') - 1) with (length pdf') by lia.
  simpl nth_error. cbv beta iota. rewrite bind_ret_l.
  rewrite (@overflow_loop src p r (c0 :: pdf') Hr Hz (length pdf') 1 _ eq_refl).
  rewrite bind_ret_l. rewrite !bind_emit.
  simpl skipn. simpl seq. simpl combine. simpl map.
  rewrite <- app_assoc. simpl.
  destruct (length pdf') as [| k]; reflexivity.
Qed.

Lemma render_html_to_pdf_ok_inv html paper pg tr pdf :
  render_html_to_pdf html paper pg = (tr, Ok pdf) -> render html = Ok pdf.
Proof.
  unfold render_html_to_pdf. destruct (render html) as [pdf' | e].
  - cbn. intros H. now inversion H.
  - cbn. discriminate.
Qed.

Lemma compose_page_ok paper src pages out p tr out' :
  compose_page paper src pages out p = (tr, Ok out') ->
  composable src pages p
  /\ out' = out ++ spec_group src pages p
  /\ saved tr = [].
Proof.
  intros H. pose proof H as H0. unfold compose_page, Dict.mem in H0.
  destruct (Dict.get Z.eqb pages (Z.of_nat p)) as [content |] eqn:Hg.
  - fold (page_html content) in H0.
    apply bind_ok_inv in H0 as (tr1 & pdf & tr2 & Hrend & H0 & _).
    apply render_html_to_pdf_ok_inv in Hrend.
    apply bind_ok_inv in H0 as (tr3 & [] & tr4 & _ & H0 & _).
    apply bind_ok_inv in H0 as (tr5 & sp & tr6 & Hsp & _ & _).
    apply new_spread_ok_inv in Hsp as (r & Hr & Hz & Hk).
    assert (Hne : pdf <> []).
    { intros ->. now apply (Hk [] 0). }
    rewrite (@compose_page_filled paper src pages out p r content pdf
               Hr Hz Hg Hrend Hne) in H.
    inversion H; subst tr out'. clear H. repeat split.
    + exists r. auto.
    + intros content' Hc. rewrite Hg in Hc. injection Hc as <-.
      exists pdf. auto.
    + unfold spec_group. rewrite Hr, Hg, Hrend. reflexivity.
    + simpl. destruct (1 <? length pdf); reflexivity.
  - apply bind_ok_inv in H0 as (tr5 & sp & tr6 & Hsp & _ & _).
    apply new_spread_ok_inv in Hsp as (r & Hr & Hz & _).
    rewrite (@compose_page_blank paper src pages out p r Hr Hz Hg) in H.
    inversion H; subst tr out'. repeat split.
    + exists r. auto.
    + intros content Hc. rewrite Hg in Hc. discriminate.
    + unfold spec_group. rewrite Hr, Hg. reflexivity.
Qed.

(** ** The loop over the source pages *)

Lemma compose_loop_ok paper src pages : forall xs out tr out',
  for_each xs (compose_page paper src pages) out = (tr, Ok out') ->
  Forall (composable src pages) xs
  /\ out' = out ++ flat_map (spec_group src pages) xs
  /\ saved tr = [].
Proof.
  induction xs as [| x xs IH]; intros out tr out' H; simpl in H.
  - inversion H; subst. rewrite app_nil_r. auto.
  - apply bind_ok_inv in H as (tr1 & o1 & tr2 & H1 & H2 & ->).
    apply compose_page_ok in H1 as (Hc & -> & Hs1).
    apply IH in H2 as (Hall & -> & Hs2).
    repeat split.
    + now constructor.
    + simpl. now rewrite app_assoc.
    + now rewrite saved_app, Hs1, Hs2.
Qed.

Lemma compose_loop_same paper src pages1 pages2 : forall xs out,
  (forall p, In p xs ->
     Dict.get Z.eqb pages1 (Z.of_nat p) = Dict.get Z.eqb pages2 (Z.of_nat p)) ->
  for_each xs (compose_page paper src pages1) out
  = for_each xs (compose_page paper src pages2) out.
Proof.
  induction xs as [| x xs IH]; intros out Hagree; simpl; [reflexivity |].
  assert (Hx : compose_page paper src pages1 out x
               = compose_page paper src pages2 out x).
  { unfold compose_page, Dict.mem. now rewrite (Hagree x (or_introl eq_refl)). }
  rewrite Hx. unfold bind.
  destruct (compose_page paper src pages2 out x) as [tr1 [o1 | e]];
    [| reflexivity].
  rewrite IH; [reflexivity |]. intros p Hp. apply Hagree. now right.
Qed.

(** ** One document *)

Lemma compose_document_ok ws paper pages tr :
  Dict.is_empty pages = false ->
  compose_document ws paper pages = (tr, Ok tt) ->
  exists src,
    Dict.get text_eqb (ws_papers ws) paper = Some src
    /\ Forall (composable src pages) (seq 1 (length src))
    /\ saved tr
       = [(paper, flat_map (spec_group src pages) (seq 1 (length src)))].
Proof.
  intros Hne H. unfold compose_document in H. rewrite Hne in H.
  unfold fitz_open in H.
  destruct (Dict.get text_eqb (ws_papers ws) paper) as [src |];
    [| discriminate].
  exists src. split; [reflexivity |].
  rewrite bind_assoc, bind_emit, bind_ret_l, !bind_emit in H.
  unfold range in H.
  replace (length src + 1 - 1) with (length src) in H by lia.
  destruct (for_each (seq 1 (length src)) (compose_page paper src pages) [])
    as [trl [out |]] eqn:Hloop.
  - apply compose_loop_ok in Hloop as (Hall & -> & Hs).
    rewrite bind_ok in H. cbv beta in H. rewrite !bind_emit in H.
    simpl in H. inversion H; subst tr. split; [assumption |].
    simpl. rewrite saved_app, Hs. reflexivity.
  - simpl in H. discriminate.
Qed.

Lemma spec_group_length src pages p :
  composable src pages p ->
  length (spec_group src pages p) = 1 + overflow pages p.
Proof.
  intros [(r & Hr & Hz) Hc]. unfold spec_group, overflow, rendered_pages.
  rewrite Hr.
  destruct (Dict.get Z.eqb pages (Z.of_nat p)) as [content |]; [| reflexivity].
  destruct (Hc content eq_refl) as (pdf & Hrender & Hne).
  fold (page_html content). rewrite Hrender.
  rewrite length_map, length_combine, length_seq, Nat.min_id.
  assert (length pdf <> 0) by (destruct pdf; simpl; congruence). lia.
Qed.

Lemma flat_map_length {A B} (f : A -> list B) (g : A -> nat) (xs : list A) :
  Forall (fun x => length (f x) = g x) xs ->
  length (flat_map f xs) = list_sum (map g xs).
Proof.
  induction 1 as [| x xs Hx _ IH]; simpl; [reflexivity |].
  now rewrite length_app, Hx, IH.
Qed.

Lemma list_sum_succ {A} (g : A -> nat) (xs : list A) :
  list_sum (map (fun x => 1 + g x) xs) = length xs + list_sum (map g xs).
Proof.
  induction xs as [| x xs IH]; [reflexivity |].
  change (list_sum (map (fun x => 1 + g x) (x :: xs)))
    with ((1 + g x) + list_sum (map (fun x => 1 + g x) xs)).
  change (list_sum (map g (x :: xs))) with (g x + list_sum (map g xs)).
  rewrite IH. simpl length. lia.
Qed.

Lemma list_sum_zero (l : list nat) :
  list_sum l = 0 <-> Forall (fun n => n = 0) l.
Proof.
  induction l as [| n l IH]; simpl.
  - split; auto.
  - split.
    + intros H. constructor; [lia | apply IH; lia].
    + intros H. inversion H; subst. apply IH in H3. lia.
Qed.

(** C2. Whenever a document with a non-empty translation map is composed,
    the saved document has at least as many spreads as the source has
    pages: exactly the page count plus one spread per overflow page, so the
    two are equal precisely when no translated page renders to more than
    one page. *)
Theorem spread_page_count ws paper pages :
  Dict.is_empty pages = false ->
  outcome (compose_document ws paper pages) = Ok tt ->
  exists src out,
    Dict.get text_eqb (ws_papers ws) paper = Some src
    /\ saved (trace (compose_document ws paper pages)) = [(paper, out)]
    /\ length src <= length out
    /\ length out = length src + total_overflow pages (length src)
    /\ (length out = length src <->
        forall p k, 1 <= p <= length src ->
                    rendered_pages pages p = Some k -> k <= 1).
Proof.
  intros Hne Hok.
  destruct (compose_document ws paper pages) as [tr res] eqn:Hrun.
  simpl in Hok. subst res.
  destruct (@compose_document_ok ws paper pages tr Hne Hrun)
    as (src & Hsrc & Hall & Hsaved).
  exists src, (flat_map (spec_group src pages) (seq 1 (length src))).
  assert (Hlen : length (flat_map (spec_group src pages) (seq 1 (length src)))
                 = length src + total_overflow pages (length src)).
  { rewrite (flat_map_length _ (fun p => 1 + overflow pages p)).
    - rewrite list_sum_succ, length_seq. reflexivity.
    - eapply Forall_impl; [| exact Hall].
      intros p Hp. now apply spec_group_length. }
  repeat split; try assumption.
  - lia.
  - intros Heq p k Hp Hk.
    assert (Hz : total_overflow pages (length src) = 0) by lia.
    unfold total_overflow in Hz. apply list_sum_zero in Hz.
    rewrite Forall_forall in Hz.
    assert (Ho : overflow pages p = 0).
    { apply Hz. apply in_map. apply in_seq. lia. }
    unfold overflow in Ho. rewrite Hk in Ho. lia.
  - intros Hone. rewrite Hlen.
    assert (Hz : total_overflow pages (length src) = 0).
    { unfold total_overflow. apply list_sum_zero. apply Forall_forall.
      intros n Hn. apply in_map_iff in Hn as (p & <- & Hp).
      apply in_seq in Hp. unfold overflow.
      destruct (rendered_pages pages p) as [k |] eqn:Hk; [| reflexivity].
      specialize (Hone p k ltac:(lia) Hk). lia. }
    lia.
Qed.

(** ** The composer returns *)




(** [generate_aligned_pdf] saves what its second part saves. *)
Lemma generate_aligned_pdf_saved ws paper :
  outcome (generate_aligned_pdf ws paper)
  = outcome (compose_document ws paper
               (merge_translations (ws_translations ws paper)))
  /\ saved (trace (generate_aligned_pdf ws paper))
     = saved (trace (compose_document ws paper
                       (merge_translations (ws_translations ws paper)))).
Proof.
  unfold generate_aligned_pdf. rewrite !bind_emit. split; reflexivity.
Qed.

(** ** Order and structure of the output *)

Lemma spec_group_footer src pages p sp :
  In sp (spec_group src pages p) -> sp_footer sp = Z.of_nat p.
Proof.
  unfold spec_group.
  destruct (nth_error src (p - 1)) as [r |]; [| intros []].
  destruct (Dict.get Z.eqb pages (Z.of_nat p)) as [content |].
  - destruct (render _) as [pdf | e]; [| intros []].
    intros H. apply in_map_iff in H as (kc & <- & _). reflexivity.
  - intros [<- | []]. reflexivity.
Qed.

Lemma sorted_app (l1 l2 : list Z) :
  StronglySorted Z.le l1 -> StronglySorted Z.le l2 ->
  (forall a b, In a l1 -> In b l2 -> (a <= b)%Z) ->
  StronglySorted Z.le (l1 ++ l2).
Proof.
  induction 1 as [| a l1 Hs IH Ha]; intros H2 Hle; simpl; [assumption |].
  constructor.
  - apply IH; [assumption |]. intros x y Hx Hy. apply Hle; [now right | easy].
  - apply Forall_app. split; [assumption |].
    apply Forall_forall. intros b Hb. apply Hle; [now left | easy].
Qed.

Lemma sorted_constant (c : Z) (l : list Z) :
  (forall a, In a l -> a = c) -> StronglySorted Z.le l.
Proof.
  induction l as [| a l IH]; intros H; constructor.
  - apply IH. intros b Hb. apply H. now right.
  - apply Forall_forall. intros b Hb.
    rewrite (H a (or_introl eq_refl)), (H b (or_intror Hb)). lia.
Qed.

Lemma footers_sorted src pages : forall n a,
  StronglySorted Z.le
    (map (@sp_footer) (flat_map (spec_group src pages) (seq a n)))
  /\ forall f, In f (map (@sp_footer)
                       (flat_map (spec_group src pages) (seq a n))) ->
               (Z.of_nat a <= f)%Z.
Proof.
  induction n as [| n IH]; intros a; simpl.
  - split; [constructor | intros f []].
  - destruct (IH (S a)) as [Hs Hge]. rewrite map_app.
    assert (Hhere : forall f,
               In f (map (@sp_footer) (spec_group src pages a)) ->
               f = Z.of_nat a).
    { intros f Hf. apply in_map_iff in Hf as (sp & <- & Hsp).
      now apply spec_group_footer in Hsp. }
    split.
    + apply sorted_app; [now apply (sorted_constant (Z.of_nat a)) | exact Hs |].
      intros x y Hx Hy. rewrite (Hhere x Hx). specialize (Hge y Hy). lia.
    + intros f Hf. apply in_app_or in Hf as [Hf | Hf].
      * rewrite (Hhere f Hf). lia.
      * specialize (Hge f Hf). lia.
Qed.

(** C5. The saved document is the concatenation of one group of spreads
    per source page, in increasing page order, so the footers never
    decrease.  Every spread of the group of page [p] carries footer [p] and
    the same left half, the scaled source page [p]; the group of a
    translated page shows the rendered pages 0, 1, ... in that order on the
    right, and the group of an untranslated page is one blank-right
    spread. *)
Theorem spread_order ws paper pages :
  Dict.is_empty pages = false ->
  outcome (compose_document ws paper pages) = Ok tt ->
  exists src out groups,
    Dict.get text_eqb (ws_papers ws) paper = Some src
    /\ saved (trace (compose_document ws paper pages)) = [(paper, out)]
    /\ out = concat groups
    /\ length groups = length src
    /\ StronglySorted Z.le (map (@sp_footer) out)
    /\ forall p g,
         1 <= p <= length src ->
         nth_error groups (p - 1) = Some g ->
         exists r,
           nth_error src (p - 1) = Some r
           /\ Forall (fun sp =>
                        sp_footer sp = Z.of_nat p
                        /\ sp_left sp = mkLeft (place_rect r) (p - 1)) g
           /\ match Dict.get Z.eqb pages (Z.of_nat p) with
              | None => map (@sp_right) g = [None]
              | Some content =>
                  exists pdf,
                    render (page_html content) = Ok pdf
                    /\ pdf <> []
                    /\ map (@sp_right) g
                       = map (fun kc => Some (spec_right pdf (fst kc) (snd kc)))
                           (combine (seq 0 (length pdf)) pdf)
              end.
Proof.
  intros Hne Hok.
  destruct (compose_document ws paper pages) as [tr res] eqn:Hrun.
  simpl in Hok. subst res.
  destruct (@compose_document_ok ws paper pages tr Hne Hrun)
    as (src & Hsrc & Hall & Hsaved).
  exists src, (flat_map (spec_group src pages) (seq 1 (length src))),
    (map (spec_group src pages) (seq 1 (length src))).
  split; [assumption |]. split; [assumption |].
  split; [apply flat_map_concat_map |].
  split; [now rewrite length_map, length_seq |].
  split; [apply footers_sorted |].
  intros p g Hp Hg.
  assert (Hgp : g = spec_group src pages p).
  { rewrite nth_error_map in Hg.
    rewrite nth_error_seq in Hg.
    destruct (p - 1 <? length src) eqn:E; [| apply Nat.ltb_ge in E; lia].
    simpl in Hg. inversion Hg. f_equal. lia. }
  subst g. rewrite Forall_forall in Hall.
  destruct (Hall p ltac:(apply in_seq; lia)) as [(r & Hr & Hz) Hc].
  exists r. split; [assumption |]. unfold spec_group. rewrite Hr.
  destruct (Dict.get Z.eqb pages (Z.of_nat p)) as [content |].
  - destruct (Hc content eq_refl) as (pdf & Hrender & Hpdf).
    fold (page_html content). rewrite Hrender. split.
    + apply Forall_forall. intros sp Hsp.
      apply in_map_iff in Hsp as (kc & <- & _). auto.
    + exists pdf. split; [reflexivity |]. split; [assumption |].
      rewrite map_map. reflexivity.
  - split; [| reflexivity]. repeat constructor.
Qed.

(** ** Keys outside the source *)

(** C10, as amended. Two translation maps that agree on every key in
    [1..N] and are both empty or both non-empty give the same outcome and
    the same saved document: an entry outside [1..N] is never looked up;
    it only counts for the emptiness test. *)
Theorem out_of_range_keys_ignored ws paper src pages1 pages2 :
  Dict.get text_eqb (ws_papers ws) paper = Some src ->
  (forall k : Z, (1 <= k <= Z.of_nat (length src))%Z ->
                 Dict.get Z.eqb pages1 k = Dict.get Z.eqb pages2 k) ->
  Dict.is_empty pages1 = Dict.is_empty pages2 ->
  outcome (compose_document ws paper pages1)
  = outcome (compose_document ws paper pages2)
  /\ saved (trace (compose_document ws paper pages1))
     = saved (trace (compose_document ws paper pages2)).
Proof.
  intros Hsrc Hagree Hempty. unfold compose_document. rewrite <- Hempty.
  destruct (Dict.is_empty pages1); [split; reflexivity |].
  unfold fitz_open. rewrite Hsrc.
  rewrite !bind_assoc, !bind_emit, !bind_ret_l, !bind_emit.
  rewrite (@compose_loop_same paper src pages1 pages2).
  - unfold outcome, trace. simpl.
    destruct (for_each _ _ _) as [trl [out |]]; simpl; split; reflexivity.
  - intros p Hp. apply Hagree. unfold range in Hp. apply in_seq in Hp. lia.
Qed.

(** ** The emptiness test *)

(** C9. When the merged translation map is empty, [generate_aligned_pdf]
    prints its two messages and returns: the source PDF is never opened
    and no document is saved. *)
Theorem empty_map_no_output ws paper :
  Dict.is_empty (merge_translations (ws_translations ws paper)) = true ->
  generate_aligned_pdf ws paper
  = ([Makedirs; Print (MsgProcessing paper); Print MsgNoTranslation], Ok tt)
  /\ (forall q, ~ In (OpenSrc q) (trace (generate_aligned_pdf ws paper)))
  /\ saved (trace (generate_aligned_pdf ws paper)) = [].
Proof.
  intros H.
  assert (E : generate_aligned_pdf ws paper
              = ([Makedirs; Print (MsgProcessing paper);
                  Print MsgNoTranslation], Ok tt)).
  { unfold generate_aligned_pdf, compose_document. rewrite H. reflexivity. }
  rewrite E. split; [reflexivity |]. split; [| reflexivity].
  intros q [Hq | [Hq | [Hq | []]]]; discriminate.
Qed.

(** ** Scaling of the left half *)

Lemma Qpos_nonzero (q : Q) : (0 < q)%Q -> Qeq_bool q 0 = false.
Proof.
  intros H. destruct (Qeq_bool q 0) eqn:E; [| reflexivity].
  apply Qeq_bool_eq in E. rewrite E in H. now apply Qlt_irrefl in H.
Qed.



(** ** The batch *)

Lemma dual_step_returns ws name :
  outcome (dual_step ws tt name) = Ok tt.
Proof.
  unfold dual_step.
  destruct (negb (Dict.mem text_eqb (ws_papers ws) name)
            || match ws_translations ws name with
               | [] => true
               | _ :: _ => false
               end); [reflexivity |].
  unfold try_except.
  destruct (generate_aligned_pdf ws name) as [tr [[] | e]]; reflexivity.
Qed.

(** Whatever happens to one paper, the batch goes on: the run of
    [main] is the banner followed by the runs of all papers, in order,
    and it never raises. *)
Lemma main_dual_isolated ws papers :
  main_dual ws papers
  = (Print MsgBanner :: flat_map (fun name => trace (dual_step ws tt name)) papers,
     Ok tt).
Proof.
  unfold main_dual. rewrite bind_emit.
  assert (H : for_each papers (dual_step ws) tt
              = (flat_map (fun name => trace (dual_step ws tt name)) papers,
                 Ok tt)).
  { induction papers as [| name papers IH]; [reflexivity |].
    simpl. pose proof (dual_step_returns ws name) as Hret.
    destruct (dual_step ws tt name) as [tr r]. simpl in Hret. subst r.
    rewrite bind_ok. rewrite IH. reflexivity. }
  now rewrite H.
Qed.

(* ------------------------------------------------------------------ *)
(** ** Properties of every run, failed or not *)

Lemma new_spread_trace src p trans : trace (new_spread src p trans) = [].
Proof.
  rewrite new_spread_eq. destruct (nth_error src (p - 1)) as [r |];
    [| reflexivity].
  destruct (Qeq_bool (width r) 0 || Qeq_bool (height r) 0); [reflexivity |].
  cbv zeta. destruct trans as [[pdf k] |]; [| reflexivity].
  destruct (nth_error pdf k); reflexivity.
Qed.

(** A property of traces that holds of the empty trace and of the
    concatenation of two traces that have it holds of a whole run as soon
    as it holds of the events the run can leave. *)
Section Closed.

Variable P : list event -> Prop.
Hypothesis P_nil : P [].
Hypothesis P_app : forall t1 t2, P t1 -> P t2 -> P (t1 ++ t2).

Lemma closed_bind {A B} (m : M A) (f : A -> M B) :
  P (trace m) -> (forall a, P (trace (f a))) -> P (trace (bind m f)).
Proof.
  destruct m as [tr [a | e]]; intros Hm Hf; unfold trace in *; simpl in *.
  - specialize (Hf a). destruct (f a) as [tr' r]. simpl in *.
    now apply P_app.
  - exact Hm.
Qed.

Lemma closed_for_each {A S} (body : S -> A -> M S) :
  (forall s x, P (trace (body s x))) ->
  forall xs s, P (trace (for_each xs body s)).
Proof.
  intros Hbody. induction xs as [| x xs IH]; intros s; simpl.
  - exact P_nil.
  - apply closed_bind; [apply Hbody | apply IH].
Qed.

Lemma closed_new_spread {B} src p trans (f : SpreadPage -> M B) :
  (forall sp, P (trace (f sp))) -> P (trace (bind (new_spread src p trans) f)).
Proof.
  intros Hf. apply closed_bind; [| exact Hf].
  rewrite new_spread_trace. exact P_nil.
Qed.

Hypothesis P_render :
  forall html paper pg, P (trace (render_html_to_pdf html paper pg)).
Hypothesis P_open_trans : forall paper n, P [OpenTrans paper n].
Hypothesis P_close_trans : forall paper n, P [CloseTrans paper n].
Hypothesis P_unlink_pdf : forall paper n, P [UnlinkPdf paper n].
Hypothesis P_print :
  forall m, (forall q e, m <> MsgError q e) -> P [Print m].

Lemma closed_compose_page paper src pages out p :
  P (trace (compose_page paper src pages out p)).
Proof.
  unfold compose_page. destruct (Dict.mem Z.eqb pages (Z.of_nat p)).
  - destruct (Dict.get Z.eqb pages (Z.of_nat p)) as [content |];
      [| exact P_nil].
    apply closed_bind; [apply P_render |]. intros pdf.
    apply closed_bind; [apply P_open_trans |]. intros _.
    apply closed_new_spread. intros sp.
    apply closed_bind.
    { apply closed_for_each. intros o tp.
      apply closed_new_spread. intros sp'. exact P_nil. }
    intros out'.
    apply closed_bind; [apply P_close_trans |]. intros _.
    apply closed_bind; [apply P_unlink_pdf |]. intros _.
    apply closed_bind; [| intros _; exact P_nil].
    destruct (1 <? length pdf); [| exact P_nil].
    apply P_print. discriminate.
  - apply closed_new_spread. intros sp. exact P_nil.
Qed.

Lemma closed_compose_loop paper src pages xs out :
  P (trace (for_each xs (compose_page paper src pages) out)).
Proof.
  apply closed_for_each. intros s x. apply closed_compose_page.
Qed.

Hypothesis P_makedirs : P [Makedirs].
Hypothesis P_open_src : forall paper, P [OpenSrc paper].
Hypothesis P_new_out : forall paper, P [NewOut paper].
Hypothesis P_save : forall paper d, P [SaveOut paper d].
Hypothesis P_close_out : forall paper, P [CloseOut paper].
Hypothesis P_close_src : forall paper, P [CloseSrc paper].

Lemma closed_generate ws paper : P (trace (generate_aligned_pdf ws paper)).
Proof.
  unfold generate_aligned_pdf.
  apply closed_bind; [apply P_makedirs |]. intros _.
  apply closed_bind; [apply P_print; discriminate |]. intros _.
  unfold compose_document.
  destruct (Dict.is_empty _); [apply P_print; discriminate |].
  apply closed_bind.
  { unfold fitz_open. destruct (Dict.get text_eqb (ws_papers ws) paper);
      [| exact P_nil].
    apply closed_bind; [apply P_open_src | intros _; exact P_nil]. }
  intros src.
  apply closed_bind; [apply P_print; discriminate |]. intros _.
  apply closed_bind; [apply P_new_out |]. intros _.
  apply closed_bind; [apply closed_compose_loop |]. intros out.
  apply closed_bind; [apply P_save |]. intros _.
  apply closed_bind; [apply P_close_out |]. intros _.
  apply closed_bind; [apply P_close_src |]. intros _.
  apply P_print. discriminate.
Qed.

Hypothesis P_traceback : forall e, P [Traceback e].
Hypothesis P_error : forall q e, P [Print (MsgError q e)].

Lemma closed_main_dual ws papers : P (trace (main_dual ws papers)).
Proof.
  unfold main_dual.
  apply closed_bind; [apply P_print; discriminate |]. intros _.
  apply closed_for_each. intros [] name. unfold dual_step.
  destruct (negb (Dict.mem text_eqb (ws_papers ws) name)
            || match ws_translations ws name with
               | [] => true
               | _ :: _ => false
               end); [apply P_print; discriminate |].
  pose proof (closed_generate ws name) as Hgen.
  unfold try_except.
  destruct (generate_aligned_pdf ws name) as [tr [[] | e]]; [exact Hgen |].
  unfold trace in *. simpl in *. apply P_app; [exact Hgen |].
  apply (P_app [_] [_]); [apply P_error | apply P_traceback].
Qed.

End Closed.

Lemma reported_app (tr1 tr2 : list event) :
  reported (tr1 ++ tr2) = reported tr1 ++ reported tr2.
Proof. unfold reported. apply flat_map_app. Qed.

Lemma html_written_app (tr1 tr2 : list event) :
  html_written (tr1 ++ tr2) = html_written tr1 + html_written tr2.
Proof. unfold html_written. now rewrite filter_app, length_app. Qed.

Lemma html_unlinked_app (tr1 tr2 : list event) :
  html_unlinked (tr1 ++ tr2) = html_unlinked tr1 + html_unlinked tr2.
Proof. unfold html_unlinked. now rewrite filter_app, length_app. Qed.

(** The loop over the pages saves nothing, whether it ends or raises. *)
Lemma compose_loop_saves_nothing paper src pages xs out :
  saved (trace (for_each xs (compose_page paper src pages) out)) = [].
Proof.
  apply (closed_compose_loop (fun tr => saved tr = [])); try reflexivity.
  - intros t1 t2 H1 H2. now rewrite saved_app, H1, H2.
  - intros html paper' pg. unfold render_html_to_pdf.
    destruct (render html); reflexivity.
Qed.

Lemma failed_document_saves_nothing ws paper pages e :
  outcome (compose_document ws paper pages) = Raise e ->
  saved (trace (compose_document ws paper pages)) = [].
Proof.
  unfold compose_document. destruct (Dict.is_empty pages); [discriminate |].
  unfold fitz_open.
  destruct (Dict.get text_eqb (ws_papers ws) paper) as [src |];
    [| reflexivity].
  rewrite bind_assoc, bind_emit, bind_ret_l, !bind_emit.
  pose proof (compose_loop_saves_nothing paper src pages
                (range 1 (length src + 1)) []) as Hs.
  destruct (for_each (range 1 (length src + 1))
              (compose_page paper src pages) []) as [trl [out | e']].
  - rewrite bind_ok. cbv beta. rewrite !bind_emit. discriminate.
  - intros _. exact Hs.
Qed.

(** X9. A run of [generate_aligned_pdf] that raises has saved no
    document: [out.save] comes after the last page. *)
Theorem failed_run_saves_nothing ws paper e :
  outcome (generate_aligned_pdf ws paper) = Raise e ->
  saved (trace (generate_aligned_pdf ws paper)) = [].
Proof.
  destruct (generate_aligned_pdf_saved ws paper) as [-> ->].
  apply failed_document_saves_nothing.
Qed.


(** ** The batch, paper by paper *)

Lemma generate_reports_nothing ws paper :
  reported (trace (generate_aligned_pdf ws paper)) = [].
Proof.
  apply (closed_generate (fun tr => reported tr = [])); try reflexivity.
  - intros t1 t2 H1 H2. now rewrite reported_app, H1, H2.
  - intros html paper' pg. unfold render_html_to_pdf.
    destruct (render html); reflexivity.
  - intros m Hm. destruct m; try reflexivity. now destruct (Hm paper0 e).
Qed.

Lemma dual_step_reported ws name :
  reported (trace (dual_step ws tt name))
  = if skipped ws name then []
    else match outcome (generate_aligned_pdf ws name) with
         | Ok _ => []
         | Raise e => [(name, e)]
         end.
Proof.
  unfold dual_step. fold (skipped ws name).
  destruct (skipped ws name); [reflexivity |].
  pose proof (generate_reports_nothing ws name) as Hr.
  unfold try_except.
  destruct (generate_aligned_pdf ws name) as [tr [[] | e]].
  - exact Hr.
  - unfold trace, outcome in *. simpl in *. now rewrite reported_app, Hr.
Qed.

Lemma dual_step_saved ws name :
  saved (trace (dual_step ws tt name))
  = if skipped ws name then []
    else match outcome (generate_aligned_pdf ws name) with
         | Ok _ => saved (trace (generate_aligned_pdf ws name))
         | Raise _ => []
         end.
Proof.
  unfold dual_step. fold (skipped ws name).
  destruct (skipped ws name); [reflexivity |].
  pose proof (generate_aligned_pdf_saved ws name) as [Ho Hs].
  pose proof (failed_document_saves_nothing ws name
                (merge_translations (ws_translations ws name))) as Hf.
  rewrite <- Ho, <- Hs in Hf.
  unfold try_except.
  destruct (generate_aligned_pdf ws name) as [tr [[] | e]].
  - reflexivity.
  - unfold trace, outcome in *. simpl in *.
    rewrite saved_app, (Hf e eq_refl). reflexivity.
Qed.

Lemma flat_map_flat_map {A B C} (f : A -> list B) (g : B -> list C)
    (xs : list A) :
  flat_map g (flat_map f xs) = flat_map (fun x => flat_map g (f x)) xs.
Proof.
  induction xs as [| x xs IH]; [reflexivity |].
  simpl. now rewrite flat_map_app, IH.
Qed.

(** X11. The batch never raises.  Its error reports are, in the order of
    the papers, one per paper that is not skipped and whose run raises,
    with the name of that paper and the exception; the documents it saves
    are those of the papers that are not skipped and whose run returns. *)
Theorem batch_reports_and_saves ws papers :
  outcome (main_dual ws papers) = Ok tt
  /\ reported (trace (main_dual ws papers))
     = flat_map (fun name =>
                   if skipped ws name then []
                   else match outcome (generate_aligned_pdf ws name) with
                        | Ok _ => []
                        | Raise e => [(name, e)]
                        end) papers
  /\ saved (trace (main_dual ws papers))
     = flat_map (fun name =>
                   if skipped ws name then []
                   else match outcome (generate_aligned_pdf ws name) with
                        | Ok _ => saved (trace (generate_aligned_pdf ws name))
                        | Raise _ => []
                        end) papers.
Proof.
  rewrite main_dual_isolated. unfold trace, outcome. cbn [fst snd].
  split; [reflexivity |]. split.
  - unfold reported. cbn [flat_map app]. rewrite flat_map_flat_map.
    apply flat_map_ext. intros name. apply dual_step_reported.
  - unfold saved. cbn [flat_map app]. rewrite flat_map_flat_map.
    apply flat_map_ext. intros name. apply dual_step_saved.
Qed.

(** X12. In every run, of one paper or of the batch, failed or not, each
    temporary html file that was written has been removed. *)
Theorem html_files_always_removed ws :
  (forall paper,
     html_written (trace (generate_aligned_pdf ws paper))
     = html_unlinked (trace (generate_aligned_pdf ws paper)))
  /\ forall papers,
       html_written (trace (main_dual ws papers))
       = html_unlinked (trace (main_dual ws papers)).
Proof.
  assert (Happ : forall t1 t2,
            html_written t1 = html_unlinked t1 ->
            html_written t2 = html_unlinked t2 ->
            html_written (t1 ++ t2) = html_unlinked (t1 ++ t2)).
  { intros t1 t2 H1 H2. now rewrite html_written_app, html_unlinked_app, H1, H2. }
  assert (Hrender : forall html paper pg,
            html_written (trace (render_html_to_pdf html paper pg))
            = html_unlinked (trace (render_html_to_pdf html paper pg))).
  { intros html paper pg. unfold render_html_to_pdf.
    destruct (render html); reflexivity. }
  split.
  - intros paper.
    apply (closed_generate (fun tr => html_written tr = html_unlinked tr));
      try reflexivity; assumption.
  - intros papers.
    apply (closed_main_dual (fun tr => html_written tr = html_unlinked tr));
      try reflexivity; assumption.
Qed.

(* ------------------------------------------------------------------ *)
(** ** Runs that return *)

Lemma compose_page_trace paper src pages out p :
  composable src pages p ->
  compose_page paper src pages out p
  = (page_trace paper pages p, Ok (out ++ spec_group src pages p)).
Proof.
  intros [(r & Hr & Hz) Hc]. unfold page_trace.
  destruct (Dict.get Z.eqb pages (Z.of_nat p)) as [content |] eqn:Hg.
  - destruct (Hc content eq_refl) as (pdf & Hrender & Hne).
    rewrite (compose_page_filled paper src pages out p r content pdf
               Hr Hz Hg Hrender Hne).
    unfold spec_group. rewrite Hr, Hg, Hrender. reflexivity.
  - rewrite (compose_page_blank paper src pages out p r Hr Hz Hg).
    unfold spec_group. rewrite Hr, Hg. reflexivity.
Qed.

Lemma compose_loop_trace paper src pages : forall xs out,
  Forall (composable src pages) xs ->
  for_each xs (compose_page paper src pages) out
  = (flat_map (page_trace paper pages) xs,
     Ok (out ++ flat_map (spec_group src pages) xs)).
Proof.
  induction xs as [| x xs IH]; intros out Hall.
  - simpl. now rewrite app_nil_r.
  - inversion Hall as [| ? ? Hx Hxs]; subst.
    simpl. rewrite (compose_page_trace paper src pages out x Hx), bind_ok.
    rewrite (IH _ Hxs). simpl. now rewrite <- app_assoc.
Qed.

Lemma compose_document_trace ws paper pages src :
  Dict.is_empty pages = false ->
  Dict.get text_eqb (ws_papers ws) paper = Some src ->
  Forall (composable src pages) (seq 1 (length src)) ->
  trace (compose_document ws paper pages)
  = [OpenSrc paper; Print (MsgCounts (length src) (length pages));
     NewOut paper]
    ++ flat_map (page_trace paper pages) (seq 1 (length src))
    ++ [SaveOut paper (flat_map (spec_group src pages) (seq 1 (length src)));
        CloseOut paper; CloseSrc paper;
        Print (MsgOutput paper
                 (length (flat_map (spec_group src pages)
                            (seq 1 (length src)))))].
Proof.
  intros Hne Hsrc Hall. unfold compose_document, fitz_open.
  rewrite Hne, Hsrc.
  rewrite bind_assoc, bind_emit, bind_ret_l, !bind_emit.
  unfold range. replace (length src + 1 - 1) with (length src) by lia.
  rewrite (compose_loop_trace paper src pages _ [] Hall).
  rewrite bind_ok. cbv beta. rewrite !bind_emit. reflexivity.
Qed.

Lemma run_returns_inv ws paper :
  outcome (generate_aligned_pdf ws paper) = Ok tt ->
  let pages := merge_translations (ws_translations ws paper) in
  Dict.is_empty pages = true
  \/ exists src,
       Dict.is_empty pages = false
       /\ Dict.get text_eqb (ws_papers ws) paper = Some src
       /\ Forall (composable src pages) (seq 1 (length src)).
Proof.
  intros H pages. destruct (generate_aligned_pdf_saved ws paper) as [Ho _].
  rewrite Ho in H. fold pages in H.
  destruct (Dict.is_empty pages) eqn:Hne; [now left | right].
  destruct (compose_document ws paper pages) as [tr r] eqn:E.
  unfold outcome in H. simpl in H. subst r.
  destruct (compose_document_ok ws paper pages tr Hne E)
    as (src & Hsrc & Hall & _).
  exists src. auto.
Qed.

Lemma text_eqb_refl (s : text) : text_eqb s s = true.
Proof.
  induction s as [| c s IH]; [reflexivity |].
  cbn [text_eqb]. now rewrite Ascii.eqb_refl, IH.
Qed.

Lemma filter_all {A} (f : A -> bool) (l : list A) :
  forallb f l = true -> filter f l = l.
Proof.
  induction l as [| a l IH]; [reflexivity |]. simpl.
  destruct (f a); [| discriminate]. intros H. now rewrite IH.
Qed.

Lemma handles_page paper pages p hs :
  no_trans hs = true ->
  fold_left step_handles (page_trace paper pages p) hs = hs.
Proof.
  intros Hhs. unfold page_trace.
  destruct (Dict.get Z.eqb pages (Z.of_nat p)) as [content |];
    [| reflexivity].
  destruct (render (page_html content)) as [pdf | e]; [| reflexivity].
  rewrite fold_left_app. cbn [fold_left step_handles].
  assert (E : remove_handle (HTrans paper (Z.of_nat p))
                (hs ++ [HTrans paper (Z.of_nat p)]) = hs).
  { unfold remove_handle. rewrite filter_app. cbn [filter handle_eqb].
    rewrite text_eqb_refl, Z.eqb_refl. cbn [andb negb].
    rewrite app_nil_r. apply filter_all.
    unfold no_trans in Hhs. rewrite forallb_forall in *.
    intros h Hh. specialize (Hhs h Hh). now destruct h. }
  rewrite E. destruct (1 <? length pdf); reflexivity.
Qed.

Lemma handles_loop paper pages : forall xs hs,
  no_trans hs = true ->
  fold_left step_handles (flat_map (page_trace paper pages) xs) hs = hs.
Proof.
  induction xs as [| x xs IH]; intros hs Hhs; [reflexivity |].
  simpl. rewrite fold_left_app, handles_page by assumption. now apply IH.
Qed.

(** X13. A run of [generate_aligned_pdf] that returns has closed every
    document it opened. *)
Theorem returning_run_closes_documents ws paper :
  outcome (generate_aligned_pdf ws paper) = Ok tt ->
  open_handles (trace (generate_aligned_pdf ws paper)) = [].
Proof.
  intros H. destruct (run_returns_inv ws paper H) as [He | (src & Hne & Hsrc & Hall)].
  - unfold generate_aligned_pdf, compose_document. rewrite He. reflexivity.
  - unfold generate_aligned_pdf. rewrite !bind_emit.
    unfold trace. cbn [fst]. fold (trace (compose_document ws paper
      (merge_translations (ws_translations ws paper)))).
    rewrite (compose_document_trace ws paper _ src Hne Hsrc Hall).
    unfold open_handles. cbn [fold_left step_handles app].
    rewrite fold_left_app, handles_loop by reflexivity.
    cbn [fold_left step_handles remove_handle filter handle_eqb negb].
    rewrite text_eqb_refl. reflexivity.
Qed.

Lemma written_pdfs_app (tr1 tr2 : list event) :
  written_pdfs (tr1 ++ tr2) = written_pdfs tr1 ++ written_pdfs tr2.
Proof. unfold written_pdfs. apply flat_map_app. Qed.

Lemma unlinked_pdfs_app (tr1 tr2 : list event) :
  unlinked_pdfs (tr1 ++ tr2) = unlinked_pdfs tr1 ++ unlinked_pdfs tr2.
Proof. unfold unlinked_pdfs. apply flat_map_app. Qed.

Lemma pdfs_loop paper src pages : forall xs,
  Forall (composable src pages) xs ->
  written_pdfs (flat_map (page_trace paper pages) xs)
  = map (fun p => (paper, Z.of_nat p))
        (filter (fun p => Dict.mem Z.eqb pages (Z.of_nat p)) xs)
  /\ unlinked_pdfs (flat_map (page_trace paper pages) xs)
     = map (fun p => (paper, Z.of_nat p))
           (filter (fun p => Dict.mem Z.eqb pages (Z.of_nat p)) xs).
Proof.
  induction xs as [| x xs IH]; intros Hall; [split; reflexivity |].
  inversion Hall as [| ? ? Hx Hxs]; subst.
  destruct (IH Hxs) as [IHw IHu].
  cbn [flat_map filter]. rewrite written_pdfs_app, unlinked_pdfs_app, IHw, IHu.
  unfold page_trace, Dict.mem.
  destruct (Dict.get Z.eqb pages (Z.of_nat x)) as [content |] eqn:Hg.
  - destruct Hx as [_ Hc]. destruct (Hc content Hg) as (pdf & -> & _).
    split; destruct (1 <? length pdf); reflexivity.
  - split; reflexivity.
Qed.

(** X14. In a run of [compose_document] that returns, the renderer writes
    one temporary PDF for every source page that has a translation, in
    the order of the pages, and for no other page; every one of them is
    removed. *)
Theorem returning_run_renders_translated ws paper pages src :
  Dict.is_empty pages = false ->
  Dict.get text_eqb (ws_papers ws) paper = Some src ->
  outcome (compose_document ws paper pages) = Ok tt ->
  written_pdfs (trace (compose_document ws paper pages))
  = map (fun p => (paper, Z.of_nat p)) (translated pages (length src))
  /\ unlinked_pdfs (trace (compose_document ws paper pages))
     = written_pdfs (trace (compose_document ws paper pages)).
Proof.
  intros Hne Hsrc H.
  destruct (compose_document ws paper pages) as [tr r] eqn:E.
  unfold outcome in H. simpl in H. subst r.
  destruct (compose_document_ok ws paper pages tr Hne E)
    as (src' & Hsrc' & Hall & _).
  rewrite Hsrc in Hsrc'. injection Hsrc' as <-.
  pose proof (compose_document_trace ws paper pages src Hne Hsrc Hall) as Ht.
  rewrite E in Ht. unfold trace in *. cbn [fst] in *. subst tr.
  destruct (pdfs_loop paper src pages _ Hall) as [Hw Hu].
  rewrite !written_pdfs_app, !unlinked_pdfs_app, Hw, Hu.
  unfold translated. cbn. rewrite !app_nil_r. split; reflexivity.
Qed.

(* ------------------------------------------------------------------ *)
(** ** The layout of the saved spreads *)




End Composer.

Arguments ret {rendered_page A} a.
Arguments raise {rendered_page A} e.
Arguments emit {rendered_page} ev.
Arguments _place_src {rendered_page} src_doc idx.
Arguments Print {rendered_page} m.
Arguments Makedirs {rendered_page}.
Arguments OpenSrc {rendered_page} paper.
Arguments CloseSrc {rendered_page} paper.
Arguments NewOut {rendered_page} paper.
Arguments SaveOut {rendered_page} paper doc.
Arguments CloseOut {rendered_page} paper.
Arguments WriteHtml {rendered_page}.
Arguments UnlinkHtml {rendered_page}.
Arguments WritePdf {rendered_page} paper pg_num.
Arguments OpenTrans {rendered_page} paper pg_num.
Arguments CloseTrans {rendered_page} paper pg_num.
Arguments UnlinkPdf {rendered_page} paper pg_num.
Arguments Traceback {rendered_page} e.

(* ================================================================== *)
(** * Properties of texts *)
(* ================================================================== *)

Unset Implicit Arguments.

Lemma text_eqb_spec (a b : text) : reflect (a = b) (text_eqb a b).
Proof.
  revert b. induction a as [| x a IH]; intros [| y b]; simpl;
    try (constructor; congruence).
  destruct (Ascii.eqb_spec x y) as [-> | Hxy]; simpl.
  - destruct (IH b) as [-> | Hab]; constructor; congruence.
  - constructor. congruence.
Qed.

Lemma strip_prefix_app (p r : text) : strip_prefix p (p ++ r) = Some r.
Proof.
  induction p as [| x p IH]; simpl; [reflexivity |].
  now rewrite Ascii.eqb_refl.
Qed.

Lemma strip_prefix_Some (p s r : text) :
  strip_prefix p s = Some r -> s = p ++ r.
Proof.
  revert s. induction p as [| x p IH]; intros s H; simpl in *.
  - now inversion H.
  - destruct s as [| y s]; [discriminate |].
    destruct (Ascii.eqb_spec x y) as [-> | _]; [| discriminate].
    f_equal. now apply IH.
Qed.

(** A pattern without the character [c] cannot run over the place where
    [c] stands. *)
Lemma strip_prefix_before (c : ascii) (p u v : text) :
  ~ In c p -> p <> [] ->
  strip_prefix p (u ++ c :: v)
  = option_map (fun r => r ++ c :: v) (strip_prefix p u).
Proof.
  revert u. induction p as [| x p IH]; intros u Hc Hne; [congruence |].
  destruct u as [| y u]; simpl.
  - destruct (Ascii.eqb_spec x c) as [-> | _]; [| reflexivity].
    exfalso. apply Hc. now left.
  - destruct (Ascii.eqb x y); [| reflexivity].
    destruct p as [| x' p'].
    + reflexivity.
    + apply IH; [| discriminate]. intros H. apply Hc. now right.
Qed.

Lemma take_while_before (f : ascii -> bool) (c : ascii) (u v : text) :
  f c = false -> take_while f (u ++ c :: v) = take_while f u.
Proof.
  intros Hc. induction u as [| y u IH]; simpl.
  - now rewrite Hc.
  - destruct (f y); [now rewrite IH | reflexivity].
Qed.

Lemma drop_while_before (f : ascii -> bool) (c : ascii) (u v : text) :
  f c = false -> drop_while f (u ++ c :: v) = drop_while f u ++ c :: v.
Proof.
  intros Hc. induction u as [| y u IH]; simpl.
  - now rewrite Hc.
  - destruct (f y); [exact IH | reflexivity].
Qed.

Lemma take_while_all (f : ascii -> bool) (w r : text) :
  forallb f w = true -> take_while f (w ++ r) = w ++ take_while f r.
Proof.
  induction w as [| y w IH]; simpl; [reflexivity |].
  intros H. apply andb_prop in H as [Hy Hw]. now rewrite Hy, IH.
Qed.

Lemma drop_while_all (f : ascii -> bool) (w r : text) :
  forallb f w = true -> drop_while f (w ++ r) = drop_while f r.
Proof.
  induction w as [| y w IH]; simpl; [reflexivity |].
  intros H. apply andb_prop in H as [Hy Hw]. now rewrite Hy, IH.
Qed.

Lemma drop_while_length (f : ascii -> bool) (s : text) :
  length (drop_while f s) <= length s.
Proof.
  induction s as [| y s IH]; simpl; [lia |].
  destruct (f y); simpl; lia.
Qed.

Lemma strip_prefix_length (p s r : text) :
  strip_prefix p s = Some r -> length s = length p + length r.
Proof.
  intros H. apply strip_prefix_Some in H. subst s. apply length_app.
Qed.

Lemma is_digit_not_space (c : ascii) : is_digit c = true -> is_space c = false.
Proof.
  unfold is_digit, is_space. intros H.
  apply andb_prop in H as [H1 H2].
  apply Nat.leb_le in H1. apply Nat.leb_le in H2.
  repeat match goal with
         | |- context [?a <=? ?b] =>
             destruct (Nat.leb_spec a b); simpl; try lia
         | |- context [?a =? ?b] =>
             destruct (Nat.eqb_spec a b); simpl; try lia
         end; reflexivity.
Qed.

Lemma is_space_not_digit (c : ascii) : is_space c = true -> is_digit c = false.
Proof.
  intros H. destruct (is_digit c) eqn:E; [| reflexivity].
  apply is_digit_not_space in E. congruence.
Qed.

(* ================================================================== *)
(** * Properties of the translation merger *)
(* ================================================================== *)

(** ** The marker pattern *)

Lemma take_some_before (f : ascii -> bool) (c : ascii) (u v : text) :
  f c = false ->
  take_some f (u ++ c :: v)
  = option_map (fun wr => (fst wr, snd wr ++ c :: v)) (take_some f u).
Proof.
  intros Hc. unfold take_some.
  rewrite take_while_before, drop_while_before by assumption.
  destruct (take_while f u); reflexivity.
Qed.

(** A match that starts inside [u] ends inside [u] when an opening angle
    bracket follows [u]: the pattern has no second one. *)
Lemma match_marker_before (u v : text) :
  u <> [] ->
  match_marker (u ++ "<"%char :: v)
  = option_map (fun dr => (fst dr, snd dr ++ "<"%char :: v)) (match_marker u).
Proof.
  intros Hu. destruct u as [| c u]; [congruence |].
  unfold match_marker. change (lit "<!--") with ("<"%char :: lit "!--").
  cbn [app strip_prefix].
  destruct (Ascii.eqb "<" c); [| reflexivity].
  rewrite (strip_prefix_before "<"%char (lit "!--"));
    [| simpl; intuition discriminate | discriminate].
  destruct (strip_prefix (lit "!--") u) as [s1 |]; [| reflexivity].
  cbn [option_map].
  rewrite drop_while_before by reflexivity.
  rewrite (strip_prefix_before "<"%char (lit "PAGE"));
    [| simpl; intuition discriminate | discriminate].
  destruct (strip_prefix (lit "PAGE") (drop_while is_space s1)) as [s2 |];
    [| reflexivity].
  cbn [option_map].
  rewrite take_some_before by reflexivity.
  destruct (take_some is_space s2) as [[w s3] |]; [| reflexivity].
  cbn [option_map fst snd].
  rewrite take_some_before by reflexivity.
  destruct (take_some is_digit s3) as [[d s4] |]; [| reflexivity].
  cbn [option_map fst snd].
  rewrite drop_while_before by reflexivity.
  rewrite (strip_prefix_before "<"%char (lit "-->"));
    [| simpl; intuition discriminate | discriminate].
  destruct (strip_prefix (lit "-->") (drop_while is_space s4)); reflexivity.
Qed.

Lemma forallb_space_head (w r : text) (c : ascii) :
  forallb is_space w = true -> is_digit c = false ->
  take_while is_digit (w ++ c :: r) = [].
Proof.
  intros Hw Hc. destruct w as [| y w]; simpl.
  - now rewrite Hc.
  - simpl in Hw. apply andb_prop in Hw as [Hy _].
    now rewrite (is_space_not_digit _ Hy).
Qed.

(** A well-formed marker is matched as a whole and yields its digits. *)
Lemma match_marker_text (m : Marker) (rest : text) :
  marker_ok m = true ->
  match_marker (marker_text m ++ rest) = Some (digits m, rest).
Proof.
  unfold marker_ok. intros H.
  repeat (apply andb_prop in H as [H ?]).
  destruct m as [w1 w2 d w3]. cbn [ws_before ws_middle digits ws_after] in *.
  destruct (text_eqb_spec w2 []) as [| Hw2]; [discriminate |].
  destruct (text_eqb_spec d []) as [| Hd]; [discriminate |].
  unfold match_marker, marker_text.
  cbn [ws_before ws_middle digits ws_after].
  rewrite <- !app_assoc. rewrite strip_prefix_app.
  rewrite drop_while_all by assumption.
  change (drop_while is_space (lit "PAGE" ++ w2 ++ d ++ w3 ++ lit "-->" ++ rest))
    with (lit "PAGE" ++ w2 ++ d ++ w3 ++ lit "-->" ++ rest).
  rewrite strip_prefix_app.
  destruct d as [| d0 d']; [congruence |].
  assert (Hd0 : is_digit d0 = true).
  { simpl in H1. now apply andb_prop in H1 as [? _]. }
  unfold take_some at 1.
  rewrite take_while_all, drop_while_all by assumption.
  cbn [app take_while drop_while]. rewrite (is_digit_not_space _ Hd0).
  rewrite app_nil_r.
  destruct w2 as [| w20 w2']; [congruence |].
  unfold take_some.
  change (d0 :: d' ++ w3 ++ lit "-->" ++ rest)
    with ((d0 :: d') ++ w3 ++ lit "-->" ++ rest).
  rewrite take_while_all, drop_while_all by assumption.
  change (w3 ++ lit "-->" ++ rest) with (w3 ++ "-"%char :: lit "->" ++ rest).
  rewrite forallb_space_head by (assumption || reflexivity).
  rewrite app_nil_r.
  assert (Hdrop : drop_while is_digit (w3 ++ "-"%char :: lit "->" ++ rest)
                  = w3 ++ "-"%char :: lit "->" ++ rest).
  { destruct w3 as [| y w3']; [reflexivity |]. simpl.
    simpl in H0. apply andb_prop in H0 as [Hy _].
    now rewrite (is_space_not_digit _ Hy). }
  rewrite Hdrop. rewrite drop_while_all by assumption.
  reflexivity.
Qed.

Lemma take_some_length (f : ascii -> bool) (s w r : text) :
  take_some f s = Some (w, r) -> length r <= length s.
Proof.
  unfold take_some. destruct (take_while f s); [discriminate |].
  intros H. inversion H. apply drop_while_length.
Qed.

Lemma match_marker_shorter (s d rest : text) :
  match_marker s = Some (d, rest) -> length rest < length s.
Proof.
  unfold match_marker.
  destruct (strip_prefix (lit "<!--") s) as [s1 |] eqn:E1; [| discriminate].
  destruct (strip_prefix (lit "PAGE") (drop_while is_space s1)) as [s2 |] eqn:E2;
    [| discriminate].
  destruct (take_some is_space s2) as [[w s3] |] eqn:E3; [| discriminate].
  destruct (take_some is_digit s3) as [[d' s4] |] eqn:E4; [| discriminate].
  destruct (strip_prefix (lit "-->") (drop_while is_space s4)) as [r |] eqn:E5;
    [| discriminate].
  intros H. inversion H; subst d' r.
  apply strip_prefix_length in E1, E2, E5.
  apply take_some_length in E3, E4.
  pose proof (drop_while_length is_space s1).
  pose proof (drop_while_length is_space s4).
  simpl in E1, E2, E5. lia.
Qed.

Lemma match_marker_digits (s d rest : text) :
  match_marker s = Some (d, rest) -> forallb is_digit d = true.
Proof.
  unfold match_marker.
  destruct (strip_prefix (lit "<!--") s) as [s1 |]; [| discriminate].
  destruct (strip_prefix (lit "PAGE") (drop_while is_space s1)) as [s2 |];
    [| discriminate].
  destruct (take_some is_space s2) as [[w s3] |]; [| discriminate].
  destruct (take_some is_digit s3) as [[d' s4] |] eqn:E4; [| discriminate].
  destruct (strip_prefix (lit "-->") (drop_while is_space s4)) as [r |];
    [| discriminate].
  intros H. inversion H; subst d' r. clear H.
  unfold take_some in E4.
  destruct (take_while is_digit s3) eqn:Et; [discriminate |].
  inversion E4; subst d. rewrite <- Et. clear.
  induction s3 as [| c s3 IH]; simpl; [reflexivity |].
  destruct (is_digit c) eqn:Ec; simpl; [now rewrite Ec |reflexivity].
Qed.

(** ** [re.split]: the fuel never runs out *)

Lemma split_loop_fuel : forall fuel1 fuel2 s,
  length s < fuel1 -> length s < fuel2 ->
  split_loop fuel1 s = split_loop fuel2 s.
Proof.
  induction fuel1 as [| fuel1 IH]; intros fuel2 s H1 H2; [lia |].
  destruct fuel2 as [| fuel2]; [lia |]. simpl.
  destruct (match_marker s) as [[d rest] |] eqn:Em.
  - apply match_marker_shorter in Em.
    rewrite (IH fuel2 rest) by lia. reflexivity.
  - destruct s as [| c s']; [reflexivity |].
    simpl in H1, H2. rewrite (IH fuel2 s') by lia. reflexivity.
Qed.

Lemma split_text_nil : split_text [] = ([], []).
Proof. reflexivity. Qed.

Lemma split_text_match (s d rest : text) :
  match_marker s = Some (d, rest) ->
  split_text s = ([], d :: fst (split_text rest) :: snd (split_text rest)).
Proof.
  intros Em. unfold split_text.
  change (split_loop (S (length s)) s)
    with (match match_marker s with
          | Some (digits, rest) =>
              let (piece, more) := split_loop (length s) rest in
              ([], digits :: piece :: more)
          | None =>
              match s with
              | c :: s' =>
                  let (piece, more) := split_loop (length s) s' in
                  (c :: piece, more)
              | [] => ([], [])
              end
          end).
  rewrite Em. apply match_marker_shorter in Em.
  rewrite (split_loop_fuel (length s) (S (length rest)) rest) by lia.
  destruct (split_loop (S (length rest)) rest). reflexivity.
Qed.

Lemma split_text_skip (c : ascii) (s : text) :
  match_marker (c :: s) = None ->
  split_text (c :: s) = (c :: fst (split_text s), snd (split_text s)).
Proof.
  intros Em. unfold split_text.
  change (split_loop (S (length (c :: s))) (c :: s))
    with (match match_marker (c :: s) with
          | Some (digits, rest) =>
              let (piece, more) := split_loop (S (length s)) rest in
              ([], digits :: piece :: more)
          | None =>
              let (piece, more) := split_loop (S (length s)) s in
              (c :: piece, more)
          end).
  rewrite Em. destruct (split_loop (S (length s)) s). reflexivity.
Qed.

(** The parts after the first always come in pairs of a digit string
    and a piece of text. *)
Lemma split_text_pairs : forall n s,
  length s <= n ->
  exists pairs,
    snd (split_text s) = flat_map (fun nb => [fst nb; snd nb]) pairs
    /\ Forall (fun nb => forallb is_digit (fst nb) = true) pairs.
Proof.
  induction n as [| n IH]; intros s Hn.
  - destruct s; [| simpl in Hn; lia]. exists []. split; [reflexivity | constructor].
  - destruct (match_marker s) as [[d rest] |] eqn:Em.
    + rewrite (split_text_match _ _ _ Em).
      pose proof (match_marker_shorter _ _ _ Em) as Hlt.
      destruct (IH rest ltac:(lia)) as (pairs & Hp & Hd).
      exists ((d, fst (split_text rest)) :: pairs). split.
      * simpl. now rewrite Hp.
      * constructor; [| assumption]. simpl.
        now apply match_marker_digits in Em.
    + destruct s as [| c s']; [exists []; split; [reflexivity | constructor] |].
      rewrite (split_text_skip _ _ Em). simpl in Hn.
      destruct (IH s' ltac:(lia)) as (pairs & Hp & Hd).
      exists pairs. auto.
Qed.

(** ** [re.split] on a text made of markers and bodies *)

Lemma unparse_head (marks : list (Marker * text)) :
  unparse marks = [] \/ exists v, unparse marks = "<"%char :: v.
Proof.
  destruct marks as [| [m b] marks]; [now left |]. right.
  unfold unparse. simpl. unfold marker_text. simpl. eauto.
Qed.

Lemma split_text_body (b rest : text) :
  no_marker b = true ->
  rest = [] \/ (exists v, rest = "<"%char :: v) ->
  split_text (b ++ rest)
  = (b ++ fst (split_text rest), snd (split_text rest)).
Proof.
  intros Hb Hrest. induction b as [| c b IH].
  - simpl. now destruct (split_text rest).
  - simpl in Hb.
    destruct (match_marker (c :: b)) as [dr |] eqn:Em; [discriminate |].
    assert (Em' : match_marker ((c :: b) ++ rest) = None).
    { destruct Hrest as [-> | [v ->]].
      - now rewrite app_nil_r.
      - rewrite match_marker_before by discriminate. now rewrite Em. }
    simpl app in *. rewrite (split_text_skip _ _ Em').
    rewrite IH by assumption. reflexivity.
Qed.

Lemma split_text_unparse (marks : list (Marker * text)) :
  forallb mark_ok marks = true ->
  split_text (unparse marks)
  = ([], flat_map (fun mb => [digits (fst mb); snd mb]) marks).
Proof.
  induction marks as [| [m b] marks IH]; intros H; [reflexivity |].
  simpl in H. apply andb_prop in H as [Hmb Hrest].
  unfold mark_ok in Hmb. apply andb_prop in Hmb as [Hm Hb]. simpl in Hm, Hb.
  change (unparse ((m, b) :: marks))
    with ((marker_text m ++ b) ++ unparse marks).
  rewrite <- app_assoc.
  rewrite (split_text_match _ _ _ (match_marker_text m _ Hm)).
  rewrite (split_text_body b _ Hb (unparse_head marks)).
  rewrite (IH Hrest). simpl. now rewrite app_nil_r.
Qed.

Lemma re_split_unparse (pre : text) (marks : list (Marker * text)) :
  no_marker pre = true ->
  forallb mark_ok marks = true ->
  re_split (pre ++ unparse marks)
  = pre :: flat_map (fun mb => [digits (fst mb); snd mb]) marks.
Proof.
  intros Hpre Hmarks. unfold re_split.
  rewrite (split_text_body pre _ Hpre (unparse_head marks)).
  rewrite (split_text_unparse _ Hmarks). simpl. now rewrite app_nil_r.
Qed.

(** ** Dictionaries *)

Section DictFacts.

Variables (K V : Type) (eqb : K -> K -> bool).
Hypothesis eqb_spec : forall x y, reflect (x = y) (eqb x y).

Lemma get_set (d : Dict.dict K V) (k k' : K) (v : V) :
  Dict.get eqb (Dict.set eqb d k v) k'
  = if eqb k k' then Some v else Dict.get eqb d k'.
Proof.
  induction d as [| [k0 v0] d IH]; simpl; [reflexivity |].
  destruct (eqb_spec k0 k) as [-> | Hk0]; simpl.
  - destruct (eqb_spec k k'); reflexivity.
  - rewrite IH.
    destruct (eqb_spec k0 k') as [-> | ?]; [| reflexivity].
    destruct (eqb_spec k k'); congruence.
Qed.

Lemma keys_set (d : Dict.dict K V) (k k' : K) (v : V) :
  In k' (Dict.keys (Dict.set eqb d k v)) <-> k' = k \/ In k' (Dict.keys d).
Proof.
  unfold Dict.keys.
  induction d as [| [k0 v0] d IH]; simpl.
  - intuition.
  - destruct (eqb_spec k0 k) as [-> | Hk0]; simpl.
    + intuition.
    + rewrite IH. intuition.
Qed.

Lemma set_fresh (d : Dict.dict K V) (k : K) (v : V) :
  ~ In k (Dict.keys d) -> Dict.set eqb d k v = d ++ [(k, v)].
Proof.
  unfold Dict.keys.
  induction d as [| [k0 v0] d IH]; simpl; intros H; [reflexivity |].
  destruct (eqb_spec k0 k) as [-> | Hk0].
  - exfalso. apply H. now left.
  - f_equal. apply IH. intros Hin. apply H. now right.
Qed.

End DictFacts.

(** ** Every text is made of markers and bodies *)

Lemma take_drop_while (f : ascii -> bool) (s : text) :
  take_while f s ++ drop_while f s = s.
Proof.
  induction s as [| c s IH]; simpl; [reflexivity |].
  destruct (f c); simpl; [now rewrite IH | reflexivity].
Qed.

Lemma take_while_forallb (f : ascii -> bool) (s : text) :
  forallb f (take_while f s) = true.
Proof.
  induction s as [| c s IH]; simpl; [reflexivity |].
  destruct (f c) eqn:E; simpl; [now rewrite E | reflexivity].
Qed.

Lemma take_some_inv (f : ascii -> bool) (s w r : text) :
  take_some f s = Some (w, r) ->
  s = w ++ r /\ forallb f w = true /\ text_eqb w [] = false.
Proof.
  unfold take_some. destruct (take_while f s) as [| c w'] eqn:E;
    [discriminate |].
  intros H. inversion H; subst w r. rewrite <- E. repeat split.
  - symmetry. apply take_drop_while.
  - apply take_while_forallb.
  - now rewrite E.
Qed.

(** What the pattern matches is the text of a well-formed marker. *)
Lemma match_marker_inv (s d rest : text) :
  match_marker s = Some (d, rest) ->
  exists m, marker_ok m = true /\ digits m = d /\ s = marker_text m ++ rest.
Proof.
  unfold match_marker.
  destruct (strip_prefix (lit "<!--") s) as [s1 |] eqn:E1; [| discriminate].
  destruct (strip_prefix (lit "PAGE") (drop_while is_space s1)) as [s2 |] eqn:E2;
    [| discriminate].
  destruct (take_some is_space s2) as [[w2 s3] |] eqn:E3; [| discriminate].
  destruct (take_some is_digit s3) as [[d' s4] |] eqn:E4; [| discriminate].
  destruct (strip_prefix (lit "-->") (drop_while is_space s4)) as [r |] eqn:E5;
    [| discriminate].
  intros H. inversion H; subst d' r. clear H.
  apply strip_prefix_Some in E1, E2, E5.
  apply take_some_inv in E3 as (E3 & Hw2 & Hn2).
  apply take_some_inv in E4 as (E4 & Hd & Hnd).
  exists (mkMarker (take_while is_space s1) w2 d (take_while is_space s4)).
  split; [| split; [reflexivity |]].
  - unfold marker_ok. cbn [ws_before ws_middle digits ws_after].
    now rewrite !take_while_forallb, Hw2, Hn2, Hd, Hnd.
  - unfold marker_text. cbn [ws_before ws_middle digits ws_after].
    rewrite E1. rewrite <- (take_drop_while is_space s1) at 1.
    rewrite E2, E3, E4. rewrite <- (take_drop_while is_space s4) at 1.
    rewrite E5. now rewrite <- !app_assoc.
Qed.

(** So the reading of a text as markers and bodies, on which the
    properties of the merger are stated, exists for every text. *)
Lemma text_decomposes : forall n s,
  length s <= n ->
  exists pre marks,
    s = pre ++ unparse marks
    /\ no_marker pre = true /\ forallb mark_ok marks = true.
Proof.
  induction n as [| n IH]; intros s Hn.
  - destruct s; [| simpl in Hn; lia]. exists [], []. auto.
  - destruct (match_marker s) as [[d rest] |] eqn:Em.
    + pose proof (match_marker_shorter _ _ _ Em) as Hlt.
      destruct (match_marker_inv _ _ _ Em) as (m & Hm & _ & ->).
      destruct (IH rest ltac:(lia)) as (body & marks & -> & Hbody & Hmarks).
      exists [], ((m, body) :: marks). repeat split.
      * change (unparse ((m, body) :: marks))
          with ((marker_text m ++ body) ++ unparse marks).
        now rewrite <- app_assoc.
      * cbn [forallb]. unfold mark_ok at 1. cbn [fst snd].
        now rewrite Hm, Hbody, Hmarks.
    + destruct s as [| c s']; [exists [], []; auto |].
      simpl in Hn.
      destruct (IH s' ltac:(lia)) as (pre & marks & -> & Hpre & Hmarks).
      exists (c :: pre), marks. repeat split; [| assumption].
      cbn [no_marker]. rewrite Hpre.
      destruct (unparse_head marks) as [E | [v E]]; rewrite E in Em.
      * rewrite app_nil_r in Em. now rewrite Em.
      * change (c :: pre ++ "<"%char :: v)
          with ((c :: pre) ++ "<"%char :: v) in Em.
        rewrite match_marker_before in Em by discriminate.
        destruct (match_marker (c :: pre)); [discriminate | reflexivity].
Qed.

(** ** The loop of [merge_translations] *)

Lemma merge_loop_pairs : forall fuel rest pfx pages,
  length rest <= fuel ->
  merge_loop fuel (pfx ++ rest) (length pfx) pages
  = fold_left store (pairs_of rest) pages.
Proof.
  induction fuel as [| fuel IH]; intros rest pfx pages Hfuel.
  - destruct rest; [reflexivity | simpl in Hfuel; lia].
  - destruct rest as [| a [| b rest]]; simpl merge_loop.
    + rewrite app_nil_r.
      destruct (Nat.ltb_spec (length pfx) (length pfx - 1)); [lia | reflexivity].
    + rewrite length_app. simpl length.
      destruct (Nat.ltb_spec (length pfx) (length pfx + 1 - 1));
        [lia | reflexivity].
    + rewrite length_app. simpl length.
      destruct (Nat.ltb_spec (length pfx) (length pfx + S (S (length rest)) - 1));
        [| lia].
      rewrite nth_error_app2 by lia. rewrite Nat.sub_diag. simpl nth_error.
      rewrite nth_error_app2 by lia.
      replace (length pfx + 1 - length pfx) with 1 by lia. simpl nth_error.
      replace (pfx ++ a :: b :: rest) with ((pfx ++ [a; b]) ++ rest)
        by (now rewrite <- app_assoc).
      replace (length pfx + 2) with (length (pfx ++ [a; b]))
        by (rewrite length_app; reflexivity).
      rewrite IH by (simpl in Hfuel; lia). reflexivity.
Qed.

Lemma merge_translations_pairs (files : list text) :
  files <> [] ->
  merge_translations files
  = fold_left store (pairs_of (snd (split_text (all_text files)))) [].
Proof.
  intros Hne. destruct files as [| f files]; [congruence |].
  unfold merge_translations, re_split.
  destruct (split_text (all_text (f :: files))) as [piece more].
  simpl snd.
  apply (merge_loop_pairs (length (piece :: more)) more [piece]).
  simpl. lia.
Qed.

Lemma pairs_of_flat (pairs : list (text * text)) :
  pairs_of (flat_map (fun nb => [fst nb; snd nb]) pairs) = pairs.
Proof.
  induction pairs as [| [n b] pairs IH]; simpl; [reflexivity |].
  now rewrite IH.
Qed.

Lemma flat_marks (marks : list (Marker * text)) :
  flat_map (fun mb => [digits (fst mb); snd mb]) marks
  = flat_map (fun nb => [fst nb; snd nb])
      (map (fun mb => (digits (fst mb), snd mb)) marks).
Proof.
  induction marks as [| mb marks IH]; simpl; [reflexivity |].
  now rewrite IH.
Qed.

(** The map built from a text of markers and bodies: one write per
    marker, in order; the text before the first marker writes nothing. *)
Lemma merge_unparse (files : list text) (pre : text)
    (marks : list (Marker * text)) :
  files <> [] ->
  all_text files = pre ++ unparse marks ->
  no_marker pre = true ->
  forallb mark_ok marks = true ->
  merge_translations files
  = fold_left store (map (fun mb => (digits (fst mb), snd mb)) marks) [].
Proof.
  intros Hne Htext Hpre Hmarks.
  rewrite (merge_translations_pairs _ Hne), Htext.
  pose proof (re_split_unparse pre marks Hpre Hmarks) as Hsplit.
  unfold re_split in Hsplit.
  destruct (split_text (pre ++ unparse marks)) as [piece more].
  inversion Hsplit; subst. simpl snd.
  now rewrite flat_marks, pairs_of_flat.
Qed.

Lemma get_store_marks (marks : list (Marker * text)) (p : Z) :
  Dict.get Z.eqb
    (fold_left store (map (fun mb => (digits (fst mb), snd mb)) marks) []) p
  = option_map strip (last_content p marks).
Proof.
  unfold last_content.
  induction marks as [| mb marks IH] using rev_ind; [reflexivity |].
  rewrite map_app, !fold_left_app. simpl. unfold store at 1. simpl.
  rewrite (get_set _ _ _ Z.eqb_spec). fold (page_of (fst mb)).
  destruct (Z.eqb (page_of (fst mb)) p); [reflexivity | exact IH].
Qed.

Lemma keys_store_marks (marks : list (Marker * text)) (k : Z) :
  In k (Dict.keys
          (fold_left store (map (fun mb => (digits (fst mb), snd mb)) marks) []))
  <-> exists mb, In mb marks /\ page_of (fst mb) = k.
Proof.
  induction marks as [| mb marks IH] using rev_ind.
  - simpl. split; [intros [] | intros (mb & [] & _)].
  - rewrite map_app, fold_left_app. simpl. unfold store at 1. simpl.
    rewrite (keys_set _ _ _ Z.eqb_spec). rewrite IH.
    fold (page_of (fst mb)). split.
    + intros [-> | (mb' & Hin & Hk)].
      * exists mb. split; [apply in_or_app; right; now left | reflexivity].
      * exists mb'. split; [apply in_or_app; now left | assumption].
    + intros (mb' & Hin & Hk). apply in_app_or in Hin as [Hin | [<- | []]].
      * right. now exists mb'.
      * now left.
Qed.

(** C4. Read the text of the fragment files as a sequence of markers,
    each followed by its content (every text has such a reading,
    [text_decomposes]).  The entry of a page is the content that follows
    the last marker for that page, trimmed; a page without a marker has no
    entry. *)
Theorem last_marker_wins (files : list text) (pre : text)
    (marks : list (Marker * text)) (p : Z) :
  files <> [] ->
  all_text files = pre ++ unparse marks ->
  no_marker pre = true ->
  forallb mark_ok marks = true ->
  Dict.get Z.eqb (merge_translations files) p
  = option_map strip (last_content p marks).
Proof.
  intros Hne Htext Hpre Hmarks.
  rewrite (merge_unparse files pre marks Hne Htext Hpre Hmarks).
  apply get_store_marks.
Qed.

(** C3, as amended. The content after the final marker is not dropped: it
    is stored, trimmed, under the page of that marker.  What is dropped is
    the text before the first marker: the keys of the map are exactly the
    page numbers of the markers. *)
Theorem trailing_content_kept (files : list text) (pre : text)
    (marks : list (Marker * text)) (m : Marker) (b : text) :
  files <> [] ->
  all_text files = pre ++ unparse (marks ++ [(m, b)]) ->
  no_marker pre = true ->
  forallb mark_ok (marks ++ [(m, b)]) = true ->
  Dict.get Z.eqb (merge_translations files) (page_of m) = Some (strip b)
  /\ forall k, In k (Dict.keys (merge_translations files))
               <-> exists mb, In mb (marks ++ [(m, b)]) /\ page_of (fst mb) = k.
Proof.
  intros Hne Htext Hpre Hmarks.
  rewrite (merge_unparse files pre _ Hne Htext Hpre Hmarks). split.
  - rewrite get_store_marks. unfold last_content.
    rewrite fold_left_app. simpl. now rewrite Z.eqb_refl.
  - intros k. apply keys_store_marks.
Qed.

(** Every key of the map is read from a string of digits. *)
Lemma int_of_digits_nonneg (d : text) :
  forallb is_digit d = true -> (0 <= int_of_digits d)%Z.
Proof.
  unfold int_of_digits.
  assert (H : forall acc, (0 <= acc)%Z -> forallb is_digit d = true ->
              (0 <= fold_left (fun a c => (10 * a + digit_val c)%Z) d acc)%Z).
  { induction d as [| c d IH]; intros acc Hacc Hd; cbn [fold_left];
      [assumption |].
    cbn [forallb] in Hd. apply andb_prop in Hd as [Hc Hd].
    apply IH; [| assumption].
    unfold is_digit in Hc. apply andb_prop in Hc as [H1 H2].
    apply Nat.leb_le in H1. unfold digit_val. lia. }
  intros Hd. apply H; [lia | assumption].
Qed.

Lemma merge_keys_nonneg (files : list text) (k : Z) :
  In k (Dict.keys (merge_translations files)) -> (0 <= k)%Z.
Proof.
  destruct files as [| f files]; [intros [] |].
  rewrite merge_translations_pairs by discriminate.
  destruct (split_text_pairs (length (all_text (f :: files)))
              (all_text (f :: files)) (le_n _)) as (pairs & -> & Hd).
  rewrite pairs_of_flat. revert k.
  induction pairs as [| nb pairs IH] using rev_ind; intros k; [intros [] |].
  rewrite fold_left_app. simpl. unfold store at 1.
  rewrite (keys_set _ _ _ Z.eqb_spec).
  apply Forall_app in Hd as [Hd Hnb]. inversion Hnb; subst.
  intros [-> | Hin].
  - now apply int_of_digits_nonneg.
  - now apply IH.
Qed.

(** C7, as amended. The keys of the map built by the merger are the
    numbers read from the markers: they are never negative, and nothing
    confines them to the pages of the source.  The composer does not need
    an entry for a page: a page without one gets a single blank-right
    spread. *)
Theorem keys_unchecked_missing_tolerated (rendered_page : Type)
    (markdown : text -> text) (render : text -> result (list rendered_page))
    (HTML_TEMPLATE : text) (files : list text) (paper : text)
    (src : SourceDocument) (out : list (SpreadPage rendered_page))
    (p : nat) (r : PageRect) :
  nth_error src (p - 1) = Some r ->
  (0 < width r)%Q -> (0 < height r)%Q ->
  Dict.get Z.eqb (merge_translations files) (Z.of_nat p) = None ->
  (forall k, In k (Dict.keys (merge_translations files)) -> (0 <= k)%Z)
  /\ compose_page markdown render HTML_TEMPLATE paper src
       (merge_translations files) out p
     = ret (out ++ [spec_spread (mkLeft (place_rect r) (p - 1)) None p]).
Proof.
  intros Hr Hw Hh Hg. split.
  - intros k. apply merge_keys_nonneg.
  - apply compose_page_blank; try assumption.
    now rewrite (Qpos_nonzero _ Hw), (Qpos_nonzero _ Hh).
Qed.

(* ================================================================== *)
(** * The properties on the sample inputs *)
(* ================================================================== *)

(** The scenario of the specification: five source pages, translations
    for pages 2 and 4, page 4 overflowing by one page. *)
Lemma spread_page_count_witness :
  exists src out,
    Dict.get text_eqb (ws_papers Sample.ws_two_of_five) (lit "p5") = Some src
    /\ saved (trace (compose_document Sample.markdown Sample.render
                       Sample.template Sample.ws_two_of_five (lit "p5")
                       (merge_translations
                          (ws_translations Sample.ws_two_of_five (lit "p5")))))
       = [(lit "p5", out)]
    /\ length src <= length out
    /\ length out
       = length src
         + total_overflow Sample.markdown Sample.render Sample.template
             (merge_translations
                (ws_translations Sample.ws_two_of_five (lit "p5")))
             (length src)
    /\ (length out = length src <->
        forall p k, 1 <= p <= length src ->
          rendered_pages Sample.markdown Sample.render Sample.template
            (merge_translations
               (ws_translations Sample.ws_two_of_five (lit "p5"))) p
          = Some k -> k <= 1).
Proof.
  apply (@spread_page_count text Sample.markdown Sample.render Sample.template
           Sample.ws_two_of_five (lit "p5")).
  - vm_compute. reflexivity.
  - vm_compute. reflexivity.
Defined.

Example two_of_five_spreads :
  map (fun sp => (sp_footer sp, option_map (@right_page text) (sp_right sp)))
      (concat (map snd
         (saved (trace (generate_aligned_pdf Sample.markdown Sample.render
                          Sample.template Sample.ws_two_of_five (lit "p5"))))))
  = [(1%Z, None); (2%Z, Some 0); (3%Z, None); (4%Z, Some 0); (4%Z, Some 1);
     (5%Z, None)].
Proof. vm_compute. reflexivity. Qed.

Lemma spread_order_witness :
  exists src out groups,
    Dict.get text_eqb (ws_papers Sample.ws_two_of_five) (lit "p5") = Some src
    /\ saved (trace (compose_document Sample.markdown Sample.render
                       Sample.template Sample.ws_two_of_five (lit "p5")
                       (merge_translations
                          (ws_translations Sample.ws_two_of_five (lit "p5")))))
       = [(lit "p5", out)]
    /\ out = concat groups
    /\ length groups = length src
    /\ StronglySorted Z.le (map (@sp_footer text) out)
    /\ forall p g,
         1 <= p <= length src ->
         nth_error groups (p - 1) = Some g ->
         exists r,
           nth_error src (p - 1) = Some r
           /\ Forall (fun sp =>
                        sp_footer sp = Z.of_nat p
                        /\ sp_left sp = mkLeft (place_rect r) (p - 1)) g
           /\ match Dict.get Z.eqb
                      (merge_translations
                         (ws_translations Sample.ws_two_of_five (lit "p5")))
                      (Z.of_nat p) with
              | None => map (@sp_right text) g = [None]
              | Some content =>
                  exists pdf,
                    Sample.render
                      (page_html Sample.markdown Sample.template content)
                    = Ok pdf
                    /\ pdf <> []
                    /\ map (@sp_right text) g
                       = map (fun kc => Some (spec_right pdf (fst kc) (snd kc)))
                           (combine (seq 0 (length pdf)) pdf)
              end.
Proof.
  apply (@spread_order text Sample.markdown Sample.render Sample.template
           Sample.ws_two_of_five (lit "p5")).
  - vm_compute. reflexivity.
  - vm_compute. reflexivity.
Defined.


(** The page of 400 by 800 points: the scale is [841.89 / 800], the
    smaller of the two ratios. *)
Example tall_page_scale :
  (Qmin (PAGE_W / 400) (PAGE_H / 800) == PAGE_H / 800)%Q
  /\ (x0 (place_rect Sample.tall) == (PAGE_W - 400 * (PAGE_H / 800)) / 2)%Q
  /\ (y0 (place_rect Sample.tall) == 0)%Q.
Proof. vm_compute. repeat split. Qed.

Lemma empty_map_no_output_witness :
  generate_aligned_pdf Sample.markdown Sample.render Sample.template
    Sample.ws_no_marker (lit "p")
  = ([Makedirs; Print (MsgProcessing (lit "p")); Print MsgNoTranslation],
     Ok tt)
  /\ (forall q, ~ In (OpenSrc q)
                  (trace (generate_aligned_pdf Sample.markdown Sample.render
                            Sample.template Sample.ws_no_marker (lit "p"))))
  /\ saved (trace (generate_aligned_pdf Sample.markdown Sample.render
                     Sample.template Sample.ws_no_marker (lit "p"))) = [].
Proof.
  apply (@empty_map_no_output text Sample.markdown Sample.render
           Sample.template Sample.ws_no_marker (lit "p")).
  vm_compute. reflexivity.
Defined.

(** The scenario of the specification for duplicate markers: the content
    after the second marker for page 3 is the entry of page 3. *)
Lemma last_marker_wins_witness :
  Dict.get Z.eqb
    (merge_translations [lit "<!-- PAGE 3 -->body A<!-- PAGE 3 -->body B"]) 3%Z
  = Some (lit "body B").
Proof.
  exact (last_marker_wins
           [lit "<!-- PAGE 3 -->body A<!-- PAGE 3 -->body B"] []
           [(mkMarker (lit " ") (lit " ") (lit "3") (lit " "), lit "body A");
            (mkMarker (lit " ") (lit " ") (lit "3") (lit " "),
             lit "body B" ++ [newline])]
           3%Z ltac:(discriminate) eq_refl eq_refl eq_refl).
Defined.

(** C3 as the specification states it fails: the text after the final
    marker is the entry of its page, and removing that text changes the
    map. *)
Lemma trailing_content_discarded_cex :
  Dict.get Z.eqb (merge_translations [lit "<!-- PAGE 1 -->hello"]) 1%Z
  = Some (lit "hello")
  /\ merge_translations [lit "<!-- PAGE 1 -->hello"]
     <> merge_translations [lit "<!-- PAGE 1 -->"].
Proof. split; [reflexivity | discriminate]. Qed.

Lemma trailing_content_kept_witness :
  Dict.get Z.eqb (merge_translations [lit "intro<!-- PAGE 1 -->hello"])
    (page_of (mkMarker (lit " ") (lit " ") (lit "1") (lit " ")))
  = Some (strip (lit "hello" ++ [newline]))
  /\ forall k,
       In k (Dict.keys (merge_translations [lit "intro<!-- PAGE 1 -->hello"]))
       <-> exists mb,
             In mb ([] ++ [(mkMarker (lit " ") (lit " ") (lit "1") (lit " "),
                            lit "hello" ++ [newline])])
             /\ page_of (fst mb) = k.
Proof.
  apply (trailing_content_kept [lit "intro<!-- PAGE 1 -->hello"] (lit "intro") []).
  - discriminate.
  - reflexivity.
  - reflexivity.
  - reflexivity.
Defined.

(** C7 as the specification states it fails: the merger keeps the numbers
    7 and 0 for a source of five pages. *)
Lemma keys_within_source_cex :
  ~ (forall k,
       In k (Dict.keys
               (merge_translations
                  [lit "<!-- PAGE 7 -->late<!-- PAGE 0 -->zero"])) ->
       (1 <= k <= Z.of_nat (length Sample.five_pages))%Z).
Proof.
  intros H. specialize (H 7%Z). simpl in H.
  assert (Hin : In 7%Z
                  (Dict.keys
                     (merge_translations
                        [lit "<!-- PAGE 7 -->late<!-- PAGE 0 -->zero"]))).
  { vm_compute. now left. }
  apply H in Hin. lia.
Qed.

Lemma keys_unchecked_missing_tolerated_witness :
  (forall k,
     In k (Dict.keys
             (merge_translations
                (ws_translations Sample.ws_two_of_five (lit "p5")))) ->
     (0 <= k)%Z)
  /\ compose_page Sample.markdown Sample.render Sample.template (lit "p5")
       Sample.five_pages
       (merge_translations (ws_translations Sample.ws_two_of_five (lit "p5")))
       [] 1
     = ret ([] ++ [spec_spread (mkLeft (place_rect Sample.a4) (1 - 1)) None 1]).
Proof.
  apply (keys_unchecked_missing_tolerated text Sample.markdown Sample.render
           Sample.template
           (ws_translations Sample.ws_two_of_five (lit "p5")) (lit "p5")
           Sample.five_pages [] 1 Sample.a4).
  - reflexivity.
  - reflexivity.
  - reflexivity.
  - reflexivity.
Defined.

(** C10 without the condition on emptiness fails: the two maps agree on
    page 1, the only page of the source, yet the entry for page 99 decides
    whether a document is saved at all. *)
Lemma out_of_range_key_cex :
  (forall k, (1 <= k <= 1)%Z ->
     Dict.get Z.eqb
       (merge_translations (ws_translations Sample.ws_no_marker (lit "p"))) k
     = Dict.get Z.eqb
         (merge_translations (ws_translations Sample.ws_far_marker (lit "p"))) k)
  /\ saved (trace (generate_aligned_pdf Sample.markdown Sample.render
                     Sample.template Sample.ws_no_marker (lit "p")))
     <> saved (trace (generate_aligned_pdf Sample.markdown Sample.render
                        Sample.template Sample.ws_far_marker (lit "p"))).
Proof.
  split.
  - intros k Hk. assert (k = 1%Z) as -> by lia. reflexivity.
  - vm_compute. discriminate.
Qed.

Lemma out_of_range_keys_ignored_witness :
  outcome (compose_document Sample.markdown Sample.render Sample.template
             Sample.ws_far_marker (lit "p") [(1%Z, lit "x")])
  = outcome (compose_document Sample.markdown Sample.render Sample.template
               Sample.ws_far_marker (lit "p")
               [(1%Z, lit "x"); (99%Z, lit "far")])
  /\ saved (trace (compose_document Sample.markdown Sample.render
                     Sample.template Sample.ws_far_marker (lit "p")
                     [(1%Z, lit "x")]))
     = saved (trace (compose_document Sample.markdown Sample.render
                       Sample.template Sample.ws_far_marker (lit "p")
                       [(1%Z, lit "x"); (99%Z, lit "far")])).
Proof.
  apply (@out_of_range_keys_ignored text Sample.markdown Sample.render
           Sample.template Sample.ws_far_marker (lit "p") [Sample.a4]).
  - reflexivity.
  - intros k Hk. simpl in Hk. assert (k = 1%Z) as -> by lia. reflexivity.
  - reflexivity.
Defined.

(** C8, the code at the failing input. Paper [a] fails in the renderer
    and paper [b] is composed after it: the error of [a] is reported, only
    [b] is saved, and the batch returns.  The source document and the
    output document opened for [a] are never closed. *)
Theorem render_failure_leaves_documents_open :
  let run := main_dual Sample.markdown Sample.render Sample.template
               Sample.ws_batch [lit "a"; lit "b"] in
  outcome run = Ok tt
  /\ reported (trace run) = [(lit "a", RenderError 1)]
  /\ map fst (saved (trace run)) = [lit "b"]
  /\ open_handles (trace run) = [HSrc (lit "a"); HOut (lit "a")].
Proof. vm_compute. repeat split. Qed.

(* ================================================================== *)
(** * Properties of the math-protection codec *)
(* ================================================================== *)

(** ** The keys *)

Lemma digit_char_code (d : nat) :
  d < 10 -> nat_of_ascii (digit_char d) = 48 + d.
Proof.
  intros H. unfold digit_char. apply nat_ascii_embedding. lia.
Qed.

Lemma digit_char_is_digit (d : nat) : d < 10 -> is_digit (digit_char d) = true.
Proof.
  intros H. unfold is_digit. rewrite (digit_char_code d H).
  apply andb_true_intro. split; apply Nat.leb_le; lia.
Qed.

Lemma digit_char_val (d : nat) : d < 10 -> digit_val (digit_char d) = Z.of_nat d.
Proof. intros H. unfold digit_val. rewrite (digit_char_code d H). lia. Qed.

Lemma decimal_loop_acc : forall fuel n acc,
  decimal_loop fuel n acc = decimal_loop fuel n [] ++ acc.
Proof.
  induction fuel as [| fuel IH]; intros n acc; cbn [decimal_loop];
    [reflexivity |].
  destruct (n / 10 =? 0); [reflexivity |].
  rewrite (IH _ (_ :: acc)), (IH _ [_]). now rewrite <- app_assoc.
Qed.

Lemma int_of_digits_snoc (s : text) (c : ascii) :
  int_of_digits (s ++ [c]) = (10 * int_of_digits s + digit_val c)%Z.
Proof. unfold int_of_digits. now rewrite fold_left_app. Qed.

(** The decimal digits of [n]: all digits, at most [k] of them when
    [n < 10 ^ k], and they read back as [n]. *)
Lemma decimal_loop_spec : forall fuel n,
  n < fuel ->
  forallb is_digit (decimal_loop fuel n []) = true
  /\ int_of_digits (decimal_loop fuel n []) = Z.of_nat n
  /\ 1 <= length (decimal_loop fuel n [])
  /\ forall k, 1 <= k -> n < 10 ^ k -> length (decimal_loop fuel n []) <= k.
Proof.
  induction fuel as [| fuel IH]; intros n Hn; [lia |].
  assert (Hmod : n mod 10 < 10) by (apply Nat.mod_upper_bound; lia).
  pose proof (Nat.div_mod_eq n 10) as Hdm.
  cbn [decimal_loop]. destruct (Nat.eqb_spec (n / 10) 0) as [Hq | Hq].
  - cbn [forallb length]. rewrite (digit_char_is_digit _ Hmod).
    repeat split; try lia.
    unfold int_of_digits. cbn [fold_left].
    rewrite (digit_char_val _ Hmod). lia.
  - rewrite decimal_loop_acc.
    destruct (IH (n / 10)) as (Hd & Hv & Hl1 & Hlk). { lia. }
    repeat split.
    + rewrite forallb_app, Hd. cbn [forallb].
      now rewrite (digit_char_is_digit _ Hmod).
    + rewrite int_of_digits_snoc, Hv, (digit_char_val _ Hmod). lia.
    + rewrite length_app. cbn [length]. lia.
    + intros k Hk Hlt. rewrite length_app. cbn [length].
      destruct k as [| [| k]]; [lia | change (10 ^ 1) with 10 in Hlt; lia |].
      assert (length (decimal_loop fuel (n / 10) []) <= S k); [| lia].
      apply Hlk; [lia |].
      change (10 ^ S (S k)) with (10 * 10 ^ S k) in Hlt.
      apply Nat.Div0.div_lt_upper_bound. lia.
Qed.

Lemma int_of_digits_zeros (k : nat) (s : text) :
  int_of_digits (repeat "0"%char k ++ s) = int_of_digits s.
Proof.
  unfold int_of_digits. rewrite fold_left_app. f_equal.
  induction k as [| k IH]; [reflexivity | exact IH].
Qed.

Lemma format_04d_digits (n : nat) : forallb is_digit (format_04d n) = true.
Proof.
  unfold format_04d, decimal.
  destruct (decimal_loop_spec (S n) n (Nat.lt_succ_diag_r n)) as (Hd & _).
  rewrite forallb_app, Hd, andb_true_r.
  induction (4 - length (decimal_loop (S n) n [])) as [| k IH];
    [reflexivity | exact IH].
Qed.

Lemma format_04d_value (n : nat) : int_of_digits (format_04d n) = Z.of_nat n.
Proof.
  unfold format_04d, decimal. rewrite int_of_digits_zeros.
  apply (decimal_loop_spec (S n) n (Nat.lt_succ_diag_r n)).
Qed.

Lemma format_04d_length (n : nat) : n < 10000 -> length (format_04d n) = 4.
Proof.
  intros Hn. unfold format_04d, decimal.
  destruct (decimal_loop_spec (S n) n (Nat.lt_succ_diag_r n))
    as (_ & _ & Hl1 & Hlk).
  specialize (Hlk 4 ltac:(lia) Hn).
  rewrite length_app, repeat_length. lia.
Qed.

Lemma format_04d_inj (n n' : nat) : format_04d n = format_04d n' -> n = n'.
Proof.
  intros H. apply Nat2Z.inj. rewrite <- !format_04d_value. now rewrite H.
Qed.

Lemma digit_not (c x : ascii) :
  is_digit x = false -> forall d, forallb is_digit d = true -> c = x -> ~ In c d.
Proof.
  intros Hx d Hd -> Hin. rewrite forallb_forall in Hd.
  specialize (Hd x Hin). congruence.
Qed.

Lemma block_key_like (n : nat) : key_like (MATHBLOCK ++ format_04d n).
Proof.
  exists (lit "ATHBLOCK" ++ format_04d n). split; [reflexivity |].
  pose proof (format_04d_digits n) as Hd.
  split; intros Hin; apply in_app_or in Hin as [Hin | Hin].
  - simpl in Hin. intuition discriminate.
  - now apply (digit_not "M" "M" eq_refl _ Hd eq_refl).
  - simpl in Hin. unfold dollar in Hin. intuition discriminate.
  - now apply (digit_not dollar "$" eq_refl _ Hd eq_refl).
Qed.

Lemma inline_key_like (n : nat) : key_like (MATHINLINE ++ format_04d n).
Proof.
  exists (lit "ATHINLINE" ++ format_04d n). split; [reflexivity |].
  pose proof (format_04d_digits n) as Hd.
  split; intros Hin; apply in_app_or in Hin as [Hin | Hin].
  - simpl in Hin. intuition discriminate.
  - now apply (digit_not "M" "M" eq_refl _ Hd eq_refl).
  - simpl in Hin. unfold dollar in Hin. intuition discriminate.
  - now apply (digit_not dollar "$" eq_refl _ Hd eq_refl).
Qed.

Lemma app_same_length {A} (a b c d : list A) :
  a ++ b = c ++ d -> length a = length c -> a = c /\ b = d.
Proof.
  revert c. induction a as [| x a IH]; intros [| y c] H Hl;
    simpl in *; try discriminate.
  - auto.
  - inversion H; subst. destruct (IH c H2 ltac:(lia)) as [-> ->]. auto.
Qed.

(** Below ten thousand the keys of one kind with different numbers are
    apart, and so are any two keys of different kinds. *)
Lemma same_kind_apart (prefix : text) (n n' : nat) :
  n < 10000 -> n' < 10000 -> n <> n' ->
  apart (prefix ++ format_04d n) (prefix ++ format_04d n').
Proof.
  intros Hn Hn' Hne r.
  destruct (strip_prefix _ _) as [x |] eqn:E; [| reflexivity].
  exfalso. apply strip_prefix_Some in E. rewrite <- !app_assoc in E.
  apply app_inv_head in E.
  apply app_same_length in E as [E _].
  - apply Hne. symmetry. now apply format_04d_inj.
  - now rewrite !format_04d_length.
Qed.

Lemma block_inline_apart (n n' : nat) :
  apart (MATHBLOCK ++ format_04d n) (MATHINLINE ++ format_04d n').
Proof. intros r. reflexivity. Qed.

Lemma inline_block_apart (n n' : nat) :
  apart (MATHINLINE ++ format_04d n) (MATHBLOCK ++ format_04d n').
Proof. intros r. reflexivity. Qed.

Lemma apart_neq (k k' : text) : apart k k' -> k <> k'.
Proof.
  intros H ->. specialize (H []). rewrite app_nil_r in H.
  pose proof (strip_prefix_app k' []) as E. rewrite app_nil_r in E. congruence.
Qed.

(** ** [str.replace] *)

Lemma replace_loop_fuel (old new : text) :
  old <> [] ->
  forall fuel1 fuel2 s,
    length s < fuel1 -> length s < fuel2 ->
    replace_loop fuel1 old new s = replace_loop fuel2 old new s.
Proof.
  intros Hold. induction fuel1 as [| fuel1 IH]; intros fuel2 s H1 H2; [lia |].
  destruct fuel2 as [| fuel2]; [lia |]. simpl.
  destruct (strip_prefix old s) as [rest |] eqn:E.
  - apply strip_prefix_length in E.
    assert (0 < length old) by (destruct old; [congruence | simpl; lia]).
    rewrite (IH fuel2 rest) by lia. reflexivity.
  - destruct s as [| c s']; [reflexivity |].
    simpl in H1, H2. rewrite (IH fuel2 s') by lia. reflexivity.
Qed.

Lemma replace_nil (old new : text) : old <> [] -> replace old new [] = [].
Proof. destruct old; [congruence |]. reflexivity. Qed.

Lemma replace_match (old new s rest : text) :
  old <> [] -> strip_prefix old s = Some rest ->
  replace old new s = new ++ replace old new rest.
Proof.
  intros Hold E. destruct old as [| x old']; [congruence |].
  unfold replace. cbn [replace_loop]. rewrite E.
  pose proof (strip_prefix_length _ _ _ E) as Hl. simpl in Hl.
  now rewrite (replace_loop_fuel (x :: old') new Hold
                 (length s) (S (length rest)) rest) by lia.
Qed.

Lemma replace_skip (old new : text) (c : ascii) (s : text) :
  old <> [] -> strip_prefix old (c :: s) = None ->
  replace old new (c :: s) = c :: replace old new s.
Proof.
  intros Hold E. destruct old as [| x old']; [congruence |].
  unfold replace. cbn [replace_loop length]. rewrite E. reflexivity.
Qed.

(** ** Occurrences *)

Lemma occursb_here (k r : text) : occursb k (k ++ r) = true.
Proof. destruct (k ++ r) eqn:E; simpl; rewrite <- E, strip_prefix_app; reflexivity. Qed.

Lemma occursb_app_r (k a b : text) :
  occursb k (a ++ b) = false -> occursb k b = false.
Proof.
  induction a as [| c a IH]; [auto |]. simpl.
  destruct (strip_prefix k (c :: a ++ b)); [discriminate | exact IH].
Qed.

Lemma occursb_app_l (k a b : text) :
  occursb k (a ++ b) = false -> occursb k a = false.
Proof.
  induction a as [| c a IH]; intros H.
  - simpl in *. destruct k as [| x k]; [simpl in H |].
    + destruct b; discriminate.
    + reflexivity.
  - simpl in *.
    destruct (strip_prefix k (c :: a ++ b)) as [r |] eqn:E; [discriminate |].
    destruct (strip_prefix k (c :: a)) as [r |] eqn:E'.
    + apply strip_prefix_Some in E'.
      change (c :: a ++ b) with ((c :: a) ++ b) in E.
      rewrite E', <- app_assoc, strip_prefix_app in E. discriminate.
    + now apply IH.
Qed.

Lemma occursb_cons (k : text) (c : ascii) (s : text) :
  occursb k (c :: s) = false ->
  strip_prefix k (c :: s) = None /\ occursb k s = false.
Proof.
  simpl. destruct (strip_prefix k (c :: s)); [discriminate | auto].
Qed.

Lemma occursb_middle (k a b : text) : occursb k (a ++ k ++ b) = true.
Proof.
  destruct (occursb k (a ++ k ++ b)) eqn:E; [reflexivity |].
  apply occursb_app_r in E. now rewrite occursb_here in E.
Qed.

(** ** [restore_math] on items *)

Lemma cur_app (a b : list item) : cur (a ++ b) = cur a ++ cur b.
Proof. apply flat_map_app. Qed.

Lemma org_app (a b : list item) : org (a ++ b) = org a ++ org b.
Proof. apply flat_map_app. Qed.

Lemma toks_app (a b : list item) : toks (a ++ b) = toks a ++ toks b.
Proof. apply flat_map_app. Qed.

Lemma cur_lits (s : text) : cur (map Lit s) = s.
Proof. induction s as [| c s IH]; simpl; [reflexivity | now rewrite IH]. Qed.

Lemma org_lits (s : text) : org (map Lit s) = s.
Proof. induction s as [| c s IH]; simpl; [reflexivity | now rewrite IH]. Qed.

Lemma toks_lits (s : text) : toks (map Lit s) = [].
Proof. induction s as [| c s IH]; simpl; [reflexivity | exact IH]. Qed.

Lemma in_toks (k o : text) (its : list item) :
  In (k, o) (toks its) <-> In (Tok k o) its.
Proof.
  induction its as [| [c | k' o'] its IH]; simpl.
  - tauto.
  - rewrite IH. split; [auto | intros [H | H]; [discriminate | exact H]].
  - rewrite IH. split; intros [H | H]; auto; left; congruence.
Qed.

(** A run without [M] at the head of the current text is made of plain
    characters, so it is also at the head of the original text. *)
Lemma plain_prefix (u : text) :
  ~ In "M"%char u ->
  forall its r,
    (forall k o, In (Tok k o) its -> key_like k) ->
    cur its = u ++ r ->
    exists r', org its = u ++ r'.
Proof.
  intros Hu. induction u as [| c u IH]; intros its r Hkeys Hcur.
  - exists (org its). reflexivity.
  - destruct its as [| [c' | k o] its]; simpl in Hcur; [discriminate | |].
    + inversion Hcur; subst c'.
      destruct (IH ltac:(intros H; apply Hu; now right) its r) as (r' & Hr').
      * intros k o H. apply (Hkeys k o). now right.
      * assumption.
      * exists r'. simpl. now rewrite Hr'.
    + exfalso. destruct (Hkeys k o (or_introl eq_refl)) as (tail & -> & _).
      simpl in Hcur. inversion Hcur. apply Hu. now left.
Qed.

Lemma replace_plain (k o u s : text) :
  key_like k -> ~ In "M"%char u ->
  replace k o (u ++ s) = u ++ replace k o s.
Proof.
  intros (tail & -> & _) Hu. induction u as [| c u IH]; [reflexivity |].
  simpl app. rewrite replace_skip; [| discriminate |].
  - f_equal. apply IH. intros H. apply Hu. now right.
  - cbn [strip_prefix].
    destruct (Ascii.eqb_spec "M" c) as [<- | _]; [| reflexivity].
    exfalso. apply Hu. now left.
Qed.

Lemma key_like_nonempty (k : text) : key_like k -> k <> [].
Proof. intros (tail & -> & _). discriminate. Qed.

(** One replacement: the tokens with key [k] are expanded, nothing else
    changes. *)
Lemma replace_items (k o : text) :
  key_like k ->
  forall its,
    (forall k' o', In (Tok k' o') its ->
       key_like k' /\ ((k' = k /\ o' = o) \/ apart k k')) ->
    occursb k (org its) = false ->
    replace k o (cur its) = cur (expand k o its).
Proof.
  intros Hk. pose proof (key_like_nonempty k Hk) as Hne.
  induction its as [| [c | k' o'] its IH]; intros Htoks Hocc.
  - now apply replace_nil.
  - assert (Hhere : strip_prefix k (cur (Lit c :: its)) = None).
    { destruct (strip_prefix k (cur (Lit c :: its))) as [r |] eqn:E;
        [| reflexivity].
      exfalso. apply strip_prefix_Some in E.
      destruct Hk as (tail & -> & HM & _). simpl in E. inversion E; subst c.
      destruct (plain_prefix tail HM its r) as (r' & Hr').
      - intros k1 o1 H. apply (Htoks k1 o1). now right.
      - assumption.
      - change (org (Lit "M"%char :: its)) with ("M"%char :: org its) in Hocc.
        rewrite Hr' in Hocc.
        change ("M"%char :: tail ++ r') with (("M"%char :: tail) ++ r') in Hocc.
        now rewrite occursb_here in Hocc. }
    change (cur (Lit c :: its)) with (c :: cur its) in *.
    rewrite replace_skip by assumption.
    change (expand k o (Lit c :: its)) with (Lit c :: expand k o its).
    change (cur (Lit c :: expand k o its)) with (c :: cur (expand k o its)).
    f_equal. apply IH.
    + intros k1 o1 H. apply (Htoks k1 o1). now right.
    + change (org (Lit c :: its)) with (c :: org its) in Hocc.
      now apply occursb_cons in Hocc as [_ ?].
  - destruct (Htoks k' o' (or_introl eq_refl)) as [Hk' [[-> ->] | Hap]].
    + change (cur (Tok k o :: its)) with (k ++ cur its).
      rewrite (replace_match k o (k ++ cur its) (cur its) Hne)
        by apply strip_prefix_app.
      change (expand k o (Tok k o :: its))
        with ((if text_eqb k k then map Lit o else [Tok k o]) ++ expand k o its).
      destruct (text_eqb_spec k k) as [_ | ?]; [| congruence].
      rewrite cur_app, cur_lits. f_equal. apply IH.
      * intros k1 o1 H. apply (Htoks k1 o1). now right.
      * change (org (Tok k o :: its)) with (o ++ org its) in Hocc.
        now apply occursb_app_r in Hocc.
    + change (cur (Tok k' o' :: its)) with (k' ++ cur its).
      change (expand k o (Tok k' o' :: its))
        with ((if text_eqb k' k then map Lit o else [Tok k' o'])
              ++ expand k o its).
      destruct (text_eqb_spec k' k) as [E | _].
      { exfalso. apply (apart_neq _ _ Hap). now symmetry. }
      change (cur ([Tok k' o'] ++ expand k o its))
        with (k' ++ cur (expand k o its)).
      pose proof (Hap (cur its)) as Hhere.
      destruct Hk' as (tail & -> & HM & _).
      change (("M"%char :: tail) ++ cur its)
        with ("M"%char :: tail ++ cur its) in *.
      rewrite replace_skip by assumption.
      rewrite (replace_plain k o tail (cur its) Hk HM).
      change (("M"%char :: tail) ++ cur (expand k o its))
        with ("M"%char :: tail ++ cur (expand k o its)).
      do 2 f_equal. apply IH.
      * intros k1 o1 H. apply (Htoks k1 o1). now right.
      * change (org (Tok ("M"%char :: tail) o' :: its))
          with (o' ++ org its) in Hocc.
        now apply occursb_app_r in Hocc.
Qed.

Lemma org_expand (k o : text) (its : list item) :
  (forall o', In (Tok k o') its -> o' = o) ->
  org (expand k o its) = org its.
Proof.
  induction its as [| [c | k' o'] its IH]; intros H; simpl.
  - reflexivity.
  - f_equal. apply IH. intros o' Hin. apply H. now right.
  - destruct (text_eqb_spec k' k) as [-> | _].
    + rewrite org_app, org_lits. rewrite (H o' (or_introl eq_refl)).
      f_equal. apply IH. intros o1 Hin. apply H. now right.
    + simpl. f_equal. apply IH. intros o1 Hin. apply H. now right.
Qed.

Lemma in_expand (k o k1 o1 : text) (its : list item) :
  In (Tok k1 o1) (expand k o its) -> In (Tok k1 o1) its /\ k1 <> k.
Proof.
  induction its as [| [c | k' o'] its IH]; simpl; [tauto | |].
  - intros [H | H]; [discriminate |]. destruct (IH H). auto.
  - destruct (text_eqb_spec k' k) as [-> | Hne]; intros H;
      apply in_app_or in H as [H | H].
    + apply in_map_iff in H as (c & Hc & _). discriminate.
    + destruct (IH H). auto.
    + destruct H as [H | []]. inversion H; subst. auto.
    + destruct (IH H). auto.
Qed.

Lemma cur_no_tokens (its : list item) :
  (forall k o, ~ In (Tok k o) its) -> cur its = org its.
Proof.
  induction its as [| [c | k o] its IH]; intros H; simpl.
  - reflexivity.
  - f_equal. apply IH. intros k o Hin. apply (H k o). now right.
  - exfalso. apply (H k o). now left.
Qed.

(** All replacements: when the table lists every token of the text, its
    keys are apart from each other and none occurs in the original text,
    [restore_math] gives the original text back. *)
Lemma restore_items : forall (table : placeholders) (its : list item),
  (forall k o, In (k, o) table ->
     key_like k /\ occursb k (org its) = false) ->
  (forall k o k' o', In (k, o) table -> In (k', o') table ->
     (k' = k /\ o' = o) \/ apart k k') ->
  (forall k o, In (Tok k o) its -> In (k, o) table) ->
  restore_math (cur its) table = org its.
Proof.
  induction table as [| [k o] table IH]; intros its Hkeys Hpair Hin.
  - simpl. apply cur_no_tokens. intros k o H. apply (Hin k o H).
  - simpl.
    destruct (Hkeys k o (or_introl eq_refl)) as [Hk Hocc].
    rewrite (replace_items k o Hk its); [| | assumption].
    2:{ intros k' o' H. split.
        - apply (Hkeys k' o'). now apply Hin.
        - apply (Hpair k o k' o'); [now left | now apply Hin]. }
    assert (Horg : org (expand k o its) = org its).
    { apply org_expand. intros o' H.
      destruct (Hpair k o k o' (or_introl eq_refl) (Hin _ _ H))
        as [[_ ->] | Hap]; [reflexivity |].
      exfalso. now apply (apart_neq _ _ Hap). }
    rewrite <- Horg. apply IH.
    + intros k1 o1 H. rewrite Horg. apply (Hkeys k1 o1). now right.
    + intros k1 o1 k2 o2 H1 H2. apply Hpair; now right.
    + intros k1 o1 H. apply in_expand in H as [H Hne].
      destruct (Hin k1 o1 H) as [E | Ht]; [| assumption].
      inversion E. congruence.
Qed.

(** ** The two patterns *)

Lemma is_dollar_eq (c : ascii) : is_dollar c = true -> c = dollar.
Proof. unfold is_dollar. intros H. now apply Ascii.eqb_eq in H. Qed.

Lemma find_close_block_spec : forall s body rest,
  find_close_block s = Some (body, rest) ->
  s = body ++ [dollar; dollar] ++ rest.
Proof.
  induction s as [| c s IH]; intros body rest H; [discriminate |].
  cbn [find_close_block] in H.
  destruct s as [| d s']; [discriminate |].
  destruct (is_dollar c && is_dollar d) eqn:E.
  - inversion H; subst. apply andb_prop in E as [Hc Hd].
    now rewrite (is_dollar_eq _ Hc), (is_dollar_eq _ Hd).
  - destruct (find_close_block (d :: s')) as [[b r] |] eqn:E'; [| discriminate].
    inversion H; subst. simpl. f_equal. now apply IH.
Qed.

Lemma match_block_dollar : dollar_spans match_block.
Proof.
  intros prev s span rest H. unfold match_block in H.
  destruct s as [| c1 [| c2 [| c3 s']]]; try discriminate.
  destruct (is_dollar c1 && is_dollar c2) eqn:E; [| discriminate].
  destruct (find_close_block s') as [[body r] |] eqn:Ef; [| discriminate].
  inversion H; subst. apply andb_prop in E as [H1 H2].
  apply is_dollar_eq in H1, H2. subst c1 c2.
  apply find_close_block_spec in Ef. subst s'. split.
  - simpl. now rewrite <- app_assoc.
  - exists (dollar :: c3 :: body ++ [dollar]). simpl.
    now rewrite <- app_assoc.
Qed.

Lemma find_close_inline_spec : forall s body rest,
  find_close_inline s = Some (body, rest) -> s = body ++ dollar :: rest.
Proof.
  induction s as [| c s IH]; intros body rest H; [discriminate |].
  cbn [find_close_inline] in H.
  destruct (is_dollar c
            && match s with d :: _ => negb (is_dollar d) | [] => true end) eqn:E.
  - inversion H; subst. apply andb_prop in E as [Hc _].
    now rewrite (is_dollar_eq _ Hc).
  - destruct (is_newline c); [discriminate |].
    destruct (find_close_inline s) as [[b r] |] eqn:E'; [| discriminate].
    inversion H; subst. simpl. f_equal. now apply IH.
Qed.

Lemma match_inline_dollar : dollar_spans match_inline.
Proof.
  intros prev s span rest H. unfold match_inline in H.
  destruct prev; [discriminate |].
  destruct s as [| c1 [| c2 s']]; try discriminate.
  destruct (is_dollar c1 && negb (is_dollar c2) && negb (is_newline c2)) eqn:E;
    [| discriminate].
  destruct (find_close_inline s') as [[body r] |] eqn:Ef; [| discriminate].
  inversion H; subst. apply andb_prop in E as [E _].
  apply andb_prop in E as [H1 _]. apply is_dollar_eq in H1. subst c1.
  apply find_close_inline_spec in Ef. subst s'. split.
  - simpl. now rewrite <- app_assoc.
  - exists (c2 :: body). reflexivity.
Qed.

(** ** One pass of [re.sub] *)

Lemma number_chars (prefix : text) (n : nat) (s : text) :
  number prefix n (map Chr s) = map Lit s.
Proof. induction s as [| c s IH]; simpl; [reflexivity | now rewrite IH]. Qed.

Lemma spans_chars (s : text) : spans (map Chr s) = [].
Proof. induction s as [| c s IH]; simpl; [reflexivity | exact IH]. Qed.

Lemma org_number : forall ps p k p' k',
  org (number p k ps) = org (number p' k' ps).
Proof.
  induction ps as [| [c | sp] ps IH]; intros p k p' k'; simpl.
  - reflexivity.
  - now rewrite (IH p k p' k').
  - now rewrite (IH p (S k) p' (S k')).
Qed.

Section Pass.

Variable m : matcher.
Hypothesis Hm : dollar_spans m.

Lemma match_shorter prev s span rest :
  m prev s = Some (span, rest) -> length rest < length s.
Proof.
  intros H. destruct (Hm _ _ _ _ H) as [-> (body & ->)].
  rewrite length_app. simpl. lia.
Qed.

Lemma no_match_nil prev : m prev [] = None.
Proof.
  destruct (m prev []) as [[span rest] |] eqn:E; [| reflexivity].
  apply match_shorter in E. simpl in E. lia.
Qed.

Lemma no_match_plain prev (c : ascii) (s : text) :
  c <> dollar -> m prev (c :: s) = None.
Proof.
  intros Hc. destruct (m prev (c :: s)) as [[span rest] |] eqn:E;
    [| reflexivity].
  destruct (Hm _ _ _ _ E) as [Hs (body & ->)]. simpl in Hs. congruence.
Qed.

Lemma span_ends_with_dollar prev s span rest :
  m prev s = Some (span, rest) -> ends_with_dollar span = true.
Proof.
  intros H. destruct (Hm _ _ _ _ H) as [_ (body & ->)].
  unfold ends_with_dollar.
  change (dollar :: body ++ [dollar]) with ((dollar :: body) ++ [dollar]).
  rewrite rev_app_distr. reflexivity.
Qed.

Lemma scan_loop_fuel : forall fuel1 fuel2 prev s,
  length s < fuel1 -> length s < fuel2 ->
  scan_loop fuel1 m prev s = scan_loop fuel2 m prev s.
Proof.
  induction fuel1 as [| fuel1 IH]; intros fuel2 prev s H1 H2; [lia |].
  destruct fuel2 as [| fuel2]; [lia |]. simpl.
  destruct (m prev s) as [[span rest] |] eqn:E.
  - apply match_shorter in E. rewrite (IH fuel2) by lia. reflexivity.
  - destruct s as [| c s']; [reflexivity |].
    simpl in H1, H2. rewrite (IH fuel2) by lia. reflexivity.
Qed.

Lemma scan_nil prev : scan m prev [] = [].
Proof. unfold scan. simpl. now rewrite no_match_nil. Qed.

Lemma scan_match prev s span rest :
  m prev s = Some (span, rest) ->
  scan m prev s = Span span :: scan m true rest.
Proof.
  intros E. unfold scan. cbn [scan_loop]. rewrite E.
  rewrite (span_ends_with_dollar _ _ _ _ E).
  apply match_shorter in E.
  now rewrite (scan_loop_fuel (length s) (S (length rest))) by lia.
Qed.

Lemma scan_skip prev (c : ascii) (s : text) :
  m prev (c :: s) = None ->
  scan m prev (c :: s) = Chr c :: scan m (is_dollar c) s.
Proof. intros E. unfold scan. cbn [scan_loop length]. now rewrite E. Qed.

(** A run of characters without a dollar is passed over. *)
Lemma scan_plain (u : text) :
  ~ In dollar u -> u <> [] ->
  forall prev s, scan m prev (u ++ s) = map Chr u ++ scan m false s.
Proof.
  induction u as [| c u IH]; intros Hu Hne prev s; [congruence |].
  assert (Hc : c <> dollar) by (intros ->; apply Hu; now left).
  simpl app. rewrite scan_skip by now apply no_match_plain.
  simpl. f_equal.
  assert (Hd : is_dollar c = false).
  { unfold is_dollar. now apply Ascii.eqb_neq. }
  rewrite Hd. destruct u as [| c' u']; [reflexivity |].
  apply IH; [| discriminate]. intros H. apply Hu. now right.
Qed.

(** [sub_loop] is the scan with the spans numbered and recorded. *)
Lemma sub_loop_scan (prefix : text) : forall fuel prev s ph n,
  sub_loop fuel m prefix prev s (ph, n)
  = (cur (number prefix n (scan_loop fuel m prev s)),
     (fold_left add_entry (toks (number prefix n (scan_loop fuel m prev s))) ph,
      n + length (spans (scan_loop fuel m prev s)))).
Proof.
  induction fuel as [| fuel IH]; intros prev s ph n.
  - cbn [sub_loop scan_loop].
    rewrite number_chars, cur_lits, toks_lits, spans_chars.
    simpl. now rewrite Nat.add_0_r.
  - cbn [sub_loop scan_loop].
    destruct (m prev s) as [[span rest] |].
    + cbn [fst snd]. rewrite IH. cbn [number cur flat_map toks spans length].
      unfold add_entry at 2. cbn [fst snd fold_left app].
      unfold cur, toks. f_equal. f_equal. lia.
    + destruct s as [| c s']; [simpl; now rewrite Nat.add_0_r |].
      rewrite IH. reflexivity.
Qed.

Lemma scan_concat : forall n prev s,
  length s <= n ->
  org (number [] 0 (scan m prev s)) = s.
Proof.
  induction n as [| n IH]; intros prev s Hn.
  - destruct s; [| simpl in Hn; lia]. now rewrite scan_nil.
  - destruct (m prev s) as [[span rest] |] eqn:E.
    + rewrite (scan_match _ _ _ _ E). pose proof (match_shorter _ _ _ _ E).
      destruct (Hm _ _ _ _ E) as [-> _]. simpl. f_equal.
      rewrite (org_number _ _ _ [] 0). apply IH. lia.
    + destruct s as [| c s']; [now rewrite scan_nil |].
      rewrite (scan_skip _ _ _ E). simpl. f_equal. apply IH. simpl in Hn. lia.
Qed.

End Pass.

(** ** A pass over a text that already holds tokens *)

Lemma key_like_no_dollar (k : text) : key_like k -> ~ In dollar k.
Proof.
  intros (tail & -> & _ & Hd) [H | H]; [discriminate | now apply Hd].
Qed.

Lemma number_app_chars (prefix : text) (n : nat) (u : text) (ps : list piece) :
  number prefix n (map Chr u ++ ps) = map Lit u ++ number prefix n ps.
Proof. induction u as [| c u IH]; simpl; [reflexivity | now rewrite IH]. Qed.

Lemma spans_app_chars (u : text) (ps : list piece) :
  spans (map Chr u ++ ps) = spans ps.
Proof. induction u as [| c u IH]; simpl; [reflexivity | exact IH]. Qed.

(** A span that ends with a dollar and holds none of the keys lies within
    the plain characters at the head of the text. *)
Lemma span_in_lits : forall body its rest,
  (forall k o, In (Tok k o) its ->
     key_like k /\ occursb k (body ++ [dollar]) = false) ->
  cur its = (body ++ [dollar]) ++ rest ->
  exists its_r,
    its = map Lit (body ++ [dollar]) ++ its_r /\ cur its_r = rest.
Proof.
  assert (Htok : forall k o its span rest,
            key_like k -> occursb k span = false ->
            (exists b, span = b ++ [dollar]) ->
            cur (Tok k o :: its) = span ++ rest -> False).
  { intros k o its span rest Hk Hocc (b & Hb) Hcur.
    change (cur (Tok k o :: its)) with (k ++ cur its) in Hcur.
    apply app_eq_app in Hcur as (l & [[Hk1 Hr] | [Hs Hc]]).
    - apply (key_like_no_dollar k Hk). rewrite Hk1, Hb.
      rewrite <- app_assoc. apply in_or_app. right. now left.
    - rewrite Hs in Hocc. now rewrite occursb_here in Hocc. }
  induction body as [| c body IH]; intros its rest Hkeys Hcur.
  - destruct its as [| [c' | k o] its].
    + discriminate.
    + simpl in Hcur. inversion Hcur; subst. exists its. auto.
    + exfalso. destruct (Hkeys k o (or_introl eq_refl)) as [Hk Hocc].
      apply (Htok k o its ([] ++ [dollar]) rest Hk Hocc); [now exists [] | assumption].
  - destruct its as [| [c' | k o] its].
    + discriminate.
    + simpl in Hcur. inversion Hcur; subst c'.
      destruct (IH its rest) as (its_r & Hits & Hr).
      * intros k o H. destruct (Hkeys k o (or_intror H)) as [Hk Hocc].
        split; [assumption |].
        change ((c :: body) ++ [dollar]) with ([c] ++ body ++ [dollar]) in Hocc.
        now apply occursb_app_r in Hocc.
      * assumption.
      * exists its_r. split; [| assumption]. simpl. now rewrite Hits.
    + exfalso. destruct (Hkeys k o (or_introl eq_refl)) as [Hk Hocc].
      apply (Htok k o its ((c :: body) ++ [dollar]) rest Hk Hocc);
        [now exists (c :: body) | assumption].
Qed.

Section Items.

Variable m : matcher.
Hypothesis Hm : dollar_spans m.
Variable prefix : text.

(** The pass sees the tokens already in the text as plain characters.
    When none of its spans holds one of their keys, its result is the
    text with the new tokens added and the old ones left in place. *)
Lemma scan_items : forall n its prev c0,
  length (cur its) <= n ->
  (forall k o, In (Tok k o) its -> key_like k) ->
  (forall sp, In sp (spans (scan m prev (cur its))) ->
     forall k o, In (Tok k o) its -> occursb k sp = false) ->
  exists its',
    cur its' = cur (number prefix c0 (scan m prev (cur its)))
    /\ org its' = org its
    /\ forall x, In x (toks its') <->
                 In x (toks its)
                 \/ In x (toks (number prefix c0 (scan m prev (cur its)))).
Proof.
  induction n as [| n IH]; intros its prev c0 Hn Hkeys Hfree.
  - destruct its as [| [c | k o] its].
    + exists []. rewrite (scan_nil m Hm). simpl. repeat split; tauto.
    + simpl in Hn. lia.
    + exfalso. destruct (Hkeys k o (or_introl eq_refl)) as (tail & -> & _).
      simpl in Hn. lia.
  - destruct its as [| [c | k o] its].
    + exists []. rewrite (scan_nil m Hm). simpl. repeat split; tauto.
    + change (cur (Lit c :: its)) with (c :: cur its) in *.
      destruct (m prev (c :: cur its)) as [[span rest] |] eqn:E.
      * rewrite (scan_match m Hm _ _ _ _ E) in *.
        pose proof (match_shorter m Hm _ _ _ _ E) as Hlt.
        destruct (Hm _ _ _ _ E) as [Hs (body & Hspan)].
        change (dollar :: body ++ [dollar])
          with ((dollar :: body) ++ [dollar]) in Hspan.
        destruct (span_in_lits (dollar :: body) (Lit c :: its) rest)
          as (its_r & Hits & Hr).
        { intros k o H. split; [now apply (Hkeys k o) |].
          rewrite <- Hspan. apply (Hfree span (or_introl eq_refl) k o H). }
        { change (cur (Lit c :: its)) with (c :: cur its).
          now rewrite <- Hspan. }
        rewrite <- Hspan in Hits.
        destruct (IH its_r true (S c0)) as (its' & Hcur & Horg & Htoks).
        { rewrite Hr. simpl in Hn, Hlt. lia. }
        { intros k o H. apply (Hkeys k o). rewrite Hits.
          apply in_or_app. now right. }
        { rewrite Hr. intros sp Hsp k o H.
          apply (Hfree sp (or_intror Hsp) k o). rewrite Hits.
          apply in_or_app. now right. }
        rewrite Hr in Hcur, Htoks.
        exists (Tok (prefix ++ format_04d c0) span :: its'). repeat split.
        -- simpl. now rewrite Hcur.
        -- rewrite Hits, org_app, org_lits. simpl. now rewrite Horg.
        -- rewrite Hits, toks_app, toks_lits. simpl.
           intros [Hx | Hx]; [right; now left |].
           apply Htoks in Hx as [Hx | Hx]; [now left | right; now right].
        -- rewrite Hits, toks_app, toks_lits. simpl.
           intros [Hx | [Hx | Hx]].
           ++ right. apply Htoks. now left.
           ++ now left.
           ++ right. apply Htoks. now right.
      * rewrite (scan_skip m _ _ _ E) in *.
        destruct (IH its (is_dollar c) c0) as (its' & Hcur & Horg & Htoks).
        { simpl in Hn. lia. }
        { intros k o H. apply (Hkeys k o). now right. }
        { intros sp Hsp k o H. apply (Hfree sp Hsp k o). now right. }
        exists (Lit c :: its'). repeat split.
        -- simpl. now rewrite Hcur.
        -- simpl. now rewrite Horg.
        -- simpl. apply Htoks.
        -- simpl. apply Htoks.
    + change (cur (Tok k o :: its)) with (k ++ cur its) in *.
      pose proof (Hkeys k o (or_introl eq_refl)) as Hk.
      pose proof (key_like_no_dollar k Hk) as Hkd.
      pose proof (key_like_nonempty k Hk) as Hkn.
      rewrite (scan_plain m Hm k Hkd Hkn) in *.
      rewrite spans_app_chars in Hfree.
      destruct (IH its false c0) as (its' & Hcur & Horg & Htoks).
      { rewrite length_app in Hn. destruct k; [congruence | simpl in Hn; lia]. }
      { intros k1 o1 H. apply (Hkeys k1 o1). now right. }
      { intros sp Hsp k1 o1 H. apply (Hfree sp Hsp k1 o1). now right. }
      exists (Tok k o :: its'). rewrite number_app_chars. repeat split.
      -- rewrite cur_app, cur_lits. simpl. now rewrite Hcur.
      -- simpl. now rewrite Horg.
      -- rewrite toks_app, toks_lits. simpl.
         intros [Hx | Hx]; [left; now left |].
         apply Htoks in Hx as [Hx | Hx]; [left; now right | now right].
      -- rewrite toks_app, toks_lits. simpl.
         intros [[Hx | Hx] | Hx].
         ++ now left.
         ++ right. apply Htoks. now left.
         ++ right. apply Htoks. now right.
Qed.

End Items.

(** ** The table of [protect_math] *)

Lemma in_toks_number (prefix : text) : forall ps n k o,
  In (k, o) (toks (number prefix n ps)) ->
  exists i, n <= i < n + length (spans ps)
            /\ k = prefix ++ format_04d i /\ In o (spans ps).
Proof.
  induction ps as [| [c | sp] ps IH]; intros n k o H; simpl in H.
  - destruct H.
  - destruct (IH n k o H) as (i & Hi & Hk & Ho). exists i. simpl. auto.
  - destruct H as [H | H].
    + inversion H; subst. exists n. simpl. split; [lia | auto].
    + destruct (IH (S n) k o H) as (i & Hi & Hk & Ho). exists i. simpl.
      split; [lia | auto].
Qed.

Lemma span_has_token (prefix : text) : forall ps n sp,
  In sp (spans ps) -> exists k, In (k, sp) (toks (number prefix n ps)).
Proof.
  induction ps as [| [c | sp'] ps IH]; intros n sp H; simpl in H.
  - destruct H.
  - destruct (IH n sp H) as (k & Hk). exists k. exact Hk.
  - destruct H as [-> | H].
    + exists (prefix ++ format_04d n). now left.
    + destruct (IH (S n) sp H) as (k & Hk). exists k. now right.
Qed.

Lemma toks_number_nodup (prefix : text) : forall ps n,
  NoDup (map fst (toks (number prefix n ps))).
Proof.
  induction ps as [| [c | sp] ps IH]; intros n; simpl.
  - constructor.
  - apply IH.
  - constructor; [| apply IH].
    intros H. apply in_map_iff in H as ([k o] & Hk & Hin). simpl in Hk.
    apply in_toks_number in Hin as (i & Hi & -> & _).
    apply app_inv_head in Hk. apply format_04d_inj in Hk. lia.
Qed.

Lemma nodup_functional {A B} (l : list (A * B)) (k : A) (v v' : B) :
  NoDup (map fst l) -> In (k, v) l -> In (k, v') l -> v = v'.
Proof.
  induction l as [| [k0 v0] l IH]; intros Hnd H1 H2; [destruct H1 |].
  simpl in Hnd. inversion Hnd as [| ? ? Hnot Hnd']; subst.
  destruct H1 as [H1 | H1], H2 as [H2 | H2].
  - congruence.
  - inversion H1; subst. exfalso. apply Hnot.
    apply in_map_iff. now exists (k, v').
  - inversion H2; subst. exfalso. apply Hnot.
    apply in_map_iff. now exists (k, v).
  - now apply IH.
Qed.

Lemma fold_add_fresh : forall (l ph : placeholders),
  NoDup (map fst (ph ++ l)) -> fold_left add_entry l ph = ph ++ l.
Proof.
  induction l as [| [k o] l IH]; intros ph Hnd; simpl.
  - now rewrite app_nil_r.
  - unfold add_entry at 2. simpl.
    rewrite (set_fresh _ _ text_eqb text_eqb_spec).
    + rewrite IH; rewrite <- app_assoc; [reflexivity | exact Hnd].
    + rewrite map_app in Hnd. simpl in Hnd.
      apply NoDup_remove_2 in Hnd. intros H. apply Hnd.
      apply in_or_app. now left.
Qed.

(** The result of [protect_math] in terms of the two scans. *)
Lemma protect_math_run_scans (md_text : text) :
  let its1 := number MATHBLOCK 0 (scan match_block false md_text) in
  let c1 := length (spans (scan match_block false md_text)) in
  let ps2 := scan match_inline false (cur its1) in
  let its2 := number MATHINLINE c1 ps2 in
  protect_math_run md_text
  = (cur its2,
     (fold_left add_entry (toks its2) (fold_left add_entry (toks its1) []),
      c1 + length (spans ps2))).
Proof.
  intros its1 c1 ps2 its2. unfold protect_math_run, re_sub.
  rewrite sub_loop_scan. fold (scan match_block false md_text).
  fold its1. change (0 + length (spans (scan match_block false md_text)))
    with c1.
  rewrite sub_loop_scan. reflexivity.
Qed.

Lemma table_nodup (ps1 ps2 : list piece) (c1 : nat) :
  NoDup (map fst (toks (number MATHBLOCK 0 ps1)
                  ++ toks (number MATHINLINE c1 ps2))).
Proof.
  rewrite map_app. apply NoDup_app.
  - apply toks_number_nodup.
  - apply toks_number_nodup.
  - intros k H1 H2.
    apply in_map_iff in H1 as ([k1 o1] & E1 & H1).
    apply in_map_iff in H2 as ([k2 o2] & E2 & H2). simpl in E1, E2. subst.
    apply in_toks_number in H1 as (i & _ & -> & _).
    apply in_toks_number in H2 as (j & _ & E & _).
    apply (apart_neq _ _ (block_inline_apart i j)). exact E.
Qed.

(** C1, as amended. [restore_math] undoes [protect_math] on every text
    with at most ten thousand math spans in which no issued token already
    occurs, and in which no captured span holds an issued token (no inline
    span encloses a block span). *)
Theorem protect_restore_roundtrip (md_text : text) :
  math_spans md_text <= 10000 ->
  fresh_tokens md_text = true ->
  restore_math (fst (protect_math md_text)) (snd (protect_math md_text))
  = md_text.
Proof.
  intros Hcount Hfresh.
  pose proof (protect_math_run_scans md_text) as Hrun. cbv zeta in Hrun.
  set (ps1 := scan match_block false md_text) in *.
  set (its1 := number MATHBLOCK 0 ps1) in *.
  set (c1 := length (spans ps1)) in *.
  set (ps2 := scan match_inline false (cur its1)) in *.
  set (its2 := number MATHINLINE c1 ps2) in *.
  assert (Htable : fold_left add_entry (toks its2)
                     (fold_left add_entry (toks its1) [])
                   = toks its1 ++ toks its2).
  { rewrite (fold_add_fresh (toks its1) []).
    - apply fold_add_fresh. apply table_nodup.
    - simpl. apply toks_number_nodup. }
  rewrite Htable in Hrun.
  unfold math_spans in Hcount. unfold fresh_tokens in Hfresh.
  unfold protect_math in *. rewrite Hrun in *. cbn [fst snd] in *.
  rewrite forallb_forall in Hfresh.
  assert (Hfree : forall k o, In (k, o) (toks its1 ++ toks its2) ->
            occursb k md_text = false
            /\ forall k' o', In (k', o') (toks its1 ++ toks its2) ->
                             occursb k o' = false).
  { intros k o Hin. specialize (Hfresh (k, o) Hin). cbn [fst snd] in Hfresh.
    apply andb_prop in Hfresh as [H1 H2]. split.
    - now apply negb_true_iff in H1.
    - intros k' o' Hin'. rewrite forallb_forall in H2.
      specialize (H2 (k', o') Hin'). now apply negb_true_iff in H2. }
  assert (Horg1 : org its1 = md_text).
  { unfold its1. rewrite (org_number _ _ _ [] 0).
    apply (scan_concat match_block match_block_dollar (length md_text)).
    apply le_n. }
  assert (Hkeys1 : forall k o, In (Tok k o) its1 -> key_like k).
  { intros k o H. apply in_toks in H.
    apply in_toks_number in H as (i & _ & -> & _). apply block_key_like. }
  destruct (scan_items match_inline match_inline_dollar MATHINLINE
              (length (cur its1)) its1 false c1 (le_n _) Hkeys1)
    as (its & Hcur & Horg & Htoks).
  { fold ps2. intros sp Hsp k o H. apply in_toks in H.
    destruct (span_has_token MATHINLINE ps2 c1 sp Hsp) as (k2 & Hk2).
    destruct (Hfree k o) as [_ Hin]; [apply in_or_app; now left |].
    apply (Hin k2 sp). apply in_or_app. now right. }
  fold ps2 in Hcur, Htoks. fold its2 in Hcur, Htoks.
  rewrite <- Hcur, <- Horg1, <- Horg.
  apply restore_items.
  - intros k o Hin. split.
    + apply in_app_or in Hin as [Hin | Hin];
        apply in_toks_number in Hin as (i & _ & -> & _);
        [apply block_key_like | apply inline_key_like].
    + rewrite Horg, Horg1. now apply (Hfree k o).
  - intros k o k' o' Hin Hin'.
    destruct (text_eqb_spec k' k) as [-> | Hne].
    + left. split; [reflexivity |].
      apply (nodup_functional _ k o' o (table_nodup ps1 ps2 c1) Hin' Hin).
    + right.
      apply in_app_or in Hin as [Hin | Hin];
        apply in_app_or in Hin' as [Hin' | Hin'];
        apply in_toks_number in Hin as (i & Hi & -> & _);
        apply in_toks_number in Hin' as (j & Hj & -> & _).
      * apply same_kind_apart; [lia | lia | congruence].
      * apply block_inline_apart.
      * apply inline_block_apart.
      * apply same_kind_apart; [lia | lia | congruence].
  - intros k o H. apply in_toks in H. apply Htoks in H.
    apply in_or_app. exact H.
Qed.

Lemma protect_restore_roundtrip_witness :
  restore_math
    (fst (protect_math (lit "let $x$ and $$y = 1$$$$a + b$$$z$ cost $5")))
    (snd (protect_math (lit "let $x$ and $$y = 1$$$$a + b$$$z$ cost $5")))
  = lit "let $x$ and $$y = 1$$$$a + b$$$z$ cost $5".
Proof.
  apply (protect_restore_roundtrip
           (lit "let $x$ and $$y = 1$$$$a + b$$$z$ cost $5")).
  - apply Nat.leb_le. vm_compute. reflexivity.
  - vm_compute. reflexivity.
Defined.

(** C1 as the specification states it fails: a text that already holds
    the letters of a token gets the span of that token twice. *)
Lemma protect_restore_literal_token_cex :
  restore_math (fst (protect_math (lit "MATHBLOCK0000 is $$x$$")))
               (snd (protect_math (lit "MATHBLOCK0000 is $$x$$")))
  <> lit "MATHBLOCK0000 is $$x$$".
Proof. vm_compute. discriminate. Qed.

(** What comes back instead. *)
Example protect_restore_literal_token :
  restore_math (fst (protect_math (lit "MATHBLOCK0000 is $$x$$")))
               (snd (protect_math (lit "MATHBLOCK0000 is $$x$$")))
  = lit "$$x$$ is $$x$$".
Proof. vm_compute. reflexivity. Qed.

(** An inline span that encloses a block span is recorded with the token
    of the block span inside, and that token is looked for before the
    inline span is put back: the token stays. *)
Example protect_restore_nested :
  restore_math (fst (protect_math (lit "$a $$b$$ c$")))
               (snd (protect_math (lit "$a $$b$$ c$")))
  = lit "$a MATHBLOCK0000 c$".
Proof. vm_compute. reflexivity. Qed.

(** From ten thousand spans on a key has five digits, and the key of
    span 1000 is the beginning of the key of span 10000. *)
Example key_1000_begins_key_10000 :
  strip_prefix (MATHBLOCK ++ format_04d 1000) (MATHBLOCK ++ format_04d 10000)
  = Some (lit "0").
Proof. vm_compute. reflexivity. Qed.

(* ================================================================== *)
(** * More on the codec *)
(* ================================================================== *)

(** ** Texts without a complete span *)

Lemma count_dollars_app (a b : text) :
  count_dollars (a ++ b) = count_dollars a + count_dollars b.
Proof. unfold count_dollars. now rewrite filter_app, length_app. Qed.

Lemma count_dollars_cons (c : ascii) (s : text) :
  count_dollars s <= count_dollars (c :: s).
Proof.
  unfold count_dollars. simpl. destruct (is_dollar c); simpl; lia.
Qed.

Lemma scan_few_dollars (m : matcher) :
  dollar_spans m ->
  forall s prev, count_dollars s <= 1 -> scan m prev s = map Chr s.
Proof.
  intros Hm. induction s as [| c s IH]; intros prev Hs.
  - now apply scan_nil.
  - assert (E : m prev (c :: s) = None).
    { destruct (m prev (c :: s)) as [[span rest] |] eqn:E; [| reflexivity].
      exfalso. destruct (Hm _ _ _ _ E) as [Hsplit (body & ->)].
      rewrite Hsplit in Hs.
      change (dollar :: body ++ [dollar])
        with ([dollar] ++ body ++ [dollar]) in Hs.
      rewrite !count_dollars_app in Hs.
      change (count_dollars [dollar]) with 1 in Hs. lia. }
    rewrite (scan_skip m _ _ _ E). simpl. f_equal. apply IH.
    pose proof (count_dollars_cons c s). lia.
Qed.

(** X1. A text with fewer than two dollars has no span: [protect_math]
    returns it unchanged with an empty table, and [md_to_html] is the
    markdown converter alone. *)
Theorem protect_math_few_dollars (md_text : text) :
  count_dollars md_text <= 1 ->
  protect_math md_text = (md_text, [])
  /\ forall markdown, md_to_html markdown md_text = markdown md_text.
Proof.
  intros Hfew.
  assert (E : protect_math md_text = (md_text, [])).
  { unfold protect_math. rewrite protect_math_run_scans. cbv zeta.
    rewrite (scan_few_dollars match_block match_block_dollar _ _ Hfew).
    rewrite number_chars, cur_lits, toks_lits, spans_chars.
    rewrite (scan_few_dollars match_inline match_inline_dollar _ _ Hfew).
    rewrite number_chars, cur_lits, toks_lits. reflexivity. }
  split; [exact E |].
  intros markdown. unfold md_to_html. rewrite E. reflexivity.
Qed.

(** ** The table *)

Lemma length_toks_number (prefix : text) : forall ps n,
  length (toks (number prefix n ps)) = length (spans ps).
Proof.
  induction ps as [| [c | sp] ps IH]; intros n; simpl; auto.
Qed.

Lemma protect_math_table (md_text : text) :
  snd (protect_math md_text)
  = toks (number MATHBLOCK 0 (scan match_block false md_text))
    ++ toks (number MATHINLINE
               (length (spans (scan match_block false md_text)))
               (scan match_inline false
                  (cur (number MATHBLOCK 0 (scan match_block false md_text))))).
Proof.
  unfold protect_math. rewrite protect_math_run_scans. cbv zeta. cbn [fst snd].
  rewrite (fold_add_fresh (toks _) []).
  - apply fold_add_fresh. apply table_nodup.
  - simpl. apply toks_number_nodup.
Qed.

Lemma math_spans_scans (md_text : text) :
  math_spans md_text
  = length (spans (scan match_block false md_text))
    + length (spans (scan match_inline false
                       (cur (number MATHBLOCK 0
                               (scan match_block false md_text))))).
Proof. unfold math_spans. now rewrite protect_math_run_scans. Qed.

(** X2. No captured span is lost in the table: the keys are pairwise
    different, whatever the number of spans, and the table has one entry
    per span. *)
Theorem protect_math_table_keys (md_text : text) :
  NoDup (Dict.keys (snd (protect_math md_text)))
  /\ length (snd (protect_math md_text)) = math_spans md_text.
Proof.
  rewrite protect_math_table, math_spans_scans. split.
  - apply table_nodup.
  - now rewrite length_app, !length_toks_number.
Qed.

Lemma spans_scan (m : matcher) (P : text -> Prop) :
  dollar_spans m ->
  (forall prev s span rest, m prev s = Some (span, rest) -> P span) ->
  forall n s prev, length s <= n -> Forall P (spans (scan m prev s)).
Proof.
  intros Hm HP. induction n as [| n IH]; intros s prev Hn.
  - destruct s; [| simpl in Hn; lia]. rewrite (scan_nil m Hm). constructor.
  - destruct (m prev s) as [[span rest] |] eqn:E.
    + rewrite (scan_match m Hm _ _ _ _ E). simpl. constructor.
      * exact (HP _ _ _ _ E).
      * apply IH. pose proof (match_shorter m Hm _ _ _ _ E). lia.
    + destruct s as [| c s']; [rewrite (scan_nil m Hm); constructor |].
      rewrite (scan_skip m _ _ _ E). simpl. apply IH. simpl in Hn. lia.
Qed.

Lemma match_block_shaped prev s span rest :
  match_block prev s = Some (span, rest) -> block_shaped span.
Proof.
  unfold match_block.
  destruct s as [| c1 [| c2 [| c3 s']]]; try discriminate.
  destruct (is_dollar c1 && is_dollar c2) eqn:E; [| discriminate].
  destruct (find_close_block s') as [[body r] |]; [| discriminate].
  intros H. inversion H; subst. apply andb_prop in E as [H1 H2].
  apply is_dollar_eq in H1, H2. subst.
  exists (c3 :: body). split; [discriminate | reflexivity].
Qed.

Lemma find_close_inline_line : forall s body rest,
  find_close_inline s = Some (body, rest) -> ~ In newline body.
Proof.
  induction s as [| c s IH]; intros body rest H; [discriminate |].
  cbn [find_close_inline] in H.
  destruct (is_dollar c
            && match s with d :: _ => negb (is_dollar d) | [] => true end).
  - inversion H; subst. intros [].
  - destruct (is_newline c) eqn:En; [discriminate |].
    destruct (find_close_inline s) as [[b r] |] eqn:E'; [| discriminate].
    inversion H; subst. intros [Hc | Hin].
    + subst c. unfold is_newline in En. now rewrite Ascii.eqb_refl in En.
    + now apply (IH b rest).
Qed.

Lemma match_inline_shaped prev s span rest :
  match_inline prev s = Some (span, rest) -> inline_shaped span.
Proof.
  unfold match_inline. destruct prev; [discriminate |].
  destruct s as [| c1 [| c2 s']]; try discriminate.
  destruct (is_dollar c1 && negb (is_dollar c2) && negb (is_newline c2)) eqn:E;
    [| discriminate].
  destruct (find_close_inline s') as [[body r] |] eqn:Ef; [| discriminate].
  intros H. inversion H; subst.
  apply andb_prop in E as [E Hn]. apply andb_prop in E as [H1 H2].
  apply is_dollar_eq in H1. subst c1.
  exists c2, body. split; [reflexivity |]. split.
  - intros ->. unfold is_dollar in H2. now rewrite Ascii.eqb_refl in H2.
  - intros [Hc | Hin].
    + subst c2. unfold is_newline in Hn. now rewrite Ascii.eqb_refl in Hn.
    + now apply (find_close_inline_line _ _ _ Ef).
Qed.

(** X3. What the table holds: under a block key a span of two dollars, a
    non-empty body and two dollars; under an inline key a span between
    single dollars that holds no line break and does not begin with a
    second dollar.  The number in the key is below the number of spans. *)
Theorem protect_math_entries (md_text k o : text) :
  In (k, o) (snd (protect_math md_text)) ->
  (exists n, n < math_spans md_text
             /\ k = MATHBLOCK ++ format_04d n /\ block_shaped o)
  \/ (exists n, n < math_spans md_text
                /\ k = MATHINLINE ++ format_04d n /\ inline_shaped o).
Proof.
  rewrite protect_math_table, math_spans_scans. intros H.
  apply in_app_or in H as [H | H];
    apply in_toks_number in H as (n & Hn & -> & Ho).
  - left. exists n. repeat split; [lia |].
    pose proof (spans_scan match_block block_shaped match_block_dollar
                  match_block_shaped (length md_text) md_text false (le_n _))
      as Hall.
    rewrite Forall_forall in Hall. now apply Hall.
  - right. exists n. repeat split; [lia |].
    set (text1 := cur (number MATHBLOCK 0 (scan match_block false md_text)))
      in *.
    pose proof (spans_scan match_inline inline_shaped match_inline_dollar
                  match_inline_shaped (length text1) text1 false (le_n _))
      as Hall.
    rewrite Forall_forall in Hall. apply Hall. exact Ho.
Qed.

(** ** Keys that do not occur *)

Lemma replace_absent (old new : text) :
  old <> [] ->
  forall s, occursb old s = false -> replace old new s = s.
Proof.
  intros Hold. induction s as [| c s IH]; intros H.
  - now apply replace_nil.
  - apply occursb_cons in H as [Hhere Hrest].
    rewrite replace_skip by assumption. f_equal. now apply IH.
Qed.

(** X4. [restore_math] leaves alone a text in which no key of the table
    occurs, whatever the table holds. *)
Theorem restore_math_absent_keys (html_text : text) (ph : placeholders) :
  (forall k o, In (k, o) ph -> k <> [] /\ occursb k html_text = false) ->
  restore_math html_text ph = html_text.
Proof.
  induction ph as [| [k o] ph IH]; intros H; [reflexivity |].
  simpl. destruct (H k o (or_introl eq_refl)) as [Hk Hocc].
  rewrite (replace_absent k o Hk _ Hocc).
  apply IH. intros k' o' Hin. apply (H k' o'). now right.
Qed.

(** ** Where the dollars go *)

Lemma count_dollars_absent (k : text) : ~ In dollar k -> count_dollars k = 0.
Proof.
  unfold count_dollars. induction k as [| c k IH]; intros H; [reflexivity |].
  simpl. destruct (is_dollar c) eqn:E.
  - exfalso. apply H. left. exact (is_dollar_eq c E).
  - apply IH. intros Hin. apply H. now right.
Qed.

Lemma count_dollars_items : forall its,
  (forall k o, In (k, o) (toks its) -> count_dollars k = 0) ->
  count_dollars (org its)
  = count_dollars (cur its)
    + list_sum (map (fun ko => count_dollars (snd ko)) (toks its)).
Proof.
  induction its as [| [c | k o] its IH]; intros Hk; [reflexivity | |].
  - change (org (Lit c :: its)) with ([c] ++ org its).
    change (cur (Lit c :: its)) with ([c] ++ cur its).
    change (toks (Lit c :: its)) with (toks its).
    rewrite !count_dollars_app, IH by exact Hk. lia.
  - change (org (Tok k o :: its)) with (o ++ org its).
    change (cur (Tok k o :: its)) with (k ++ cur its).
    change (toks (Tok k o :: its)) with ((k, o) :: toks its) in *.
    rewrite !count_dollars_app, IH.
    + rewrite (Hk k o (or_introl eq_refl)).
      cbn [map snd].
      change (list_sum (?a :: ?l)) with (a + list_sum l). lia.
    + intros k' o' H. apply (Hk k' o'). now right.
Qed.

(** X5. [protect_math] neither drops nor adds a dollar: the dollars of
    the text are those left in the protected text together with those of
    the spans in the table. *)
Theorem protect_math_dollars (md_text : text) :
  count_dollars md_text
  = count_dollars (fst (protect_math md_text))
    + list_sum (map (fun ko => count_dollars (snd ko))
                    (snd (protect_math md_text))).
Proof.
  rewrite protect_math_table.
  unfold protect_math at 1. rewrite protect_math_run_scans. cbv zeta.
  cbn [fst].
  set (its1 := number MATHBLOCK 0 (scan match_block false md_text)).
  set (its2 := number MATHINLINE
                 (length (spans (scan match_block false md_text)))
                 (scan match_inline false (cur its1))).
  assert (H1 : org its1 = md_text).
  { unfold its1. rewrite (org_number _ MATHBLOCK 0 [] 0).
    apply (scan_concat match_block match_block_dollar (length md_text)).
    apply le_n. }
  assert (H2 : org its2 = cur its1).
  { unfold its2. rewrite (org_number _ MATHINLINE _ [] 0).
    apply (scan_concat match_inline match_inline_dollar (length (cur its1))).
    apply le_n. }
  rewrite map_app, list_sum_app.
  rewrite <- H1 at 1. rewrite (count_dollars_items its1).
  - rewrite <- H2. rewrite (count_dollars_items its2); [lia |].
    intros k o H. apply in_toks_number in H as (n & _ & -> & _).
    apply count_dollars_absent, key_like_no_dollar, inline_key_like.
  - intros k o H. apply in_toks_number in H as (n & _ & -> & _).
    apply count_dollars_absent, key_like_no_dollar, block_key_like.
Qed.

(* ================================================================== *)
(** * More on the translation merger *)
(* ================================================================== *)

(** ** [str.strip] *)

Lemma drop_while_head (f : ascii -> bool) : forall s c r,
  drop_while f s = c :: r -> f c = false.
Proof.
  induction s as [| x s IH]; intros c r H; simpl in H; [discriminate |].
  destruct (f x) eqn:E; [now apply (IH c r) |]. inversion H; subst. exact E.
Qed.

Lemma drop_while_fixed (f : ascii -> bool) (c : ascii) (s : text) :
  f c = false -> drop_while f (c :: s) = c :: s.
Proof. intros H. simpl. now rewrite H. Qed.

Lemma forallb_rev (f : ascii -> bool) (s : text) :
  forallb f (rev s) = forallb f s.
Proof.
  induction s as [| c s IH]; simpl; [reflexivity |].
  rewrite forallb_app, IH. simpl. rewrite andb_true_r. apply andb_comm.
Qed.

Lemma strip_trimmed (s : text) : trimmed (strip s) = true.
Proof.
  unfold strip, lstrip, rstrip, trimmed.
  set (x := drop_while is_space s).
  pose proof (take_drop_while is_space (rev x)) as Hsplit.
  set (y := drop_while is_space (rev x)) in *.
  apply andb_true_intro. split.
  - destruct (rev y) as [| c r] eqn:Ey; [reflexivity |].
    assert (Hx : x = (c :: r) ++ rev (take_while is_space (rev x))).
    { rewrite <- Ey, <- rev_app_distr, Hsplit. now rewrite rev_involutive. }
    simpl in Hx. unfold x in Hx.
    now rewrite (drop_while_head is_space s c _ Hx).
  - rewrite rev_involutive. destruct y as [| c r] eqn:Ey; [reflexivity |].
    unfold y in Ey. now rewrite (drop_while_head is_space _ c r Ey).
Qed.

Lemma strip_padded (w1 c w2 : text) :
  forallb is_space w1 = true -> forallb is_space w2 = true ->
  trimmed c = true ->
  strip (w1 ++ c ++ w2) = c.
Proof.
  intros H1 H2 Hc. unfold strip, lstrip, rstrip.
  rewrite drop_while_all by assumption.
  unfold trimmed in Hc. apply andb_prop in Hc as [Hhead Hlast].
  destruct c as [| x c'].
  - simpl. rewrite <- (app_nil_r w2) at 1.
    rewrite drop_while_all by assumption. reflexivity.
  - apply negb_true_iff in Hhead.
    change ((x :: c') ++ w2) with (x :: c' ++ w2).
    rewrite drop_while_fixed by assumption.
    change (x :: c' ++ w2) with ((x :: c') ++ w2).
    rewrite rev_app_distr.
    rewrite drop_while_all by (now rewrite forallb_rev).
    destruct (rev (x :: c')) as [| z r] eqn:Er.
    + apply (f_equal (@rev ascii)) in Er. rewrite rev_involutive in Er.
      discriminate.
    + apply negb_true_iff in Hlast. rewrite drop_while_fixed by assumption.
      rewrite <- Er. apply rev_involutive.
Qed.

(** ** What the map holds *)

Lemma in_set (d : pages_dict) (k k' : Z) (v v' : text) :
  In (k', v') (Dict.set Z.eqb d k v) -> (k', v') = (k, v) \/ In (k', v') d.
Proof.
  induction d as [| [k0 v0] d IH]; simpl.
  - intros [H | []]. left. now symmetry.
  - destruct (Z.eqb k0 k).
    + intros [H | H]; [left; now symmetry | right; now right].
    + intros [H | H]; [right; now left |].
      destruct (IH H) as [E | Hin]; [now left | right; now right].
Qed.

Lemma in_fold_store : forall pairs d k v,
  In (k, v) (fold_left store pairs d) ->
  In (k, v) d \/ exists nb, In nb pairs /\ v = strip (snd nb).
Proof.
  induction pairs as [| nb pairs IH]; intros d k v H; simpl in H.
  - now left.
  - apply IH in H as [H | (nb' & Hin & Hv)].
    + unfold store in H. apply in_set in H as [E | H].
      * right. exists nb. split; [now left | congruence].
      * now left.
    + right. exists nb'. split; [now right | assumption].
Qed.

(** X6. Every content of the map is trimmed: it neither starts nor ends
    with a blank. *)
Theorem merge_values_trimmed (files : list text) (k : Z) (v : text) :
  In (k, v) (merge_translations files) -> trimmed v = true.
Proof.
  destruct files as [| f files]; [intros [] |].
  rewrite merge_translations_pairs by discriminate.
  intros H. apply in_fold_store in H as [[] | (nb & _ & ->)].
  apply strip_trimmed.
Qed.

(** X7. Fragment files in which the marker pattern matches nowhere give
    an empty map, whatever else they hold. *)
Theorem merge_without_marker (files : list text) :
  no_marker (all_text files) = true -> merge_translations files = [].
Proof.
  intros H. destruct files as [| f files]; [reflexivity |].
  rewrite (merge_unparse (f :: files) (all_text (f :: files)) []);
    [reflexivity | discriminate | | assumption | reflexivity].
  unfold unparse. simpl. now rewrite app_nil_r.
Qed.

(** ** Writing fragments and reading them back *)

Lemma match_marker_plain (c : ascii) (s : text) :
  c <> "<"%char -> match_marker (c :: s) = None.
Proof.
  intros Hc. unfold match_marker.
  change (lit "<!--") with ("<"%char :: lit "!--"). cbn [strip_prefix].
  destruct (Ascii.eqb_spec "<" c) as [E | _]; [congruence | reflexivity].
Qed.

Lemma marker_text_last (m : Marker) :
  exists x, marker_text m = x ++ [">"%char].
Proof.
  exists (lit "<!--" ++ ws_before m ++ lit "PAGE" ++ ws_middle m ++ digits m
          ++ ws_after m ++ lit "--").
  unfold marker_text. rewrite <- !app_assoc. reflexivity.
Qed.

(** A line break after [u] adds no match: a match ends with [>]. *)
Lemma match_marker_line_end (u : text) :
  match_marker u = None -> match_marker (u ++ [newline]) = None.
Proof.
  intros H.
  destruct (match_marker (u ++ [newline])) as [[d rest] |] eqn:E;
    [exfalso | reflexivity].
  apply match_marker_inv in E as (m & Hok & _ & Heq).
  induction rest as [| x r _] using rev_ind.
  - destruct (marker_text_last m) as (y & Hy).
    rewrite app_nil_r, Hy in Heq. apply app_inj_tail in Heq as [_ Hc].
    discriminate.
  - rewrite app_assoc in Heq. apply app_inj_tail in Heq as [Hu _].
    rewrite Hu, (match_marker_text m r Hok) in H. discriminate.
Qed.

Lemma no_marker_line_end (b : text) :
  no_marker b = true -> no_marker (b ++ [newline]) = true.
Proof.
  induction b as [| c b IH]; [reflexivity |]. intros H.
  cbn [no_marker] in H.
  destruct (match_marker (c :: b)) eqn:E; [discriminate |].
  change ((c :: b) ++ [newline]) with (c :: b ++ [newline]).
  cbn [no_marker].
  change (c :: b ++ [newline]) with ((c :: b) ++ [newline]).
  rewrite (match_marker_line_end _ E). now apply IH.
Qed.

Lemma no_marker_body (content tail : text) :
  no_marker content = true -> tail = [] \/ tail = [newline] ->
  no_marker (newline :: content ++ newline :: tail) = true.
Proof.
  intros H Htail. cbn [no_marker].
  rewrite match_marker_plain by discriminate.
  apply no_marker_line_end in H.
  destruct Htail as [-> | ->].
  - exact H.
  - apply no_marker_line_end in H. now rewrite <- app_assoc in H.
Qed.

Lemma decimal_value (n : nat) : int_of_digits (decimal n) = Z.of_nat n.
Proof. apply (decimal_loop_spec (S n) n (Nat.lt_succ_diag_r n)). Qed.

Lemma page_marker_ok (n : nat) : marker_ok (page_marker n) = true.
Proof.
  unfold marker_ok, page_marker. cbn [ws_before ws_middle digits ws_after].
  destruct (decimal_loop_spec (S n) n (Nat.lt_succ_diag_r n))
    as (Hd & _ & Hl & _).
  fold (decimal n) in Hd, Hl. rewrite Hd.
  destruct (decimal n); [simpl in Hl; lia | reflexivity].
Qed.

Lemma fragment_marks_ok : forall pages tail,
  (forall pc, In pc pages -> no_marker (snd pc) = true) ->
  tail = [] \/ tail = [newline] ->
  forallb mark_ok (fragment_marks pages tail) = true.
Proof.
  induction pages as [| [n c] pages IH]; intros tail Hc Htail;
    [reflexivity |].
  cbn [fragment_marks]. destruct pages as [| pc pages].
  - cbn [forallb]. unfold mark_ok. cbn [fst snd].
    rewrite page_marker_ok, (no_marker_body c tail); [reflexivity | | assumption].
    apply (Hc (n, c)). now left.
  - cbn [forallb]. unfold mark_ok at 1. cbn [fst snd].
    rewrite page_marker_ok, (no_marker_body c []); [| | now left].
    + apply IH; [| assumption]. intros x Hx. apply Hc. now right.
    + apply (Hc (n, c)). now left.
Qed.

Lemma fragment_marker (n : nat) (c : text) :
  fragment n c = marker_text (page_marker n) ++ newline :: c ++ [newline].
Proof.
  unfold fragment, marker_text, page_marker.
  cbn [ws_before ws_middle digits ws_after].
  change (lit "<!-- PAGE ") with (lit "<!--" ++ lit " " ++ lit "PAGE" ++ lit " ").
  change (lit " -->") with (lit " " ++ lit "-->").
  rewrite <- !app_assoc. reflexivity.
Qed.

Lemma unparse_fragment_marks : forall pages tail,
  pages <> [] ->
  unparse (fragment_marks pages tail) = write_fragments pages ++ tail.
Proof.
  induction pages as [| [n c] pages IH]; intros tail Hne; [congruence |].
  cbn [fragment_marks]. destruct pages as [| pc pages].
  - unfold unparse, write_fragments. cbn [map concat fst snd].
    rewrite fragment_marker, !app_nil_r.
    rewrite <- !app_assoc. cbn [app]. rewrite <- !app_assoc. reflexivity.
  - change (unparse ((page_marker n, newline :: c ++ [newline])
                     :: fragment_marks (pc :: pages) tail))
      with ((marker_text (page_marker n) ++ newline :: c ++ [newline])
            ++ unparse (fragment_marks (pc :: pages) tail)).
    rewrite IH by discriminate.
    change (write_fragments ((n, c) :: pc :: pages))
      with (fragment n c ++ write_fragments (pc :: pages)).
    rewrite fragment_marker. apply app_assoc.
Qed.

Lemma in_fragment_marks : forall pages tail n c,
  forallb is_space tail = true ->
  In (n, c) pages ->
  exists w, forallb is_space w = true
            /\ In (page_marker n, newline :: c ++ w) (fragment_marks pages tail).
Proof.
  induction pages as [| [n0 c0] pages IH]; intros tail n c Ht H;
    [destruct H |].
  cbn [fragment_marks]. destruct pages as [| pc pages].
  - destruct H as [E | []]. inversion E; subst.
    exists (newline :: tail). split; [exact Ht | now left].
  - destruct H as [E | H].
    + inversion E; subst. exists [newline]. split; [reflexivity | now left].
    + destruct (IH tail n c Ht H) as (w & Hw & Hin).
      exists w. split; [assumption | now right].
Qed.

Lemma fragment_marks_pages : forall pages tail,
  map (fun mb => page_of (fst mb)) (fragment_marks pages tail)
  = map (fun pc => Z.of_nat (fst pc)) pages.
Proof.
  induction pages as [| [n c] pages IH]; intros tail; [reflexivity |].
  cbn [fragment_marks]. destruct pages as [| pc pages].
  - cbn [map fst]. unfold page_of, page_marker. cbn [digits].
    now rewrite decimal_value.
  - cbn [map fst]. f_equal; [| exact (IH tail)].
    unfold page_of, page_marker. cbn [digits]. apply decimal_value.
Qed.

Lemma last_content_absent : forall marks p acc,
  ~ In p (map (fun mb => page_of (fst mb)) marks) ->
  fold_left (fun a (mb : Marker * text) =>
               if Z.eqb (page_of (fst mb)) p then Some (snd mb) else a)
            marks acc = acc.
Proof.
  induction marks as [| mb marks IH]; intros p acc H; [reflexivity |].
  simpl in *. destruct (Z.eqb_spec (page_of (fst mb)) p) as [E | _].
  - exfalso. apply H. now left.
  - apply IH. intros Hin. apply H. now right.
Qed.

Lemma last_content_unique : forall marks m b,
  NoDup (map (fun mb => page_of (fst mb)) marks) ->
  In (m, b) marks ->
  last_content (page_of m) marks = Some b.
Proof.
  intros marks m b Hnd Hin. unfold last_content.
  apply in_split in Hin as (l1 & l2 & ->).
  rewrite map_app in Hnd. cbn [map fst] in Hnd.
  apply NoDup_remove_2 in Hnd.
  rewrite fold_left_app. cbn [fold_left fst snd]. rewrite Z.eqb_refl.
  apply last_content_absent. intros H. apply Hnd, in_or_app. now right.
Qed.

(** X8. Writing pages as a fragment file in the documented layout and
    merging that file gives every page its content back, for contents
    that are trimmed and hold no marker, and page numbers used once. *)
Theorem write_then_merge (pages : list (nat * text)) (n : nat) (c : text) :
  NoDup (map fst pages) ->
  (forall pc, In pc pages ->
     no_marker (snd pc) = true /\ trimmed (snd pc) = true) ->
  In (n, c) pages ->
  Dict.get Z.eqb (merge_translations [write_fragments pages]) (Z.of_nat n)
  = Some c.
Proof.
  intros Hnd Hpages Hin.
  assert (Hne : pages <> []) by (intros ->; destruct Hin).
  rewrite (merge_unparse [write_fragments pages] []
             (fragment_marks pages [newline])).
  - rewrite get_store_marks.
    destruct (in_fragment_marks pages [newline] n c eq_refl Hin)
      as (w & Hw & Hm).
    replace (Z.of_nat n) with (page_of (page_marker n))
      by (unfold page_of, page_marker; cbn [digits]; apply decimal_value).
    assert (Hpg : NoDup (map (fun mb => page_of (fst mb))
                             (fragment_marks pages [newline]))).
    { rewrite fragment_marks_pages.
      rewrite <- (map_map fst Z.of_nat).
      apply NoDup_map_NoDup_ForallPairs; [| exact Hnd].
      intros x y _ _. apply Nat2Z.inj. }
    rewrite (last_content_unique _ _ _ Hpg Hm).
    cbn [option_map]. f_equal.
    apply (strip_padded [newline] c w eq_refl Hw).
    apply (Hpages (n, c) Hin).
  - discriminate.
  - rewrite (unparse_fragment_marks pages [newline] Hne).
    unfold all_text. reflexivity.
  - reflexivity.
  - apply fragment_marks_ok; [| now right].
    intros pc Hpc. apply (Hpages pc Hpc).
Qed.

(* ================================================================== *)
(** * Properties of page extraction and of the discovery of papers *)
(* ================================================================== *)

(** ** [extract_pages.py] *)

Lemma extract_loop_spec (doc : TextDocument) : forall n a acc,
  a + n = length doc ->
  extract_loop doc (seq a n) acc
  = Ok (acc ++ combine (map (fun i => (Z.of_nat i + 1)%Z) (seq a n))
                       (skipn a doc)).
Proof.
  induction n as [| n IH]; intros a acc Hlen.
  - simpl. now rewrite app_nil_r.
  - cbn [seq extract_loop].
    destruct (nth_error doc a) as [c |] eqn:Hc.
    + rewrite (IH (S a)) by lia.
      rewrite (skipn_nth_error doc a c Hc). cbn [map combine].
      now rewrite <- app_assoc.
    + apply nth_error_None in Hc. lia.
Qed.

Lemma combine_fst_snd {A B} : forall (l : list A) (l' : list B),
  length l = length l' ->
  map fst (combine l l') = l /\ map snd (combine l l') = l'.
Proof.
  induction l as [| a l IH]; intros [| b l'] H; simpl in *;
    try discriminate; [split; reflexivity |].
  destruct (IH l') as [-> ->]; [lia | split; reflexivity].
Qed.

(** X16. [extract] never indexes outside the document: the page loop
    returns one entry per page, numbered from 1 in the order of the
    document, each with the text of its page. *)
Theorem extract_pages_numbered (doc : TextDocument) :
  exists pages,
    extract_pages doc = Ok pages
    /\ map fst pages = map Z.of_nat (seq 1 (length doc))
    /\ map snd pages = doc.
Proof.
  unfold extract_pages. rewrite (extract_loop_spec doc (length doc) 0 [])
    by reflexivity.
  eexists. split; [reflexivity |]. cbn [app skipn].
  assert (Hl : length (map (fun i => (Z.of_nat i + 1)%Z) (seq 0 (length doc)))
               = length doc) by now rewrite length_map, length_seq.
  destruct (combine_fst_snd _ doc Hl) as [-> ->]. split; [| reflexivity].
  rewrite <- seq_shift, map_map. apply map_ext. intros i. lia.
Qed.




(** ** [discover_papers] *)

Lemma text_leb_total (a b : text) :
  text_leb a b = false -> text_leb b a = true.
Proof.
  revert b. induction a as [| x a IH]; intros [| y b]; simpl;
    try discriminate; try reflexivity.
  destruct (Nat.ltb_spec (nat_of_ascii x) (nat_of_ascii y)); [discriminate |].
  destruct (Nat.ltb_spec (nat_of_ascii y) (nat_of_ascii x)); [reflexivity |].
  apply IH.
Qed.

Lemma in_insert_text (x y : text) (l : list text) :
  In x (insert_text y l) <-> x = y \/ In x l.
Proof.
  induction l as [| z l IH]; simpl; [intuition |].
  destruct (text_leb y z); simpl; [intuition |].
  rewrite IH. intuition.
Qed.

Lemma in_sorted_texts (x : text) (l : list text) :
  In x (sorted_texts l) <-> In x l.
Proof.
  induction l as [| y l IH]; simpl; [reflexivity |].
  rewrite in_insert_text, IH. intuition.
Qed.

Lemma length_insert_text (y : text) (l : list text) :
  length (insert_text y l) = S (length l).
Proof.
  induction l as [| z l IH]; simpl; [reflexivity |].
  destruct (text_leb y z); simpl; [reflexivity | now rewrite IH].
Qed.

Lemma length_sorted_texts (l : list text) :
  length (sorted_texts l) = length l.
Proof.
  induction l as [| y l IH]; simpl; [reflexivity |].
  now rewrite length_insert_text, IH.
Qed.

Lemma insert_text_sorted (x : text) (l : list text) :
  Sorted (fun a b => text_leb a b = true) l ->
  Sorted (fun a b => text_leb a b = true) (insert_text x l).
Proof.
  induction l as [| y l IH]; intros Hs; simpl.
  - repeat constructor.
  - destruct (text_leb x y) eqn:E.
    + constructor; [assumption | now constructor].
    + inversion Hs as [| ? ? Hl Hhd]; subst.
      constructor; [now apply IH |].
      destruct l as [| z l]; simpl.
      * constructor. now apply text_leb_total.
      * destruct (text_leb x z).
        -- constructor. now apply text_leb_total.
        -- inversion Hhd; subst. now constructor.
Qed.

Lemma sorted_texts_sorted (l : list text) :
  Sorted (fun a b => text_leb a b = true) (sorted_texts l).
Proof.
  induction l as [| y l IH]; simpl; [constructor |].
  now apply insert_text_sorted.
Qed.

Lemma ends_with_spec (suffix s : text) :
  ends_with suffix s = true <-> exists p, s = p ++ suffix.
Proof.
  unfold ends_with. split.
  - destruct (strip_prefix (rev suffix) (rev s)) as [r |] eqn:E;
      [| discriminate].
    intros _. apply strip_prefix_Some in E. exists (rev r).
    rewrite <- (rev_involutive s), E, rev_app_distr.
    now rewrite rev_involutive.
  - intros (p & ->). now rewrite rev_app_distr, strip_prefix_app.
Qed.

Lemma firstn_base (p suffix : text) :
  firstn (length (p ++ suffix) - length suffix) (p ++ suffix) = p.
Proof.
  rewrite length_app. replace (length p + length suffix - length suffix)
    with (length p + 0) by lia.
  rewrite firstn_app_2. simpl. apply app_nil_r.
Qed.

(** X18. [discover_papers] returns the names of the PDF files of the
    listing, each without its extension, in ascending order: a name is
    returned exactly when the file of that name with [.pdf] appended is
    listed, and no file is dropped or added. *)
Theorem discover_papers_sorted_names (files : list text) :
  Sorted (fun a b => text_leb a b = true) (discover_papers (Some files))
  /\ (forall name,
        In name (discover_papers (Some files))
        <-> In (name ++ lit ".pdf") files)
  /\ length (discover_papers (Some files))
     = length (filter (ends_with (lit ".pdf")) files).
Proof.
  unfold discover_papers. split; [apply sorted_texts_sorted |]. split.
  - intros name. rewrite in_sorted_texts, in_map_iff. split.
    + intros (f & <- & Hf). apply filter_In in Hf as [Hin Hend].
      apply ends_with_spec in Hend as (p & ->).
      change 4 with (length (lit ".pdf")). now rewrite firstn_base.
    + intros Hin. exists (name ++ lit ".pdf"). split.
      * change 4 with (length (lit ".pdf")). apply firstn_base.
      * apply filter_In. split; [assumption |].
        apply ends_with_spec. now exists name.
  - now rewrite length_sorted_texts, length_map.
Qed.

(* ================================================================== *)
(** * The further properties at sample inputs *)
(* ================================================================== *)

(** A price with one dollar sign is no formula. *)
Lemma protect_math_few_dollars_witness :
  protect_math (lit "price: 5$ only") = (lit "price: 5$ only", [])
  /\ forall markdown,
       md_to_html markdown (lit "price: 5$ only")
       = markdown (lit "price: 5$ only").
Proof.
  apply (protect_math_few_dollars (lit "price: 5$ only")).
  vm_compute. lia.
Defined.

Lemma protect_math_entries_witness :
  (exists n, n < math_spans (lit "a $x$ b")
             /\ lit "MATHINLINE0000" = MATHBLOCK ++ format_04d n
             /\ block_shaped (lit "$x$"))
  \/ (exists n, n < math_spans (lit "a $x$ b")
                /\ lit "MATHINLINE0000" = MATHINLINE ++ format_04d n
                /\ inline_shaped (lit "$x$")).
Proof.
  apply (protect_math_entries (lit "a $x$ b") (lit "MATHINLINE0000")
           (lit "$x$")).
  vm_compute. left. reflexivity.
Defined.

Lemma restore_math_absent_keys_witness :
  restore_math (lit "<p>plain</p>") [(lit "MATHBLOCK0000", lit "$$x$$")]
  = lit "<p>plain</p>".
Proof.
  apply (restore_math_absent_keys (lit "<p>plain</p>")
           [(lit "MATHBLOCK0000", lit "$$x$$")]).
  intros k o [H | []]. inversion H; subst.
  split; [discriminate | reflexivity].
Defined.

Lemma merge_values_trimmed_witness : trimmed (lit "hello") = true.
Proof.
  apply (merge_values_trimmed [lit "<!-- PAGE 1 -->  hello  "] 1%Z
           (lit "hello")).
  vm_compute. left. reflexivity.
Defined.

Lemma merge_without_marker_witness :
  merge_translations [lit "no marker here"; lit "<!-- PAGE one -->"] = [].
Proof.
  apply (merge_without_marker
           [lit "no marker here"; lit "<!-- PAGE one -->"]).
  vm_compute. reflexivity.
Defined.

Lemma write_then_merge_witness :
  Dict.get Z.eqb
    (merge_translations
       [write_fragments [(1, lit "one"); (2, lit "two $x$")]])
    (Z.of_nat 2)
  = Some (lit "two $x$").
Proof.
  apply (write_then_merge [(1, lit "one"); (2, lit "two $x$")] 2
           (lit "two $x$")).
  - simpl. repeat constructor; simpl; intuition discriminate.
  - intros pc [<- | [<- | []]]; split; vm_compute; reflexivity.
  - simpl. right. left. reflexivity.
Defined.

Lemma failed_run_saves_nothing_witness :
  saved (trace (generate_aligned_pdf Sample.markdown Sample.render
                  Sample.template Sample.ws_batch (lit "a"))) = [].
Proof.
  apply (@failed_run_saves_nothing text Sample.markdown Sample.render
           Sample.template Sample.ws_batch (lit "a") (RenderError 1)).
  vm_compute. reflexivity.
Defined.


Lemma returning_run_closes_documents_witness :
  open_handles
    (trace (generate_aligned_pdf Sample.markdown Sample.render
              Sample.template Sample.ws_two_of_five (lit "p5"))) = [].
Proof.
  apply (@returning_run_closes_documents text Sample.markdown Sample.render
           Sample.template Sample.ws_two_of_five (lit "p5")).
  vm_compute. reflexivity.
Defined.

Lemma returning_run_renders_translated_witness :
  let pages := merge_translations
                 (ws_translations Sample.ws_two_of_five (lit "p5")) in
  let run := compose_document Sample.markdown Sample.render Sample.template
               Sample.ws_two_of_five (lit "p5") pages in
  written_pdfs (trace run)
  = map (fun p => (lit "p5", Z.of_nat p))
        (translated pages (length Sample.five_pages))
  /\ unlinked_pdfs (trace run) = written_pdfs (trace run).
Proof.
  apply (@returning_run_renders_translated text Sample.markdown Sample.render
           Sample.template Sample.ws_two_of_five (lit "p5")).
  - vm_compute. reflexivity.
  - vm_compute. reflexivity.
  - vm_compute. reflexivity.
Defined.


